(** * Trajectory optimisation for a three-fingered hand: static object system

    A shallow embedding of [traj_opt/static_object_system.py] (class
    [StaticObjectSystem]) and [traj_opt/static_object_opt.py] (class
    [StaticObjectOpt]).

    Conventions of the embedding.
    - A CasADi column vector ([n x 1]) is a [list]; a dense CasADi or NumPy
      matrix is a [matrix]: its two sizes and its entries in column-major
      order, which is the order CasADi's [reshape] and single-index slicing
      work in.
    - Operations that raise in the source (a slice past the end, a [reshape]
      that changes the number of entries, an index out of range) return
      [None].
    - Symbolic [SX] expressions are modelled by their value under a valuation
      of the decision variables and of the parameters; numbers are real
      numbers.
    - Where a property depends on the rounding of the binary64 numbers that
      the program computes with, the module [Binary64] evaluates the same
      expressions over primitive floats. *)

From Stdlib Require Import List Arith Lia Bool.
From Stdlib Require Import Reals Lra.
From Stdlib Require PrimFloat.
Import ListNotations.

(** ** The option monad for operations that can raise *)

Definition bind {A B : Type} (o : option A) (f : A -> option B) : option B :=
  match o with
  | Some x => f x
  | None => None
  end.

Notation "x <- e ;; k" := (bind e (fun x => k))
  (at level 61, e at next level, right associativity).
Notation "' p <- e ;; k" := (bind e (fun x => let p := x in k))
  (at level 61, p pattern, e at next level, right associativity).

(** [mapM f l]: run [f] on every element, left to right; the first failure
    aborts the loop. *)
Fixpoint mapM {A B : Type} (f : A -> option B) (l : list A) : option (list B) :=
  match l with
  | [] => Some []
  | x :: l' => y <- f x ;; ys <- mapM f l' ;; Some (y :: ys)
  end.

(** Python's [range(a, b)]. *)
Definition range (a b : nat) : list nat := seq a (b - a).

(** The entry of an option as a list of zero or one element. *)
Definition olist {A : Type} (o : option A) : list A :=
  match o with
  | Some x => [x]
  | None => []
  end.

(** ** Dense matrices *)

Record matrix (A : Type) : Type := Matrix {
  size1 : nat;          (* number of rows *)
  size2 : nat;          (* number of columns *)
  nz : list A           (* entries, column after column *)
}.

Arguments Matrix {A} _ _ _.
Arguments size1 {A} _.
Arguments size2 {A} _.
Arguments nz {A} _.

Section Matrices.
Context {A : Type}.

Definition numel (m : matrix A) : nat := size1 m * size2 m.

(** A matrix is dense and well formed when it has all its entries. *)
Definition wf (m : matrix A) : Prop := length (nz m) = size1 m * size2 m.

(** [m[i, j]] for in-range non-negative indices. *)
Definition get (m : matrix A) (i j : nat) : option A :=
  if (i <? size1 m) && (j <? size2 m)
  then nth_error (nz m) (j * size1 m + i)
  else None.

(** The column-major listing of the [r x c] matrix whose entry [(i, j)] is
    [f i j]. *)
Definition tabulate (r c : nat) (f : nat -> nat -> option A) : list A :=
  flat_map (fun j => flat_map (fun i => olist (f i j)) (seq 0 r)) (seq 0 c).

(** [m.T] *)
Definition transpose (m : matrix A) : matrix A :=
  Matrix (size2 m) (size1 m)
         (tabulate (size2 m) (size1 m) (fun i j => get m j i)).

(** [m[i, :]], the entries of row [i]. *)
Definition row (m : matrix A) (i : nat) : option (list A) :=
  if i <? size1 m
  then mapM (fun j => get m i j) (seq 0 (size2 m))
  else None.

(** [m[-1, :]] *)
Definition last_row (m : matrix A) : option (list A) :=
  match size1 m with
  | 0 => None
  | S k => row m k
  end.

(** CasADi's [reshape(v, r, c)] of a column vector: the entries are kept in
    column-major order; the number of entries must not change. *)
Definition reshape (v : list A) (r c : nat) : option (matrix A) :=
  if length v =? r * c then Some (Matrix r c v) else None.

(** [reshape(m, n, 1)]: the column vector of the entries of [m]. *)
Definition reshape_col (m : matrix A) (n : nat) : option (list A) :=
  if (length (nz m) =? n) && (numel m =? n) then Some (nz m) else None.

(** CasADi's slice [v[start:stop]] of a column vector, with [stop = None]
    for an open end. A stop past the end of the vector is an error
    (CasADi checks the bounds of a slice, unlike Python lists). *)
Definition slice (v : list A) (start : nat) (stop : option nat)
  : option (list A) :=
  let e := match stop with Some e => e | None => length v end in
  if length v <? e then None
  else Some (firstn (e - start) (skipn start v)).

(** [vertcat] of column vectors. *)
Definition vertcat (vs : list (list A)) : list A := concat vs.

(** [horzcat] of scalars: a [1 x n] row. *)
Definition horzcat (xs : list A) : matrix A := Matrix 1 (length xs) xs.

(** [np.ones((r, c)) * v]: every row is [v]. *)
Definition tile_rows (r : nat) (v : list A) : matrix A :=
  Matrix r (length v) (tabulate r (length v) (fun _ j => nth_error v j)).

(** The NumPy assignment [m[i] = v] of a whole row. *)
Definition set_row (m : matrix A) (i : nat) (v : list A) : option (matrix A) :=
  if (i <? size1 m) && (length v =? size2 m)
  then Some (Matrix (size1 m) (size2 m)
               (tabulate (size1 m) (size2 m)
                  (fun i' j => if i' =? i then nth_error v j else get m i' j)))
  else None.

(** [m[-1] = v] *)
Definition set_last_row (m : matrix A) (v : list A) : option (matrix A) :=
  match size1 m with
  | 0 => None
  | S k => set_row m k v
  end.

End Matrices.

(** ** Decision variable management ([StaticObjectSystem]) *)

Definition fnum : nat := 3.
Definition qnum : nat := 3.
Definition x_dim : nat := 7.

Section Codec.
Context {A : Type}.
Variable nGrid : nat.

(** [decvar_pack(t, s, a)] *)
Definition decvar_pack (t s a : list A) : list A := vertcat [t; s; a].

(** [decvar_unpack(z)] *)
Definition decvar_unpack (z : list A)
  : option (list A * list A * list A) :=
  t <- slice z 0 (Some nGrid) ;;
  let s_start_ind := nGrid in
  let s_end_ind := s_start_ind + 2 * nGrid * fnum * qnum in
  s_flat <- slice z s_start_ind (Some s_end_ind) ;;
  let a_start_ind := s_end_ind in
  a <- slice z a_start_ind None ;;
  Some (t, s_flat, a).

(** [s_unpack(s)] *)
Definition s_unpack (s : list A) : option (matrix A * matrix A) :=
  let dim := qnum * fnum in
  q_flat <- slice s 0 (Some (nGrid * dim)) ;;
  q0 <- reshape q_flat dim nGrid ;;
  let q := transpose q0 in
  dq_flat <- slice s (nGrid * dim) None ;;
  dq0 <- reshape dq_flat dim nGrid ;;
  let dq := transpose dq0 in
  Some (q, dq).

(** [s_pack(q, dq)] *)
Definition s_pack (q dq : matrix A) : option (list A) :=
  let dim := qnum * fnum in
  q_flat <- reshape_col (transpose q) (nGrid * dim) ;;
  dq_flat <- reshape_col (transpose dq) (nGrid * dim) ;;
  Some (vertcat [q_flat; dq_flat]).

End Codec.

(** ** Numbers, bounds and small NumPy arrays *)

Open Scope R_scope.

(** A bound of a variable or of a constraint: a number or [np.inf]. *)
Inductive bound : Type :=
| Fin (r : R)
| PInf.

(** [a <= b] on bounds. *)
Definition ble (a b : bound) : Prop :=
  match a, b with
  | Fin x, Fin y => x <= y
  | _, PInf => True
  | PInf, Fin _ => False
  end.

(** A monadic left fold: the loop [for x in l: acc = f(acc, x)]. *)
Fixpoint foldM {A B : Type} (f : B -> A -> option B) (l : list A) (acc : B)
  : option B :=
  match l with
  | [] => Some acc
  | x :: l' => acc' <- f acc x ;; foldM f l' acc'
  end.

(** Python's [enumerate]. *)
Definition enumerate {A : Type} (l : list A) : list (nat * A) :=
  combine (seq 0 (length l)) l.

Definition sum (l : list R) : R := fold_right Rplus 0 l.

(** Small NumPy arrays whose shapes are fixed where they are built ([Q], [R],
    the homogeneous transform, the Jacobian) are lists of rows. *)
Definition array2 : Type := list (list R).

Definition dot (u v : list R) : R :=
  sum (map (fun p => fst p * snd p) (combine u v)).

Definition column (M : array2) (j : nat) : list R :=
  map (fun r => nth j r 0) M.

(** [M @ v] for a column [v]. *)
Definition matvec (M : array2) (v : list R) : list R :=
  map (fun r => dot r v) M.

(** [v @ M] for a row [v]. *)
Definition vecmat (v : list R) (M : array2) : list R :=
  map (fun j => dot v (column M j)) (seq 0 (length (hd [] M))).

(** [c * v] *)
Definition vscale (c : R) (v : list R) : list R := map (fun x => c * x) v.

(** [u - v], entry by entry. *)
Definition vsub (u v : list R) : list R :=
  map (fun p => fst p - snd p) (combine u v).

(** [np.eye(n)] *)
Definition eye (n : nat) : array2 :=
  map (fun i => map (fun j => if (i =? j)%nat then 1 else 0) (seq 0 n)) (seq 0 n).

(** [M * c] *)
Definition mscale (M : array2) (c : R) : array2 :=
  map (map (fun x => x * c)) M.

(** [np.zeros((r, c))] *)
Definition zeros (r c : nat) : array2 := repeat (repeat 0 c) r.

(** The NumPy assignment [J[r0:r0+3, c0:c0+3] = B] of a block. *)
Definition set_block (J : array2) (r0 c0 : nat) (B : array2) : array2 :=
  map (fun ir =>
         map (fun jx =>
                if ((r0 <=? fst ir) && (fst ir <? r0 + length B) &&
                    (c0 <=? fst jx) && (fst jx <? c0 + length (hd [] B)))%nat
                then nth (fst jx - c0) (nth (fst ir - r0) B []) 0
                else snd jx)
             (enumerate (snd ir)))
      (enumerate J).

(** CasADi's [norm_2] of a vector. *)
Definition norm_2 (v : list R) : R := sqrt (sum (map (fun x => x * x) v)).

(** [x ** y] for a base [x >= 0] and an exponent [y > 0]. *)
Definition power (x y : R) : R :=
  if Req_dec_T x 0 then 0 else Rpower x y.

(** [np.linspace(start, stop, num)] *)
Definition linspace (start stop : R) (num : nat) : list R :=
  match num with
  | 0%nat => []
  | 1%nat => [start]
  | _ => map (fun i => start + INR i * ((stop - start) / INR (num - 1)))
             (seq 0 num)
  end.

(** ** Kinematics ([StaticObjectSystem.FK], [StaticObjectSystem.get_jacobian]) *)

(** List of angles of finger bases around arena (degrees). *)
Definition theta_base_deg_list : list R := [0; -120; -240].

(** Maximum fingertip radius. *)
Definition MAX_FT_R : R := 0.195.

(** The fingertip position of one finger in world frame, [one_finger_ft_wf]
    in [FK]: a column of three entries. *)
Definition one_finger_ft_wf (theta_base q1 q2 q3 : R) : list R :=
  [ 0.1626 * (sin q1 * sin q2 * cos theta_base - sin theta_base * cos q2) * sin q3 - 0.1626 * (sin q1 * cos q2 * cos theta_base + sin q2 * sin theta_base) * cos q3 - 0.16 * sin q1 * cos q2 * cos theta_base - 0.16 * sin q2 * sin theta_base - 0.0505 * sin theta_base + 0.08457 * cos q1 * cos theta_base ;
    0.1626 * (sin q1 * sin q2 * sin theta_base + cos q2 * cos theta_base) * sin q3 - 0.1626 * (sin q1 * sin theta_base * cos q2 - sin q2 * cos theta_base) * cos q3 - 0.16 * sin q1 * sin theta_base * cos q2 + 0.16 * sin q2 * cos theta_base + 0.08457 * sin theta_base * cos q1 + 0.0505 * cos theta_base ;
    -0.08457 * sin q1 + 0.1626 * sin q2 * sin q3 * cos q1 - 0.1626 * cos q1 * cos q2 * cos q3 - 0.16 * cos q1 * cos q2 + 0.29 ].

(** The 3x3 Jacobian of a single finger, [one_finger_J] in [get_jacobian]. *)
Definition one_finger_J (theta_base q1 q2 q3 : R) : array2 :=
  [ [ -0.08457 * sin q1 * cos theta_base + 0.1626 * sin q2 * sin q3 * cos q1 * cos theta_base - 0.1626 * cos q1 * cos q2 * cos q3 * cos theta_base - 0.16 * cos q1 * cos q2 * cos theta_base ;
      (0.1626 * sin q1 * sin q2 * cos theta_base - 0.1626 * sin theta_base * cos q2) * cos q3 + (0.1626 * sin q1 * cos q2 * cos theta_base + 0.1626 * sin q2 * sin theta_base) * sin q3 + 0.16 * sin q1 * sin q2 * cos theta_base - 0.16 * sin theta_base * cos q2 ;
      (0.1626 * sin q1 * sin q2 * cos theta_base - 0.1626 * sin theta_base * cos q2) * cos q3 - (-0.1626 * sin q1 * cos q2 * cos theta_base - 0.1626 * sin q2 * sin theta_base) * sin q3 ] ;
    [ -0.08457 * sin q1 * sin theta_base + 0.1626 * sin q2 * sin q3 * sin theta_base * cos q1 - 0.1626 * sin theta_base * cos q1 * cos q2 * cos q3 - 0.16 * sin theta_base * cos q1 * cos q2 ;
      (0.1626 * sin q1 * sin q2 * sin theta_base + 0.1626 * cos q2 * cos theta_base) * cos q3 + (0.1626 * sin q1 * sin theta_base * cos q2 - 0.1626 * sin q2 * cos theta_base) * sin q3 + 0.16 * sin q1 * sin q2 * sin theta_base + 0.16 * cos q2 * cos theta_base ;
      (0.1626 * sin q1 * sin q2 * sin theta_base + 0.1626 * cos q2 * cos theta_base) * cos q3 - (-0.1626 * sin q1 * sin theta_base * cos q2 + 0.1626 * sin q2 * cos theta_base) * sin q3 ] ;
    [ -0.1626 * sin q1 * sin q2 * sin q3 + 0.1626 * sin q1 * cos q2 * cos q3 + 0.16 * sin q1 * cos q2 - 0.08457 * cos q1 ;
      0.1626 * sin q2 * cos q1 * cos q3 + 0.16 * sin q2 * cos q1 + 0.1626 * sin q3 * cos q1 * cos q2 ;
      0.1626 * sin q2 * cos q1 * cos q3 + 0.1626 * sin q3 * cos q1 * cos q2 ] ].

(** [FK(q_cur)]: list of fingertip positions in world frame; [q_cur] is one
    row of the position matrix. *)
Definition FK (q_cur : list R) : option (list (list R)) :=
  mapM (fun it =>
          let i := fst it in
          let theta_base_deg := snd it in
          q1 <- nth_error q_cur (qnum * i) ;;
          q2 <- nth_error q_cur (qnum * i + 1) ;;
          q3 <- nth_error q_cur (qnum * i + 2) ;;
          let theta_base := theta_base_deg * (PI / 180) in
          Some (one_finger_ft_wf theta_base q1 q2 q3))
       (enumerate theta_base_deg_list).

(** [get_jacobian(q_cur)]: 9 (f1xyz, f2xyz, f3xyz) x 9 (q0, ..., q8). *)
Definition get_jacobian (q_cur : list R) : option array2 :=
  let J := zeros (fnum * 3) (fnum * qnum) in
  foldM (fun J it =>
           let i := fst it in
           let theta_base_deg := snd it in
           q1 <- nth_error q_cur (qnum * i) ;;
           q2 <- nth_error q_cur (qnum * i + 1) ;;
           q3 <- nth_error q_cur (qnum * i + 2) ;;
           let theta_base := theta_base_deg * (PI / 180) in
           Some (set_block J (3 * i) (qnum * i)
                   (one_finger_J theta_base q1 q2 q3)))
        (enumerate theta_base_deg_list) J.

(** ** Object frame and collision proxy *)

Definition vec3 : Type := (R * R * R)%type.
Definition quat : Type := (R * R * R * R)%type.

(** The object pose parameter [obj_pose_param]: [x, y, z, qx, qy, qz, qw]. *)
Record pose : Type := Pose {
  pose_position : vec3;      (* obj_pose_param[:3] *)
  pose_quat : quat           (* obj_pose_param[-4:] *)
}.

Definition vec3_list (v : vec3) : list R :=
  let '(x, y, z) := v in [x; y; z].

Section System.
(** Number of grid points. *)
Variable nGrid : nat.
(** Time step. *)
Variable dt : R.
(** Object shape (width, length, height). *)
Variable obj_shape : vec3.

(** Helpers of the package that the two modules import: they are taken as
    they are used, [utils.invert_transform(p, quat)],
    [utils.get_matrix_from_quaternion(quat)] (the rows of the rotation
    matrix) and, for finger [f_i] and link [l_i],
    [fingers[f_i].get_sphere_centers_wf(q)[l_i]] (one sphere centre per
    row). *)
Variable invert_transform : vec3 -> quat -> vec3 * quat.
Variable get_matrix_from_quaternion : quat -> vec3 * vec3 * vec3.
Variable get_sphere_centers_wf : nat -> list R -> nat -> list vec3.

(** Final time. *)
Definition tf : R := dt * (INR nGrid - 1).

(** Exponent of the p-norm. *)
Definition p : nat := 100.

(** [get_H_w_2_o()]: 4x4 transformation matrix from world to object frame. *)
Definition get_H_w_2_o (obj_pose_param : pose) : array2 :=
  let quat := pose_quat obj_pose_param in
  let p := pose_position obj_pose_param in
  let '(p_inv, quat_inv) := invert_transform p quat in
  let '(r0, r1, r2) := get_matrix_from_quaternion quat_inv in
  [ vec3_list r0 ++ [nth 0 (vec3_list p_inv) 0] ;
    vec3_list r1 ++ [nth 1 (vec3_list p_inv) 0] ;
    vec3_list r2 ++ [nth 2 (vec3_list p_inv) 0] ;
    [0; 0; 0; 1] ].

(** [get_cp_param_from_pos_of(p_of)]: normalise [p_of] to a unit cube. *)
Definition get_cp_param_from_pos_of (p_of : list R) : list R :=
  map (fun i => (2 * nth i p_of 0 + nth i (vec3_list obj_shape) 0)
                / nth i (vec3_list obj_shape) 0 - 1)
      (seq 0 3).

(** [get_pnorm(cp_param)] *)
Definition get_pnorm (cp_param : list R) : R :=
  let pnorm := fold_left (fun pnorm param => pnorm + Rabs param ^ p)
                         cp_param 0 in
  power pnorm (1 / INR p).

(** [get_pnorm_of_pos_wf(p_wf)] *)
Definition get_pnorm_of_pos_wf (obj_pose_param : pose) (p_wf : vec3) : R :=
  let H_w_2_o := get_H_w_2_o obj_pose_param in
  let ft_pos_of := matvec H_w_2_o (vec3_list p_wf ++ [1]) in
  let cp_param := get_cp_param_from_pos_of (firstn 3 ft_pos_of) in
  get_pnorm cp_param.

(** ** Constraint functions *)

(** [ft_goal_constraint(s_flat, a)]: fingertip positions at the end of the
    trajectory are at [ft_goal], with a slack variable. *)
Definition ft_goal_constraint (ft_goal_param : list R) (s_flat a : list R)
  : option (matrix R) :=
  qdq <- s_unpack nGrid s_flat ;;
  let q := fst qdq in
  q_end <- last_row q ;;
  ft_end <- FK q_end ;;
  con_list <-
    mapM (fun f_i =>
            mapM (fun d_i =>
                    a_i <- nth_error a (f_i * 3 + d_i) ;;
                    g_i <- nth_error ft_goal_param (f_i * 3 + d_i) ;;
                    ft_f <- nth_error ft_end f_i ;;
                    ft_fd <- nth_error ft_f d_i ;;
                    Some (a_i - (g_i - ft_fd) ^ 2))
                 (range 0 3))
         (range 0 fnum) ;;
  Some (horzcat (concat con_list)).

(** [arena_constraint(s_flat)]: keep end effectors within a pre-defined
    radius and above the ground. *)
Definition arena_constraint (s_flat : list R) : option (matrix R) :=
  qdq <- s_unpack nGrid s_flat ;;
  let q := fst qdq in
  con_list <-
    mapM (fun t_i =>
            q_t <- row q t_i ;;
            ft <- FK q_t ;;
            per_finger <-
              mapM (fun f_i =>
                      ft_f <- nth_error ft f_i ;;
                      let r := norm_2 (firstn 2 ft_f) in
                      z <- nth_error ft_f 2 ;;
                      Some [MAX_FT_R - r; z - 0.01])
                   (range 0 fnum) ;;
            Some (concat per_finger))
         (range 10 nGrid) ;;
  Some (horzcat (concat con_list)).

(** All entries [m[r, c]] of a matrix, row after row, as in the loops
    [for r in range(m.shape[0]): for c in range(m.shape[1])]. *)
Definition entries (m : matrix R) : option (list R) :=
  rows <- mapM (fun r => mapM (fun c => get m r c) (range 0 (size2 m)))
               (range 0 (size1 m)) ;;
  Some (concat rows).

(** A constraint: the expression [g], its lower bound [lbg] and its upper
    bound [ubg]. The source appends to the three lists together; the three
    results of [get_constraints] are the three projections. *)
Record constraint : Type := Constraint {
  g : R;
  lbg : bound;
  ubg : bound
}.

(** [get_constraints(system, t, s, a)] of [StaticObjectOpt]. *)
Definition get_constraints (ft_goal_param : list R) (t s a : list R)
  : option (list constraint) :=
  qdq <- s_unpack nGrid s ;;
  let q := fst qdq in
  let dq := snd qdq in
  (* Loop over entire trajectory *)
  colloc <-
    mapM (fun i =>
            t1 <- nth_error t (i + 1) ;;
            t0 <- nth_error t i ;;
            let dt := t1 - t0 in
            (* q and dq trapezoidal integration *)
            mapM (fun j =>
                    dq1 <- get dq (i + 1) j ;;
                    dq0 <- get dq i j ;;
                    q0 <- get q i j ;;
                    q1 <- get q (i + 1) j ;;
                    let f := 0.5 * dt * (dq1 + dq0) + q0 - q1 in
                    Some (Constraint f (Fin 0) (Fin 0)))
                 (range 0 (fnum * qnum)))
         (range 0 (length t - 1)) ;;
  ft_goal_constraints <- ft_goal_constraint ft_goal_param s a ;;
  goal <- entries ft_goal_constraints ;;
  (* Fingertip radius constraint *)
  ft_r_constraints <- arena_constraint s ;;
  arena <- entries ft_r_constraints ;;
  Some (concat colloc
        ++ map (fun f => Constraint f (Fin 0) PInf) goal
        ++ map (fun f => Constraint f (Fin 0) PInf) arena).

(** ** Cost ([StaticObjectOpt.cost_func]) *)

Definition collision_weight : R := 0.
Definition pnorm_min : R := 1.2.
Definition alpha : R := 8.

(** The smooth max of the collision cost. *)
Definition penalty (pnorm : R) : R :=
  ((pnorm_min - pnorm) * Rpower (exp 1) (alpha * (pnorm_min - pnorm)))
  / (1 + Rpower (exp 1) (alpha * (pnorm_min - pnorm))).

Definition cost_func (ft_goal_param : list R) (obj_pose_param : pose)
           (t s_flat a : list R) : option R :=
  let cost := 0 in
  let R := mscale (eye (fnum * qnum)) 0.01 in
  let Q := mscale (eye qnum) 6 in
  qdq <- s_unpack nGrid s_flat ;;
  let q := fst qdq in
  let dq := snd qdq in
  (* Slack variable penalties *)
  cost <- foldM (fun cost i =>
                   a_i <- nth_error a i ;;
                   Some (cost + a_i * 150))
                (range 0 (length a)) cost ;;
  (* Add the current distance to fingertip goal *)
  cost <- foldM (fun cost i =>
                   q_cur <- row q i ;;
                   ft_cur <- FK q_cur ;;
                   foldM (fun cost f_i =>
                            goal <- slice ft_goal_param (3 * f_i)
                                          (Some (3 * f_i + 3)%nat) ;;
                            ft_f <- nth_error ft_cur f_i ;;
                            let delta := vsub goal ft_f in
                            Some (cost + dot (vecmat (vscale 0.5 delta) Q) delta))
                         (range 0 fnum) cost)
                (range 0 (length t)) cost ;;
  (* Add dq to cost *)
  cost <- foldM (fun cost i =>
                   dq_cur <- row dq i ;;
                   Some (cost + dot (vecmat (vscale 0.5 dq_cur) R) dq_cur))
                (range 0 (length t)) cost ;;
  (* Collision cost *)
  foldM (fun cost t_i =>
           q_cur <- row q t_i ;;
           foldM (fun cost f_i =>
                    q_f <- slice q_cur (qnum * f_i)
                                 (Some (qnum * f_i + qnum)%nat) ;;
                    let centers := get_sphere_centers_wf f_i q_f in
                    foldM (fun cost l_i =>
                             foldM (fun cost c =>
                                      let pnorm :=
                                        get_pnorm_of_pos_wf obj_pose_param c in
                                      Some (cost + penalty pnorm * collision_weight))
                                   (centers l_i) cost)
                          [3%nat] cost)
                 (range 0 fnum) cost)
        (range 0 (length t)) cost.

(** ** Path constraints ([StaticObjectSystem.path_constraints]) *)

(** [np.ones(shape) * v]: the rows of the array are all [v]; the
    broadcast needs as many columns as [v] has entries. *)
Definition ones_times (r c : nat) (v : list bound) : option (matrix bound) :=
  if (length v =? c)%nat then Some (tile_rows r v) else None.

Definition one_finger_q_range : list (R * R) :=
  [ (-0.33, 1.0) ;   (* joint 1 range *)
    (0.0, 1.57) ;    (* joint 2 range *)
    (-2.7, 0.0) ].   (* joint 3 range *)

Definition one_finger_dq_range : list (R * R) :=
  [ (-2, 2) ;   (* joint 1 range *)
    (-2, 2) ;   (* joint 2 range *)
    (-2, 2) ].  (* joint 3 range *)

(** [np.tile(range, (n, 1))] *)
Definition tile {A : Type} (l : list A) (n : nat) : list A :=
  concat (repeat l n).

(** Upper and lower bounds for the decision variables; [z] gives the
    shapes only. *)
Definition path_constraints (z : list R) (q0 : list R)
           (dq0 dq_end : option (list R))
  : option (list bound * list bound) :=
  tsa <- decvar_unpack nGrid z ;;
  let '(t, s_flat, a) := tsa in
  (* Time bounds *)
  let t_lb := map Fin (linspace 0 tf nGrid) in
  let t_ub := t_lb in
  (* State path constraints *)
  qdq <- s_unpack nGrid s_flat ;;
  let q := fst qdq in
  let dq := snd qdq in
  let q_range := tile one_finger_q_range fnum in
  q_lb <- ones_times (size1 q) (size2 q) (map (fun r => Fin (fst r)) q_range) ;;
  q_ub <- ones_times (size1 q) (size2 q) (map (fun r => Fin (snd r)) q_range) ;;
  (* Starting position *)
  q_lb <- set_row q_lb 0 (map Fin q0) ;;
  q_ub <- set_row q_ub 0 (map Fin q0) ;;
  (* Velocity constraints *)
  let dq_range := tile one_finger_dq_range fnum in
  dq_lb <- ones_times (size1 dq) (size2 dq) (map (fun r => Fin (fst r)) dq_range) ;;
  dq_ub <- ones_times (size1 dq) (size2 dq) (map (fun r => Fin (snd r)) dq_range) ;;
  dq_lb <- match dq0 with
           | Some v => set_row dq_lb 0 (map Fin v)
           | None => Some dq_lb
           end ;;
  dq_ub <- match dq0 with
           | Some v => set_row dq_ub 0 (map Fin v)
           | None => Some dq_ub
           end ;;
  dq_lb <- match dq_end with
           | Some v => set_last_row dq_lb (map Fin v)
           | None => Some dq_lb
           end ;;
  dq_ub <- match dq_end with
           | Some v => set_last_row dq_ub (map Fin v)
           | None => Some dq_ub
           end ;;
  (* Pack state constraints *)
  s_lb <- s_pack nGrid q_lb dq_lb ;;
  s_ub <- s_pack nGrid q_ub dq_ub ;;
  let a_lb := repeat (Fin 0) (length a) in
  let a_ub := repeat PInf (length a) in
  (* Pack the constraints for all dec vars *)
  let z_lb := decvar_pack t_lb s_lb a_lb in
  let z_ub := decvar_pack t_ub s_ub a_ub in
  Some (z_lb, z_ub).

End System.

(** ** Expressions in one variable and their symbolic derivative

    The entries of [one_finger_ft_wf] are sums and products of sines and
    cosines of the joint angles; [D] differentiates such an expression. *)

Inductive expr : Type :=
| X
| Const (c : R)
| Add (a b : expr)
| Sub (a b : expr)
| Mul (a b : expr)
| Neg (a : expr)
| Sin (a : expr)
| Cos (a : expr).

Fixpoint eval (e : expr) (x : R) : R :=
  match e with
  | X => x
  | Const c => c
  | Add a b => eval a x + eval b x
  | Sub a b => eval a x - eval b x
  | Mul a b => eval a x * eval b x
  | Neg a => - eval a x
  | Sin a => sin (eval a x)
  | Cos a => cos (eval a x)
  end.

Fixpoint D (e : expr) : expr :=
  match e with
  | X => Const 1
  | Const _ => Const 0
  | Add a b => Add (D a) (D b)
  | Sub a b => Sub (D a) (D b)
  | Mul a b => Add (Mul (D a) b) (Mul a (D b))
  | Neg a => Neg (D a)
  | Sin a => Mul (D a) (Cos a)
  | Cos a => Mul (D a) (Neg (Sin a))
  end.

(** ** Reading the kinematics entry by entry *)

(** The three joint angles of one finger. *)
Definition joints : Type := (R * R * R)%type.

(** Joint [k] of a finger. *)
Definition joint (k : nat) (q : joints) : R :=
  let '(q1, q2, q3) := q in
  match k with 0%nat => q1 | 1%nat => q2 | _ => q3 end.

(** The joint angles with joint [k] set to [x]. *)
Definition set_joint (k : nat) (x : R) (q : joints) : joints :=
  let '(q1, q2, q3) := q in
  match k with 0%nat => (x, q2, q3) | 1%nat => (q1, x, q3) | _ => (q1, q2, x) end.

(** Coordinate [r] of the fingertip position of a finger. *)
Definition ft_coord (theta_base : R) (r : nat) (q : joints) : R :=
  let '(q1, q2, q3) := q in nth r (one_finger_ft_wf theta_base q1 q2 q3) 0.

(** Entry [(r, k)] of the Jacobian of a finger. *)
Definition J_coord (theta_base : R) (r k : nat) (q : joints) : R :=
  let '(q1, q2, q3) := q in
  nth k (nth r (one_finger_J theta_base q1 q2 q3) []) 0.

(** The base angle of finger [i], in radians. *)
Definition theta_base_of (i : nat) : R :=
  nth i theta_base_deg_list 0 * (PI / 180).

(** The joint angles of finger [i] in a configuration of the hand. *)
Definition finger_joints (q_cur : list R) (i : nat) : joints :=
  (nth (qnum * i) q_cur 0, nth (qnum * i + 1) q_cur 0, nth (qnum * i + 2) q_cur 0).

(** ** The constraint families, entry by entry *)

(** Entry [(i, j)] of a matrix of numbers. *)
Definition entry (m : matrix R) (i j : nat) : R :=
  nth (j * size1 m + i) (nz m) 0.

(** Row [i] of a matrix of numbers. *)
Definition row_of (m : matrix R) (i : nat) : list R :=
  map (entry m i) (seq 0 (size2 m)).

(** The fingertip position of finger [f] in the configuration [q_cur] of the
    hand. *)
Definition fingertip_position (q_cur : list R) (f : nat) : list R :=
  one_finger_ft_wf (theta_base_of f)
    (nth (qnum * f) q_cur 0) (nth (qnum * f + 1) q_cur 0)
    (nth (qnum * f + 2) q_cur 0).

(** The collocation defect of joint [j] between grid indices [i] and
    [i + 1]. *)
Definition collocation_defect (t : list R) (q dq : matrix R) (i j : nat) : R :=
  0.5 * (nth (i + 1) t 0 - nth i t 0) * (entry dq (i + 1) j + entry dq i j)
  + entry q i j - entry q (i + 1) j.

Definition collocation_family (nGrid : nat) (t : list R) (q dq : matrix R)
  : list constraint :=
  flat_map (fun i =>
              map (fun j => Constraint (collocation_defect t q dq i j)
                                       (Fin 0) (Fin 0))
                  (seq 0 (fnum * qnum)))
           (seq 0 (nGrid - 1)).

(** The goal expression of finger [f] and axis [d] at grid index [i]. *)
Definition goal_slack_expr (ft_goal_param a : list R) (q : matrix R)
           (i f d : nat) : R :=
  nth (f * 3 + d) a 0
  - (nth (f * 3 + d) ft_goal_param 0
     - nth d (fingertip_position (row_of q i) f) 0) ^ 2.

Definition goal_family (nGrid : nat) (ft_goal_param a : list R) (q : matrix R)
  : list constraint :=
  flat_map (fun f =>
              map (fun d => Constraint
                              (goal_slack_expr ft_goal_param a q (nGrid - 1) f d)
                              (Fin 0) PInf)
                  (seq 0 3))
           (seq 0 fnum).

Definition GROUND_CLEARANCE : R := 0.01.

(** The distance of a point from the vertical axis. *)
Definition xy_radius (pt : list R) : R :=
  sqrt (nth 0 pt 0 * nth 0 pt 0 + nth 1 pt 0 * nth 1 pt 0).

(** The two arena constraints of finger [f] at grid index [i]. *)
Definition arena_pair (q : matrix R) (i f : nat) : list constraint :=
  let fingertip := fingertip_position (row_of q i) f in
  [ Constraint (MAX_FT_R - xy_radius fingertip) (Fin 0) PInf ;
    Constraint (nth 2 fingertip 0 - GROUND_CLEARANCE) (Fin 0) PInf ].

(** The arena constraints from grid index [cut_in] on. *)
Definition arena_family (cut_in nGrid : nat) (q : matrix R) : list constraint :=
  flat_map (fun i => flat_map (fun f => arena_pair q i f) (seq 0 fnum))
           (seq cut_in (nGrid - cut_in)).

(** ** The terms of the cost *)

(** The weight of the slack variables. *)
Definition W_SLACK : R := 150.

(** The weight of the distance to the fingertip goal, [Q] in [cost_func]. *)
Definition Q_weight : array2 := mscale (eye qnum) 6.

(** The weight of the joint velocities, [R] in [cost_func]. *)
Definition R_weight : array2 := mscale (eye (fnum * qnum)) 0.01.

(** The quadratic form [v^T M v]. *)
Definition quad_form (v : list R) (M : array2) : R :=
  sum (map (fun i =>
              sum (map (fun j => nth i v 0 * nth j (nth i M []) 0 * nth j v 0)
                       (seq 0 (length v))))
           (seq 0 (length v))).

Definition slack_penalty (a : list R) : R := sum a * W_SLACK.

(** Goal minus fingertip position of finger [f] at grid index [i]. *)
Definition goal_error (ft_goal_param : list R) (q : matrix R) (i f : nat)
  : list R :=
  map (fun d => nth (3 * f + d) ft_goal_param 0
                - nth d (fingertip_position (row_of q i) f) 0)
      (seq 0 3).

Definition tracking_cost (ft_goal_param : list R) (q : matrix R) (i f : nat)
  : R :=
  0.5 * quad_form (goal_error ft_goal_param q i f) Q_weight.

Definition velocity_cost (dq : matrix R) (i : nat) : R :=
  0.5 * quad_form (row_of dq i) R_weight.

(** The sum of a term over all grid indices. *)
Definition sum_over_grid (nGrid : nat) (term : nat -> R) : R :=
  sum (map term (seq 0 nGrid)).

(** The sum of a term over all fingers. *)
Definition sum_over_fingers (term : nat -> R) : R :=
  sum (map term (seq 0 fnum)).

(** The collision term of finger [f] at grid index [i]: the penalties of the
    sphere centres of link 3, each times the collision weight. *)
Definition collision_cost (obj_shape : vec3)
           (invert_transform : vec3 -> quat -> vec3 * quat)
           (get_matrix_from_quaternion : quat -> vec3 * vec3 * vec3)
           (get_sphere_centers_wf : nat -> list R -> nat -> list vec3)
           (obj_pose_param : pose) (q : matrix R) (i f : nat) : R :=
  sum (map (fun l_i =>
              sum (map (fun c =>
                          penalty (get_pnorm_of_pos_wf obj_shape invert_transform
                                     get_matrix_from_quaternion obj_pose_param c)
                          * collision_weight)
                       (get_sphere_centers_wf f
                          (firstn qnum (skipn (qnum * f) (row_of q i))) l_i)))
           [3%nat]).

(** ** Example inputs *)

(** A hand at rest on a grid of two points. *)
Definition rest_t : list R := linspace 0 (tf 2 1) 2.
Definition rest_s : list R := repeat 0 36.
Definition rest_a : list R := repeat 0 9.
Definition rest_goal : list R := repeat 0 9.
Definition rest_q : matrix R := transpose (Matrix 9 2 (repeat 0 18)).
Definition rest_v : list R := repeat 0 9.

(** A hand at rest on a grid of eleven points. *)
Definition far_t : list R := repeat 0 11.
Definition far_s : list R := repeat 0 198.
Definition far_q : matrix R := transpose (Matrix 9 11 (repeat 0 99)).

(** A unit cube, rigid motions that are the identity, and one sphere centre
    per link at the origin. *)
Definition unit_shape : vec3 := (1, 1, 1).
Definition keep_transform (p : vec3) (o : quat) : vec3 * quat := (p, o).
Definition identity_rotation (o : quat) : vec3 * vec3 * vec3 :=
  ((1, 0, 0), (0, 1, 0), (0, 0, 1)).
Definition origin_centers (f : nat) (q : list R) (l : nat) : list vec3 :=
  [(0, 0, 0)].
Definition pose_origin : pose := Pose (0, 0, 0) (0, 0, 0, 1).
Definition pose_shifted : pose := Pose (1, 0, 0) (0, 0, 0, 1).

(** ** Ordered bounds *)

(** Two matrices of bounds of one shape, the first below the second entry
    by entry. *)
Definition below (r c : nat) (lo hi : matrix bound) : Prop :=
  wf lo /\ wf hi /\
  size1 lo = r /\ size2 lo = c /\ size1 hi = r /\ size2 hi = c /\
  forall i j, (i < r)%nat -> (j < c)%nat ->
    exists x y, get lo i j = Some x /\ get hi i j = Some y /\ ble x y.

(** ** The rest of the two modules: initial guess, collision constraint,
    decision variables and decoding of a solution *)

(** [np.zeros((r, c))] as a matrix that goes through the codec. *)
Definition mzeros (r c : nat) : matrix R := Matrix r c (repeat 0 (r * c)).

Section Guess.
Variable nGrid : nat.
Variable dt : R.

(** [get_initial_guess(z_var, q0)] of [StaticObjectSystem]; [z_var] gives
    the shapes only. *)
Definition get_initial_guess (z_var : list R) (q0 : list R) : option (list R) :=
  tsa <- decvar_unpack nGrid z_var ;;
  let '(t_var, s_var, a_var) := tsa in
  (* Define time points to be equally spaced *)
  let t_traj := linspace 0 (tf nGrid dt) nGrid in
  qdq <- s_unpack nGrid s_var ;;
  let dq_var := snd qdq in
  (* Set q0 to entire q_traj guess *)
  let q_traj := tile_rows nGrid q0 in
  (* Joint velocities are zero *)
  let dq_traj := mzeros (size1 dq_var) (size2 dq_var) in
  s_traj <- s_pack nGrid q_traj dq_traj ;;
  let a_traj := repeat 0 (length a_var) in
  let z_traj := decvar_pack t_traj s_traj a_traj in
  Some z_traj.

End Guess.

Section Collision.
Variable nGrid : nat.
Variable obj_shape : vec3.
Variable invert_transform : vec3 -> quat -> vec3 * quat.
Variable get_matrix_from_quaternion : quat -> vec3 * vec3 * vec3.
Variable get_sphere_centers_wf : nat -> list R -> nat -> list vec3.
(** [fingers[f_i].r_list[l_i]]: the radius of the spheres on link [l_i] of
    finger [f_i], a table of the finger model. *)
Variable r_list : nat -> nat -> R.

(** [collision_constraint(s_flat)] of [StaticObjectSystem]. *)
Definition collision_constraint (obj_pose_param : pose) (s_flat : list R)
  : option (matrix R) :=
  qdq <- s_unpack nGrid s_flat ;;
  let q := fst qdq in
  con_list <-
    mapM (fun t_i =>
            q_cur <- row q t_i ;;
            per_finger <-
              mapM (fun f_i =>
                      q_f <- slice q_cur (qnum * f_i)
                                   (Some (qnum * f_i + qnum)%nat) ;;
                      let centers := get_sphere_centers_wf f_i q_f in
                      Some (concat
                              (map (fun l_i =>
                                      (* radius of spheres on link *)
                                      let r := r_list f_i l_i in
                                      map (fun c =>
                                             let pnorm :=
                                               get_pnorm_of_pos_wf obj_shape
                                                 invert_transform
                                                 get_matrix_from_quaternion
                                                 obj_pose_param c in
                                             pnorm - r - 1)
                                          (centers l_i))
                                   [2%nat; 3%nat])))
                   (range 0 fnum) ;;
            Some (concat per_finger))
         (range 0 nGrid) ;;
  Some (horzcat (concat con_list)).

End Collision.

(** A symbolic decision variable: entry [(i, j)] of the symbol matrix
    created by [SX.sym(name, ...)], for the four names that [dec_vars]
    uses. *)
Inductive symbol_name : Type :=
| name_t       (* "t" *)
| name_q       (* "q" *)
| name_dq      (* "dq" *)
| name_a.      (* "a" *)

Inductive symbol : Type :=
| Sym (name : symbol_name) (i j : nat).

(** [SX.sym(name, r, c)]: an [r x c] matrix of symbols. *)
Definition SX_sym (name : symbol_name) (r c : nat) : matrix symbol :=
  Matrix r c (tabulate r c (fun i j => Some (Sym name i j))).

(** [dec_vars()] of [StaticObjectSystem]: time, flattened state and slack. *)
Definition dec_vars (nGrid : nat)
  : option (list symbol * list symbol * list symbol) :=
  (* time *)
  let t := nz (SX_sym name_t nGrid 1) in
  (* joint configurations for each joint in hand *)
  let q := SX_sym name_q nGrid (qnum * fnum) in
  (* velocity at every timestep *)
  let dq := SX_sym name_dq nGrid (qnum * fnum) in
  (* Flatten vectors *)
  s_flat <- s_pack nGrid q dq ;;
  (* Slack variables for ft_goal *)
  let a := nz (SX_sym name_a (3 * fnum) 1) in
  Some (t, s_flat, a).

(** The decision vector that [StaticObjectOpt.__init__] builds: the three
    results of [dec_vars] packed by [decvar_pack]. *)
Definition decision_vector (nGrid : nat) : option (list symbol) :=
  tsa <- dec_vars nGrid ;;
  let '(t, s_flat, a) := tsa in
  Some (decvar_pack t s_flat a).

(** The NumPy assignment [row[start:stop] = v] inside a row: the slice,
    which NumPy clips to the row, and [v] must have the same length. *)
Definition set_slice (row : list R) (start stop : nat) (v : list R)
  : option (list R) :=
  if ((stop <=? length row) && (length v =? stop - start))%nat
  then Some (firstn start row ++ v ++ skipn stop row)
  else None.

(** The decoded solution of [solve_nlp]. *)
Record solution : Type := Solution {
  t_soln : list R;
  q_soln : matrix R;
  dq_soln : matrix R;
  a_soln : list R;
  ft_pos_soln : array2;
  ft_vel_soln : array2
}.

(** The part of [solve_nlp] after the solver: unpack the solution [z_soln]
    and get the fingertip positions and velocities at every timestep. *)
Definition decode_solution (nGrid : nat) (z_soln : list R) : option solution :=
  tsa <- decvar_unpack nGrid z_soln ;;
  let '(t_soln, s_soln, a_soln) := tsa in
  qdq <- s_unpack nGrid s_soln ;;
  let q_soln := fst qdq in
  let dq_soln := snd qdq in
  rows <-
    mapM (fun t_i =>
            q_t <- row q_soln t_i ;;
            ft_pos_list <- FK q_t ;;
            (* Get jacobian *)
            J <- get_jacobian q_t ;;
            (* Compute fingertip velocities *)
            dq_t <- row dq_soln t_i ;;
            let ft_vel := matvec J dq_t in
            ft_pos <-
              foldM (fun ft_pos f_i =>
                       ft_f <- nth_error ft_pos_list f_i ;;
                       set_slice ft_pos (f_i * qnum) (f_i * qnum + qnum) ft_f)
                    (range 0 fnum) (repeat 0 (fnum * 3)) ;;
            Some (ft_pos, ft_vel))
         (range 0 nGrid) ;;
  Some (Solution t_soln q_soln dq_soln a_soln (map fst rows) (map snd rows)).

(** ** The table of bounds *)

(** The lower and upper joint limits of the hand, finger after finger. *)
Definition q_lower : list R := map fst (tile one_finger_q_range fnum).
Definition q_upper : list R := map snd (tile one_finger_q_range fnum).

(** The lower and upper velocity limits of the hand. *)
Definition dq_lower : list R := map fst (tile one_finger_dq_range fnum).
Definition dq_upper : list R := map snd (tile one_finger_dq_range fnum).

(** Row [i] of a velocity bound: the final velocity at the last grid index
    when it is given, else the initial velocity at grid index 0 when it is
    given, else the velocity limit. *)
Definition dq_bound_row (nGrid : nat) (dq0 dq_end : option (list R))
           (limit : list R) (i : nat) : list R :=
  match dq_end with
  | Some v_end =>
    if (i =? nGrid - 1)%nat then v_end
    else match dq0 with
         | Some v0 => if (i =? 0)%nat then v0 else limit
         | None => limit
         end
  | None =>
    match dq0 with
    | Some v0 => if (i =? 0)%nat then v0 else limit
    | None => limit
    end
  end.

(** Row [i] of a position bound: [q0] at grid index 0, else the joint
    limit. *)
Definition q_bound_row (q0 limit : list R) (i : nat) : list R :=
  if (i =? 0)%nat then q0 else limit.

(** A configuration of the hand within the joint limits. *)
Definition within_joint_limits (q0 : list R) : Prop :=
  Forall2 Rle q_lower q0 /\ Forall2 Rle q0 q_upper.

(** A matrix of bounds with [n] rows of [fnum * qnum] numbers, row [i]
    being [rows i]. *)
Definition bound_rows (m : matrix bound) (n : nat) (rows : nat -> list R)
  : Prop :=
  wf m /\ size1 m = n /\ size2 m = (fnum * qnum)%nat /\
  forall i, (i < n)%nat -> row m i = Some (map Fin (rows i)).

(** ** The object's box *)

(** The position in object frame of a point given in world frame, as
    [get_pnorm_of_pos_wf] computes it. *)
Definition pos_of (invert_transform : vec3 -> quat -> vec3 * quat)
           (get_matrix_from_quaternion : quat -> vec3 * vec3 * vec3)
           (obj_pose_param : pose) (p_wf : vec3) : list R :=
  firstn 3 (matvec (get_H_w_2_o invert_transform get_matrix_from_quaternion
                                obj_pose_param)
                   (vec3_list p_wf ++ [1])).

(** A point in object frame that lies in the box of the object, which is
    centred at the origin with the extents [obj_shape]. *)
Definition inside_box (obj_shape : vec3) (p_of : list R) : Prop :=
  forall k, (k < 3)%nat ->
    2 * Rabs (nth k p_of 0) <= nth k (vec3_list obj_shape) 0.

(** A point in object frame that lies, along some axis, out of the box
    scaled by [1 + margin]. *)
Definition outside_box_by (obj_shape : vec3) (margin : R) (p_of : list R)
  : Prop :=
  exists k, (k < 3)%nat /\
    (1 + margin) * nth k (vec3_list obj_shape) 0 <= 2 * Rabs (nth k p_of 0).

(** An object with positive extents. *)
Definition positive_shape (obj_shape : vec3) : Prop :=
  forall k, (k < 3)%nat -> 0 < nth k (vec3_list obj_shape) 0.

(** The collision constraints: for every grid index, every finger, links 2
    and 3 and every sphere centre on the link, the p-norm of the centre in
    object frame minus the radius of the sphere minus 1. *)
Definition collision_family (nGrid : nat) (obj_shape : vec3)
           (invert_transform : vec3 -> quat -> vec3 * quat)
           (get_matrix_from_quaternion : quat -> vec3 * vec3 * vec3)
           (get_sphere_centers_wf : nat -> list R -> nat -> list vec3)
           (r_list : nat -> nat -> R)
           (obj_pose_param : pose) (q : matrix R) : list R :=
  flat_map (fun i =>
    flat_map (fun f =>
      flat_map (fun l =>
        map (fun c =>
               get_pnorm
                 (get_cp_param_from_pos_of obj_shape
                    (pos_of invert_transform get_matrix_from_quaternion
                            obj_pose_param c))
               - r_list f l - 1)
            (get_sphere_centers_wf f
               (firstn qnum (skipn (qnum * f) (row_of q i))) l))
        [2%nat; 3%nat])
      (seq 0 fnum))
    (seq 0 nGrid).

(** ** Expressions along a joint trajectory

    An expression in the three joint angles of a finger, each a function of
    time, and the value of its time derivative. *)

Inductive texpr : Type :=
| TJoint (k : nat)
| TConst (c : R)
| TAdd (a b : texpr)
| TSub (a b : texpr)
| TMul (a b : texpr)
| TNeg (a : texpr)
| TSin (a : texpr)
| TCos (a : texpr).

Fixpoint teval (traj : nat -> R -> R) (e : texpr) (tau : R) : R :=
  match e with
  | TJoint k => traj k tau
  | TConst c => c
  | TAdd a b => teval traj a tau + teval traj b tau
  | TSub a b => teval traj a tau - teval traj b tau
  | TMul a b => teval traj a tau * teval traj b tau
  | TNeg a => - teval traj a tau
  | TSin a => sin (teval traj a tau)
  | TCos a => cos (teval traj a tau)
  end.

Fixpoint tderiv (traj : nat -> R -> R) (vel : nat -> R) (e : texpr) (tau : R)
  : R :=
  match e with
  | TJoint k => vel k
  | TConst _ => 0
  | TAdd a b => tderiv traj vel a tau + tderiv traj vel b tau
  | TSub a b => tderiv traj vel a tau - tderiv traj vel b tau
  | TMul a b => tderiv traj vel a tau * teval traj b tau
                + teval traj a tau * tderiv traj vel b tau
  | TNeg a => - tderiv traj vel a tau
  | TSin a => tderiv traj vel a tau * cos (teval traj a tau)
  | TCos a => tderiv traj vel a tau * - sin (teval traj a tau)
  end.

(** The Jacobian of the hand at a configuration, empty when
    [get_jacobian] fails. *)
Definition hand_jacobian (q_cur : list R) : array2 :=
  match get_jacobian q_cur with
  | Some J => J
  | None => []
  end.

(** The velocity [J_f @ dq_f] of coordinate [r] of the fingertip of a finger
    with base angle [theta_base], joint angles [qf] and joint velocities
    [v0], [v1], [v2]. *)
Definition fingertip_velocity (theta_base : R) (r : nat) (qf : joints)
           (v0 v1 v2 : R) : R :=
  J_coord theta_base r 0 qf * v0 + J_coord theta_base r 1 qf * v1
  + J_coord theta_base r 2 qf * v2.

(** Three joint trajectories and their velocities, numbered by joint. *)
Definition joint_traj (c0 c1 c2 : R -> R) (k : nat) : R -> R :=
  match k with 0%nat => c0 | 1%nat => c1 | _ => c2 end.

Definition joint_vel (v0 v1 v2 : R) (k : nat) : R :=
  match k with 0%nat => v0 | 1%nat => v1 | _ => v2 end.

(** ** What the solver is asked for *)

(** [solve_nlp] hands the bounds to the solver as [lbx], [ubx], [lbg] and
    [ubg]: a point [z] is within the bounds of the decision variables
    when [lbx <= z <= ubx] entry by entry, and it satisfies a constraint
    when [lbg <= g <= ubg]. *)
Definition within_bounds (z_lb : list bound) (z : list R) (z_ub : list bound)
  : Prop :=
  Forall2 ble z_lb (map Fin z) /\ Forall2 ble (map Fin z) z_ub.

Definition satisfied (c : constraint) : Prop :=
  ble (lbg c) (Fin (g c)) /\ ble (Fin (g c)) (ubg c).

(** The hand at rest on a grid of two points: the decision vector, its
    bounds, and the fingertip positions as goal. *)
Definition rest_z : list R := decvar_pack rest_t rest_s rest_a.

Definition rest_lb : list bound :=
  decvar_pack (map Fin rest_t)
              (map Fin (rest_v ++ q_lower ++ rest_v ++ rest_v))
              (repeat (Fin 0) 9).

Definition rest_ub : list bound :=
  decvar_pack (map Fin rest_t)
              (map Fin (rest_v ++ q_upper ++ rest_v ++ rest_v))
              (repeat PInf 9).

Definition rest_reach : list R :=
  flat_map (fingertip_position rest_v) (seq 0 fnum).

(** Sphere centers away from the object and spheres of radius one half. *)
Definition far_centers (f : nat) (q : list R) (l : nat) : list vec3 :=
  [(2, 0, 0)].
Definition half_radius (f l : nat) : R := 0.5.


(** ** The collocation defects in binary64

    Python floats, NumPy arrays and the numbers that CasADi evaluates are
    IEEE 754 binary64 numbers, rounded to nearest: the primitive floats. *)

Module Binary64.
Import PrimFloat.
Local Open Scope float_scope.

(** The float of an integer of Python, exact for the grid sizes at hand. *)
Fixpoint of_nat (n : nat) : float :=
  match n with
  | O => zero
  | S k => of_nat k + one
  end.

(** [self.tf = dt * (nGrid-1)], the final time. *)
Definition tf (nGrid : nat) (dt : float) : float :=
  match nGrid with
  | O => dt * (- one)
  | S k => dt * of_nat k
  end.

(** [np.linspace(start, stop, num)] as NumPy computes it: the integers
    [0 .. num - 1] times the step [(stop - start) / (num - 1)], plus
    [start], the last entry being set to [stop]. *)
Definition linspace (start stop : float) (num : nat) : list float :=
  match num with
  | O => []
  | S div =>
    let y := map of_nat (seq 0 num) in
    let delta := stop - start in
    match div with
    | O => map (fun y_i => y_i * delta + start) y
    | S _ =>
      let step := delta / of_nat div in
      let y := if step =? 0
               then map (fun y_i => y_i / of_nat div * delta) y
               else map (fun y_i => y_i * step) y in
      let y := map (fun y_i => y_i + start) y in
      firstn div y ++ [stop]
    end
  end.






(** The spacing of the floats at 1, [2^-52]. *)
Definition eps : float := 0x1p-52.


End Binary64.

(** * Properties *)

Local Close Scope R_scope.

(** ** Facts about lists and matrices *)

Section ListFacts.
Context {A : Type}.

Lemma mapM_Some {B : Type} (f : A -> option B) (g : A -> B) (l : list A) :
  (forall x, In x l -> f x = Some (g x)) -> mapM f l = Some (map g l).
Proof.
  induction l as [|x l IH]; intros H; simpl; [reflexivity|].
  rewrite (H x (or_introl eq_refl)); simpl.
  rewrite IH by (intros y Hy; apply H; now right).
  reflexivity.
Qed.

Lemma mapM_length {B : Type} (f : A -> option B) (l : list A) (r : list B) :
  mapM f l = Some r -> length r = length l.
Proof.
  revert r; induction l as [|x l IH]; simpl; intros r H.
  - now inversion H.
  - destruct (f x); simpl in H; [|discriminate].
    destruct (mapM f l) as [ys|]; simpl in H; [|discriminate].
    inversion H; subst; simpl; f_equal; now apply IH.
Qed.

(** Blocks of one length laid end to end: entry [j] of block [i] sits at
    position [i * k + j]. *)
Lemma flat_map_blocks (f : nat -> list A) (k n s : nat) :
  (forall x, s <= x < s + n -> length (f x) = k) ->
  length (flat_map f (seq s n)) = n * k /\
  forall i j, i < n -> j < k ->
    nth_error (flat_map f (seq s n)) (i * k + j) = nth_error (f (s + i)) j.
Proof.
  revert s; induction n as [|n IH]; intros s H; simpl.
  - split; [reflexivity | intros; lia].
  - assert (Hs : length (f s) = k) by (apply H; lia).
    destruct (IH (S s)) as [IHl IHn]; [intros; apply H; lia|].
    split.
    + rewrite length_app, IHl, Hs; reflexivity.
    + intros [|i] j Hi Hj.
      * simpl. rewrite nth_error_app1 by lia. now rewrite Nat.add_0_r.
      * rewrite nth_error_app2 by (rewrite Hs; simpl; lia).
        rewrite Hs.
        replace (S i * k + j - k) with (i * k + j) by (simpl; lia).
        rewrite IHn by lia. f_equal. f_equal. lia.
Qed.

Lemma tabulate_spec (r c : nat) (f : nat -> nat -> option A) :
  (forall i j, i < r -> j < c -> f i j <> None) ->
  length (tabulate r c f) = c * r /\
  forall i j, i < r -> j < c ->
    nth_error (tabulate r c f) (j * r + i) = f i j.
Proof.
  intros H. unfold tabulate.
  assert (Hcol : forall j, j < c ->
    length (flat_map (fun i => olist (f i j)) (seq 0 r)) = r * 1 /\
    forall i j', i < r -> j' < 1 ->
      nth_error (flat_map (fun i => olist (f i j)) (seq 0 r)) (i * 1 + j')
      = nth_error (olist (f (0 + i) j)) j').
  { intros j Hj. apply flat_map_blocks.
    intros x Hx. specialize (H x j).
    destruct (f x j); [reflexivity | exfalso; apply H; [lia | lia | reflexivity]]. }
  destruct (flat_map_blocks
              (fun j => flat_map (fun i => olist (f i j)) (seq 0 r)) r c 0)
    as [Hl Hn].
  { intros x Hx. destruct (Hcol x) as [Hx1 _]; lia. }
  split; [exact Hl|].
  intros i j Hi Hj. rewrite Hn by lia. simpl.
  destruct (Hcol j Hj) as [_ Hc].
  specialize (Hc i 0 Hi Nat.lt_0_1).
  replace (i * 1 + 0) with i in Hc by lia. rewrite Hc. simpl.
  specialize (H i j Hi Hj). destruct (f i j); [reflexivity | now elim H].
Qed.

Lemma get_Some (m : matrix A) (i j : nat) :
  wf m -> i < size1 m -> j < size2 m -> get m i j <> None.
Proof.
  intros Hwf Hi Hj. unfold get.
  destruct (Nat.ltb_spec i (size1 m)); [|lia].
  destruct (Nat.ltb_spec j (size2 m)); [|lia]. simpl.
  apply nth_error_Some. rewrite Hwf. nia.
Qed.

Lemma get_nth (m : matrix A) (i j : nat) :
  i < size1 m -> j < size2 m ->
  get m i j = nth_error (nz m) (j * size1 m + i).
Proof.
  intros Hi Hj. unfold get.
  destruct (Nat.ltb_spec i (size1 m)); [|lia].
  destruct (Nat.ltb_spec j (size2 m)); [|lia]. reflexivity.
Qed.

Lemma transpose_wf (m : matrix A) : wf m -> wf (transpose m).
Proof.
  intros Hwf. unfold wf, transpose; simpl.
  destruct (tabulate_spec (size2 m) (size1 m) (fun i j => get m j i))
    as [Hl _]; [|lia].
  intros i j Hi Hj. now apply get_Some.
Qed.

Lemma get_transpose (m : matrix A) (i j : nat) :
  wf m -> i < size2 m -> j < size1 m ->
  get (transpose m) i j = get m j i.
Proof.
  intros Hwf Hi Hj.
  rewrite get_nth by (simpl; lia). simpl.
  destruct (tabulate_spec (size2 m) (size1 m) (fun i j => get m j i))
    as [_ Hn].
  { intros i' j' Hi' Hj'. now apply get_Some. }
  now apply Hn.
Qed.

Lemma matrix_ext (a b : matrix A) :
  size1 a = size1 b -> size2 a = size2 b -> nz a = nz b -> a = b.
Proof. destruct a, b; simpl; intros; subst; reflexivity. Qed.

(** Transposing twice gives the matrix back. *)
Lemma transpose_involutive (m : matrix A) :
  wf m -> transpose (transpose m) = m.
Proof.
  intros Hwf. destruct m as [r c l]. unfold wf in Hwf; simpl in Hwf.
  set (m := Matrix r c l).
  assert (HwfT : wf (transpose m)) by (now apply transpose_wf).
  assert (HwfTT : wf (transpose (transpose m))) by (now apply transpose_wf).
  apply (matrix_ext (transpose (transpose m)) m); [reflexivity | reflexivity |].
  change (nz m) with l.
  apply nth_error_ext. intros k.
  destruct (Nat.lt_ge_cases k (r * c)) as [Hk|Hk].
  - assert (Hr : 0 < r) by nia.
    pose proof (Nat.div_mod_eq k r) as Hdm.
    pose proof (Nat.mod_upper_bound k r ltac:(lia)) as Hmod.
    assert (Hdiv : k / r < c).
    { apply Nat.Div0.div_lt_upper_bound. lia. }
    assert (Hcell : forall i j, i < r -> j < c ->
              nth_error (nz (transpose (transpose m))) (j * r + i)
              = nth_error l (j * r + i)).
    { intros i j Hi Hj.
      pose proof (get_nth (transpose (transpose m)) i j Hi Hj) as H1.
      pose proof (get_nth m i j Hi Hj) as H2.
      simpl size1 in H1, H2. simpl nz in H2.
      rewrite <- H1, <- H2.
      rewrite get_transpose by (simpl; auto; lia).
      rewrite get_transpose by (simpl; auto; lia). reflexivity. }
    replace k with ((k / r) * r + k mod r) by lia.
    apply Hcell; lia.
  - unfold wf in HwfTT; simpl in HwfTT.
    transitivity (@None A); [| symmetry];
      apply nth_error_None; simpl in *; lia.
Qed.

End ListFacts.

(** ** The codec: packing and unpacking are inverse *)

Section SliceFacts.
Context {A : Type}.

Lemma slice_prefix (a b : list A) :
  slice (a ++ b) 0 (Some (length a)) = Some a.
Proof.
  unfold slice. rewrite length_app.
  destruct (Nat.ltb_spec (length a + length b) (length a)); [lia|].
  simpl. rewrite Nat.sub_0_r, firstn_app, Nat.sub_diag, firstn_all.
  simpl. now rewrite app_nil_r.
Qed.

Lemma slice_middle (a b c : list A) :
  slice (a ++ b ++ c) (length a) (Some (length a + length b)) = Some b.
Proof.
  unfold slice. rewrite !length_app.
  destruct (Nat.ltb_spec (length a + (length b + length c))
                         (length a + length b)); [lia|].
  rewrite skipn_app, skipn_all, Nat.sub_diag. simpl.
  replace (length a + length b - length a) with (length b) by lia.
  rewrite firstn_app, Nat.sub_diag, firstn_all. simpl. now rewrite app_nil_r.
Qed.

Lemma slice_suffix (a b : list A) :
  slice (a ++ b) (length a) None = Some b.
Proof.
  unfold slice. rewrite Nat.ltb_irrefl.
  rewrite skipn_app, skipn_all, Nat.sub_diag. simpl.
  rewrite length_app.
  replace (length a + length b - length a) with (length b) by lia.
  now rewrite firstn_all.
Qed.

(** A slice that succeeds cuts the vector at its two ends. *)
Lemma slice_Some (v r : list A) (start : nat) (stop : option nat) :
  slice v start stop = Some r ->
  r = firstn (match stop with Some e => e | None => length v end - start)
             (skipn start v)
  /\ match stop with Some e => e | None => length v end <= length v.
Proof.
  unfold slice.
  destruct (Nat.ltb_spec (length v)
              (match stop with Some e => e | None => length v end));
    [discriminate|].
  intros H0; inversion H0; split; [reflexivity | assumption].
Qed.

Lemma transpose_nz_length (m : matrix A) :
  wf m -> length (nz (transpose m)) = size1 m * size2 m.
Proof.
  intros Hwf. pose proof (transpose_wf m Hwf) as H.
  unfold wf in H. simpl size1 in H. simpl size2 in H. lia.
Qed.

(** The packed position block lists the rows of [q] one after the other:
    entry [(i, j)] sits at position [i * size2 q + j]. *)
Lemma transpose_nz_layout (m : matrix A) (i j : nat) :
  wf m -> i < size1 m -> j < size2 m ->
  nth_error (nz (transpose m)) (i * size2 m + j) = get m i j.
Proof.
  intros Hwf Hi Hj.
  rewrite <- (get_transpose m j i Hwf Hj Hi).
  rewrite get_nth by (simpl; lia). reflexivity.
Qed.

End SliceFacts.

Section CodecRoundTrip.
Context {A : Type}.
Variable nGrid : nat.

Lemma decvar_unpack_pack (t s a : list A) :
  length t = nGrid -> length s = 2 * nGrid * fnum * qnum ->
  decvar_unpack nGrid (decvar_pack t s a) = Some (t, s, a).
Proof.
  intros Ht Hs. unfold decvar_unpack, decvar_pack, vertcat. simpl concat.
  rewrite app_nil_r.
  assert (H1 : slice (t ++ s ++ a) 0 (Some nGrid) = Some t)
    by (rewrite <- Ht; apply slice_prefix).
  assert (H2 : slice (t ++ s ++ a) nGrid
                 (Some (nGrid + 2 * nGrid * fnum * qnum)) = Some s)
    by (rewrite <- Hs, <- Ht; apply slice_middle).
  assert (H3 : slice (t ++ s ++ a) (nGrid + 2 * nGrid * fnum * qnum) None
               = Some a)
    by (rewrite <- Hs, <- Ht, app_assoc, <- length_app; apply slice_suffix).
  rewrite H1. cbn [bind]. rewrite H2. cbn [bind]. rewrite H3. reflexivity.
Qed.

Lemma s_pack_Some (q dq : matrix A) :
  wf q -> size1 q = nGrid -> size2 q = qnum * fnum ->
  wf dq -> size1 dq = nGrid -> size2 dq = qnum * fnum ->
  s_pack nGrid q dq = Some (nz (transpose q) ++ nz (transpose dq)).
Proof.
  intros Hq Hq1 Hq2 Hdq Hdq1 Hdq2. unfold s_pack, reshape_col, numel.
  rewrite (transpose_nz_length q Hq), (transpose_nz_length dq Hdq).
  simpl size1. simpl size2. rewrite Hq1, Hq2, Hdq1, Hdq2.
  rewrite (Nat.mul_comm (qnum * fnum) nGrid), Nat.eqb_refl. simpl.
  unfold vertcat. simpl. now rewrite app_nil_r.
Qed.

Lemma s_unpack_pack (q dq : matrix A) :
  wf q -> size1 q = nGrid -> size2 q = qnum * fnum ->
  wf dq -> size1 dq = nGrid -> size2 dq = qnum * fnum ->
  s_unpack nGrid (nz (transpose q) ++ nz (transpose dq)) = Some (q, dq).
Proof.
  intros Hq Hq1 Hq2 Hdq Hdq1 Hdq2. unfold s_unpack.
  pose proof (transpose_nz_length q Hq) as Lq.
  pose proof (transpose_nz_length dq Hdq) as Ldq.
  rewrite Hq1, Hq2 in Lq. rewrite Hdq1, Hdq2 in Ldq.
  set (vq := nz (transpose q)) in *. set (vdq := nz (transpose dq)) in *.
  assert (H1 : slice (vq ++ vdq) 0 (Some (nGrid * (qnum * fnum))) = Some vq)
    by (rewrite <- Lq; apply slice_prefix).
  assert (H2 : slice (vq ++ vdq) (nGrid * (qnum * fnum)) None = Some vdq)
    by (rewrite <- Lq; apply slice_suffix).
  assert (H3 : reshape vq (qnum * fnum) nGrid = Some (transpose q)).
  { unfold reshape. rewrite Lq, (Nat.mul_comm nGrid), Nat.eqb_refl.
    subst vq. unfold transpose. cbn [nz]. now rewrite Hq1, Hq2. }
  assert (H4 : reshape vdq (qnum * fnum) nGrid = Some (transpose dq)).
  { unfold reshape. rewrite Ldq, (Nat.mul_comm nGrid), Nat.eqb_refl.
    subst vdq. unfold transpose. cbn [nz]. now rewrite Hdq1, Hdq2. }
  cbv zeta. rewrite H1. cbn [bind]. rewrite H3. cbn [bind].
  rewrite H2. cbn [bind]. rewrite H4. cbn [bind].
  now rewrite !transpose_involutive.
Qed.

(** C1. Unpacking a packed decision vector gives back the time, state and
    slack blocks, and unpacking a packed state gives back the position and
    velocity matrices; in the packed state the rows (grid indices) follow
    one another, each row listing the joints finger after finger, the
    positions before the velocities. *)
Theorem codec_round_trip (t s a : list A) (q dq : matrix A) :
  length t = nGrid -> length s = 2 * nGrid * fnum * qnum ->
  length a = 3 * fnum ->
  wf q -> size1 q = nGrid -> size2 q = fnum * qnum ->
  wf dq -> size1 dq = nGrid -> size2 dq = fnum * qnum ->
  decvar_unpack nGrid (decvar_pack t s a) = Some (t, s, a) /\
  exists s_flat,
    s_pack nGrid q dq = Some s_flat /\
    s_unpack nGrid s_flat = Some (q, dq) /\
    length s_flat = 2 * nGrid * fnum * qnum /\
    forall i f k, i < nGrid -> f < fnum -> k < qnum ->
      nth_error s_flat (i * (fnum * qnum) + (f * qnum + k))
        = get q i (f * qnum + k) /\
      nth_error s_flat (nGrid * (fnum * qnum) + i * (fnum * qnum) + (f * qnum + k))
        = get dq i (f * qnum + k).
Proof.
  intros Ht Hs Ha Hq Hq1 Hq2 Hdq Hdq1 Hdq2.
  split; [now apply decvar_unpack_pack|].
  exists (nz (transpose q) ++ nz (transpose dq)).
  pose proof (transpose_nz_length q Hq) as Lq.
  pose proof (transpose_nz_length dq Hdq) as Ldq.
  rewrite Hq1, Hq2 in Lq. rewrite Hdq1, Hdq2 in Ldq.
  split; [now apply s_pack_Some|].
  split; [now apply s_unpack_pack|].
  split; [rewrite length_app, Lq, Ldq; lia|].
  intros i f k Hi Hf Hk.
  assert (Hj : f * qnum + k < fnum * qnum)
    by (revert Hf Hk; unfold fnum, qnum; lia).
  split.
  - rewrite nth_error_app1 by (rewrite Lq; nia).
    rewrite <- Hq2. apply transpose_nz_layout; [assumption | lia | lia].
  - rewrite nth_error_app2 by (rewrite Lq; nia).
    rewrite Lq.
    replace (nGrid * (fnum * qnum) + i * (fnum * qnum) + (f * qnum + k)
             - nGrid * (fnum * qnum))
      with (i * (fnum * qnum) + (f * qnum + k)) by lia.
    rewrite <- Hdq2. apply transpose_nz_layout; [assumption | lia | lia].
Qed.

End CodecRoundTrip.

Lemma codec_round_trip_witness :
  decvar_unpack 2 (decvar_pack [100; 101] (seq 0 36) (seq 200 9))
    = Some ([100; 101], seq 0 36, seq 200 9) /\
  exists s_flat,
    s_pack 2 (Matrix 2 9 (seq 0 18)) (Matrix 2 9 (seq 50 18)) = Some s_flat /\
    s_unpack 2 s_flat = Some (Matrix 2 9 (seq 0 18), Matrix 2 9 (seq 50 18)) /\
    length s_flat = 2 * 2 * fnum * qnum /\
    forall i f k, i < 2 -> f < fnum -> k < qnum ->
      nth_error s_flat (i * (fnum * qnum) + (f * qnum + k))
        = get (Matrix 2 9 (seq 0 18)) i (f * qnum + k) /\
      nth_error s_flat (2 * (fnum * qnum) + i * (fnum * qnum) + (f * qnum + k))
        = get (Matrix 2 9 (seq 50 18)) i (f * qnum + k).
Proof.
  apply (codec_round_trip 2 [100; 101] (seq 0 36) (seq 200 9)
           (Matrix 2 9 (seq 0 18)) (Matrix 2 9 (seq 50 18)));
    reflexivity.
Defined.

(** ** The Jacobian is the derivative of the forward kinematics *)

Section Jacobian.
Local Open Scope R_scope.

Lemma D_correct (e : expr) (x : R) :
  derivable_pt_lim (eval e) x (eval (D e) x).
Proof.
  induction e as [| c | a IHa b IHb | a IHa b IHb | a IHa b IHb
                  | a IHa | a IHa | a IHa]; simpl.
  - apply derivable_pt_lim_id.
  - apply derivable_pt_lim_const.
  - exact (derivable_pt_lim_plus _ _ _ _ _ IHa IHb).
  - exact (derivable_pt_lim_minus _ _ _ _ _ IHa IHb).
  - exact (derivable_pt_lim_mult _ _ _ _ _ IHa IHb).
  - exact (derivable_pt_lim_opp _ _ _ IHa).
  - rewrite Rmult_comm.
    exact (derivable_pt_lim_comp (eval a) sin x _ _ IHa (derivable_pt_lim_sin _)).
  - rewrite Rmult_comm.
    exact (derivable_pt_lim_comp (eval a) cos x _ _ IHa (derivable_pt_lim_cos _)).
Qed.

Lemma deriv_by_expr (e : expr) (f : R -> R) (a l : R) :
  (forall x, f x = eval e x) -> l = eval (D e) a -> derivable_pt_lim f a l.
Proof.
  intros Hf Hl. subst l.
  intros eps Heps. destruct (D_correct e a eps Heps) as [d Hd].
  exists d. intros h Hh1 Hh2. rewrite !Hf. now apply Hd.
Qed.

Ltac reify x e :=
  lazymatch e with
  | x => constr:(X)
  | ?a + ?b => let a' := reify x a in let b' := reify x b in constr:(Add a' b')
  | ?a - ?b => let a' := reify x a in let b' := reify x b in constr:(Sub a' b')
  | ?a * ?b => let a' := reify x a in let b' := reify x b in constr:(Mul a' b')
  | - ?a => let a' := reify x a in constr:(Neg a')
  | sin ?a => let a' := reify x a in constr:(Sin a')
  | cos ?a => let a' := reify x a in constr:(Cos a')
  | _ => constr:(Const e)
  end.

Ltac unfold_decimals := cbv [Q2R QArith_base.Qnum QArith_base.Qden].

Ltac differentiate :=
  lazymatch goal with
  | |- derivable_pt_lim ?f ?a ?l =>
    let x := fresh "x" in
    let E := open_constr:(_ : expr) in
    apply (deriv_by_expr E f a l);
    [ intro x; cbv beta;
      lazymatch goal with
      | |- ?lhs = eval _ x =>
        let E' := reify x lhs in unify E E'; reflexivity
      end
    | cbn [eval D]; unfold_decimals; field ]
  end.

Lemma one_finger_jacobian (theta_base q1 q2 q3 : R) (r k : nat) :
  (r < 3)%nat -> (k < 3)%nat ->
  derivable_pt_lim
    (fun x => ft_coord theta_base r (set_joint k x (q1, q2, q3)))
    (joint k (q1, q2, q3))
    (J_coord theta_base r k (q1, q2, q3)).
Proof.
  intros Hr Hk.
  destruct r as [|[|[|r]]]; [| | |lia];
    (destruct k as [|[|[|k]]]; [| | |lia]);
    cbn [ft_coord set_joint joint J_coord one_finger_ft_wf one_finger_J nth];
    differentiate.
Qed.

Lemma get_jacobian_blocks (q_cur : list R) :
  length q_cur = (fnum * qnum)%nat ->
  exists J,
    get_jacobian q_cur = Some J /\
    length J = (3 * fnum)%nat /\
    Forall (fun row => length row = (fnum * qnum)%nat) J /\
    forall i j r k, (i < fnum)%nat -> (j < fnum)%nat ->
                    (r < 3)%nat -> (k < qnum)%nat ->
      nth (qnum * j + k) (nth (3 * i + r) J []) 0
      = if (i =? j)%nat
        then J_coord (theta_base_of i) r k (finger_joints q_cur i)
        else 0.
Proof.
  intros Hlen.
  destruct q_cur as [|a0 [|a1 [|a2 [|a3 [|a4 [|a5 [|a6 [|a7 [|a8 [|]]]]]]]]]];
    try discriminate Hlen.
  eexists. split; [reflexivity|].
  split; [reflexivity|].
  split; [repeat constructor|].
  unfold fnum, qnum. intros i j r k Hi Hj Hr Hk.
  destruct i as [|[|[|i]]]; [| | |lia];
    (destruct j as [|[|[|j]]]; [| | |lia]);
    (destruct r as [|[|[|r]]]; [| | |lia]);
    (destruct k as [|[|[|k]]]; [| | |lia]);
    reflexivity.
Qed.

End Jacobian.

(** ** Reading matrices of numbers *)

Section Reading.
Local Open Scope R_scope.

Lemma get_entry (m : matrix R) (i j : nat) :
  wf m -> (i < size1 m)%nat -> (j < size2 m)%nat ->
  get m i j = Some (entry m i j).
Proof.
  intros Hwf Hi Hj. rewrite get_nth by assumption.
  apply nth_error_nth'. rewrite Hwf. nia.
Qed.

Lemma row_Some (m : matrix R) (i : nat) :
  wf m -> (i < size1 m)%nat -> row m i = Some (row_of m i).
Proof.
  intros Hwf Hi. unfold row, row_of.
  destruct (Nat.ltb_spec i (size1 m)); [|lia].
  apply mapM_Some. intros j Hj. apply in_seq in Hj.
  apply get_entry; [assumption | assumption | lia].
Qed.

Lemma row_of_length (m : matrix R) (i : nat) :
  length (row_of m i) = size2 m.
Proof. unfold row_of. now rewrite length_map, length_seq. Qed.

Lemma last_row_Some (m : matrix R) :
  wf m -> (1 <= size1 m)%nat -> last_row m = Some (row_of m (size1 m - 1)).
Proof.
  intros Hwf H1. unfold last_row.
  destruct (size1 m) as [|k] eqn:E; [lia|].
  replace (S k - 1)%nat with k by lia.
  apply row_Some; [assumption | lia].
Qed.

Lemma FK_Some (q_cur : list R) :
  length q_cur = (fnum * qnum)%nat ->
  FK q_cur = Some (map (fingertip_position q_cur) (seq 0 fnum)).
Proof.
  intros Hlen.
  destruct q_cur as [|a0 [|a1 [|a2 [|a3 [|a4 [|a5 [|a6 [|a7 [|a8 [|]]]]]]]]]];
    try discriminate Hlen.
  reflexivity.
Qed.

Lemma nth_error_map_seq {B : Type} (f : nat -> B) (n i : nat) :
  (i < n)%nat -> nth_error (map f (seq 0 n)) i = Some (f i).
Proof.
  intros Hi. rewrite nth_error_map.
  rewrite (nth_error_nth' (seq 0 n) 0%nat) by (now rewrite length_seq).
  simpl. now rewrite seq_nth.
Qed.

Lemma mapM_nth_error_seq {B : Type} (l : list B) :
  mapM (fun c => nth_error l c) (seq 0 (length l)) = Some l.
Proof.
  assert (H : forall (pre : list B),
             mapM (fun c => nth_error (pre ++ l) c) (seq (length pre) (length l))
             = Some l).
  { induction l as [|x l IH]; intros pre; [reflexivity|].
    simpl. rewrite nth_error_app2, Nat.sub_diag by lia. simpl.
    specialize (IH (pre ++ [x])).
    rewrite <- app_assoc, length_app in IH. simpl in IH.
    rewrite Nat.add_1_r in IH. rewrite IH. reflexivity. }
  exact (H []).
Qed.

(** Reading a row built by [horzcat] entry after entry gives the list of
    its entries. *)
Lemma entries_horzcat (l : list R) : entries (horzcat l) = Some l.
Proof.
  unfold entries, horzcat, range. simpl size1. simpl size2.
  rewrite Nat.sub_0_r. simpl mapM.
  replace (mapM (fun c => get (Matrix 1 (length l) l) 0 c) (seq 0 (length l)))
    with (Some l).
  - simpl. now rewrite app_nil_r.
  - symmetry.
    transitivity (mapM (fun c => nth_error l c) (seq 0 (length l)));
      [|apply mapM_nth_error_seq].
    assert (E : forall c, In c (seq 0 (length l)) ->
                          get (Matrix 1 (length l) l) 0 c = nth_error l c).
    { intros c Hc. apply in_seq in Hc.
      rewrite get_nth by (simpl; lia). simpl. f_equal. lia. }
    revert E. generalize (seq 0 (length l)) as cs.
    induction cs as [|c cs IH]; intros E; [reflexivity|].
    simpl. rewrite E by (now left). rewrite IH by (intros; apply E; now right).
    reflexivity.
Qed.

(** A state vector of the right length unpacks into two well-formed
    [nGrid x 9] matrices. *)
Lemma s_unpack_Some (nGrid : nat) (s : list R) :
  length s = (2 * nGrid * fnum * qnum)%nat ->
  exists q dq,
    s_unpack nGrid s = Some (q, dq) /\
    wf q /\ size1 q = nGrid /\ size2 q = (fnum * qnum)%nat /\
    wf dq /\ size1 dq = nGrid /\ size2 dq = (fnum * qnum)%nat.
Proof.
  intros Hlen.
  set (n9 := (nGrid * (qnum * fnum))%nat).
  assert (Hn : length s = (n9 + n9)%nat) by (subst n9; lia).
  set (vq := firstn n9 s). set (vdq := skipn n9 s).
  assert (Lq : length vq = n9) by (subst vq; rewrite length_firstn; lia).
  assert (Ldq : length vdq = n9) by (subst vdq; rewrite length_skipn; lia).
  assert (Es : s = vq ++ vdq) by (subst vq vdq; now rewrite firstn_skipn).
  assert (Hwq : wf (Matrix (qnum * fnum) nGrid vq))
    by (unfold wf; cbn [size1 size2 nz]; subst n9; lia).
  assert (Hwdq : wf (Matrix (qnum * fnum) nGrid vdq))
    by (unfold wf; cbn [size1 size2 nz]; subst n9; lia).
  exists (transpose (Matrix (qnum * fnum) nGrid vq)),
         (transpose (Matrix (qnum * fnum) nGrid vdq)).
  split.
  - unfold s_unpack. cbv zeta. fold n9.
    assert (H1 : slice s 0 (Some n9) = Some vq)
      by (rewrite Es, <- Lq; apply slice_prefix).
    assert (H2 : slice s n9 None = Some vdq)
      by (rewrite Es, <- Lq; apply slice_suffix).
    rewrite H1. cbn [bind]. unfold reshape at 1.
    replace (length vq =? qnum * fnum * nGrid)%nat with true
      by (symmetry; apply Nat.eqb_eq; subst n9; lia).
    cbn [bind]. rewrite H2. cbn [bind]. unfold reshape.
    replace (length vdq =? qnum * fnum * nGrid)%nat with true
      by (symmetry; apply Nat.eqb_eq; subst n9; lia).
    reflexivity.
  - repeat split; try reflexivity; now apply transpose_wf.
Qed.

End Reading.

(** ** The assembled constraints *)

Section Constraints.
Local Open Scope R_scope.
Variable nGrid : nat.
Variables (ft_goal_param t s a : list R) (q dq : matrix R).
Hypothesis Ht : length t = nGrid.
Hypothesis Hs : s_unpack nGrid s = Some (q, dq).
Hypothesis Hq : wf q.
Hypothesis Hq1 : size1 q = nGrid.
Hypothesis Hq2 : size2 q = (fnum * qnum)%nat.
Hypothesis Hdq : wf dq.
Hypothesis Hdq1 : size1 dq = nGrid.
Hypothesis Hdq2 : size2 dq = (fnum * qnum)%nat.
Hypothesis Ha : length a = (3 * fnum)%nat.
Hypothesis Hg : length ft_goal_param = (3 * fnum)%nat.
Hypothesis Hn : (1 <= nGrid)%nat.

Lemma range_from_0 (n : nat) : range 0 n = seq 0 n.
Proof. unfold range. now rewrite Nat.sub_0_r. Qed.

Lemma map_concat_map {B C E F : Type} (c : E -> F) (e : B -> C -> E)
      (l1 : list B) (l2 : list C) :
  map c (concat (map (fun x => map (e x) l2) l1))
  = flat_map (fun x => map (fun y => c (e x y)) l2) l1.
Proof.
  induction l1 as [|x l1 IH]; simpl; [reflexivity|].
  now rewrite map_app, map_map, IH.
Qed.

Lemma concat_map_map {B C E : Type} (c : C -> E) (f : B -> list C)
      (l : list B) :
  concat (map (fun x => map c (f x)) l) = map c (flat_map f l).
Proof.
  induction l as [|x l IH]; simpl; [reflexivity|].
  now rewrite map_app, IH.
Qed.

Lemma fingertip_position_length (q_cur : list R) (f : nat) :
  length (fingertip_position q_cur f) = 3%nat.
Proof. reflexivity. Qed.

Lemma ft_goal_constraint_Some :
  ft_goal_constraint nGrid ft_goal_param s a
  = Some (horzcat
            (concat (map (fun f => map (goal_slack_expr ft_goal_param a q
                                                        (nGrid - 1) f)
                                       (seq 0 3))
                         (seq 0 fnum)))).
Proof using Hs Hq Hq1 Hq2 Ha Hg Hn.
  clear Ht Hdq Hdq1 Hdq2.
  unfold ft_goal_constraint. rewrite Hs. cbn [bind fst].
  rewrite last_row_Some by (assumption || lia). cbn [bind].
  rewrite FK_Some by (now rewrite row_of_length). cbn [bind].
  rewrite !range_from_0. rewrite Hq1.
  rewrite (mapM_Some _ (fun f => map (goal_slack_expr ft_goal_param a q
                                                      (nGrid - 1) f)
                                     (seq 0 3))); [reflexivity|].
  intros f Hf. apply in_seq in Hf.
  apply mapM_Some. intros d Hd. apply in_seq in Hd.
  assert (Hfd : (f * 3 + d < 3 * fnum)%nat) by lia.
  rewrite (nth_error_nth' a 0) by lia. cbn [bind].
  rewrite (nth_error_nth' ft_goal_param 0) by lia. cbn [bind].
  rewrite nth_error_map_seq by lia. cbn [bind].
  rewrite (nth_error_nth' _ 0) by (rewrite fingertip_position_length; lia).
  reflexivity.
Qed.

Lemma arena_constraint_Some :
  arena_constraint nGrid s
  = Some (horzcat (map g (arena_family 10 nGrid q))).
Proof using Hs Hq Hq1 Hq2.
  clear Ht Hdq Hdq1 Hdq2 Ha Hg Hn.
  unfold arena_constraint. rewrite Hs. cbn [bind fst].
  rewrite range_from_0. unfold range.
  rewrite (mapM_Some _ (fun i => map g (flat_map (fun f => arena_pair q i f)
                                                 (seq 0 fnum)))).
  - cbn [bind]. do 2 f_equal. unfold arena_family.
    apply (concat_map_map g
             (fun i => flat_map (fun f => arena_pair q i f) (seq 0 fnum))).
  - intros i Hi. apply in_seq in Hi.
    rewrite row_Some by (assumption || lia). cbn [bind].
    rewrite FK_Some by (now rewrite row_of_length). cbn [bind].
    rewrite (mapM_Some _ (fun f => map g (arena_pair q i f))).
    + cbn [bind]. f_equal; apply concat_map_map.
    + intros f Hf. apply in_seq in Hf.
      rewrite nth_error_map_seq by lia. cbn [bind].
      rewrite (nth_error_nth' _ 0) by (rewrite fingertip_position_length; lia).
      cbn [bind]. unfold arena_pair. cbn [map g].
      do 3 f_equal. unfold norm_2, xy_radius, fingertip_position.
      cbn [one_finger_ft_wf firstn map sum fold_right nth].
      f_equal. ring.
Qed.

(** The constraints are the collocation family, then the goal family, then
    the arena family. *)
Lemma get_constraints_Some :
  get_constraints nGrid ft_goal_param t s a
  = Some (collocation_family nGrid t q dq
          ++ goal_family nGrid ft_goal_param a q
          ++ arena_family 10 nGrid q).
Proof.
  unfold get_constraints. rewrite Hs. cbn [bind fst snd].
  rewrite !range_from_0.
  rewrite (mapM_Some _ (fun i => map (fun j => Constraint
                                                 (collocation_defect t q dq i j)
                                                 (Fin 0) (Fin 0))
                                     (seq 0 (fnum * qnum)))).
  - cbn [bind]. rewrite ft_goal_constraint_Some. cbn [bind].
    rewrite entries_horzcat. cbn [bind].
    rewrite arena_constraint_Some. cbn [bind].
    rewrite entries_horzcat. cbn [bind].
    rewrite Ht. apply f_equal. apply f_equal2; [|apply f_equal2].
    + unfold collocation_family. now rewrite flat_map_concat_map.
    + unfold goal_family. apply map_concat_map.
    + rewrite map_map. rewrite <- (map_id (arena_family 10 nGrid q)) at 2.
      apply map_ext_in. intros c Hc.
      unfold arena_family in Hc. apply in_flat_map in Hc.
      destruct Hc as [i [_ Hc]]. apply in_flat_map in Hc.
      destruct Hc as [f [_ Hc]]. unfold arena_pair in Hc.
      destruct Hc as [Hc | [Hc | []]]; subst c; reflexivity.
  - intros i Hi. apply in_seq in Hi.
    rewrite (nth_error_nth' t 0) by lia. cbn [bind].
    rewrite (nth_error_nth' t 0) by lia. cbn [bind].
    apply mapM_Some. intros j Hj. apply in_seq in Hj.
    rewrite !get_entry by (assumption || lia). cbn [bind].
    reflexivity.
Qed.

End Constraints.

Section ConstraintFamilies.
Local Open Scope R_scope.

Lemma get_constraints_families (nGrid : nat) (ft_goal_param t s a : list R)
      (q dq : matrix R) :
  (1 <= nGrid)%nat ->
  length t = nGrid ->
  length s = (2 * nGrid * fnum * qnum)%nat ->
  length a = (3 * fnum)%nat ->
  length ft_goal_param = (3 * fnum)%nat ->
  s_unpack nGrid s = Some (q, dq) ->
  get_constraints nGrid ft_goal_param t s a
  = Some (collocation_family nGrid t q dq
          ++ goal_family nGrid ft_goal_param a q
          ++ arena_family 10 nGrid q).
Proof.
  intros Hn Ht Hs Ha Hg Hqdq.
  destruct (s_unpack_Some nGrid s Hs)
    as (q' & dq' & Hqdq' & Hq & Hq1 & Hq2 & Hdq & Hdq1 & Hdq2).
  rewrite Hqdq in Hqdq'. inversion Hqdq'; subst q' dq'.
  now apply get_constraints_Some.
Qed.

Lemma collocation_family_length (nGrid : nat) (t : list R) (q dq : matrix R) :
  length (collocation_family nGrid t q dq) = ((nGrid - 1) * (fnum * qnum))%nat.
Proof.
  unfold collocation_family.
  apply (flat_map_blocks _ (fnum * qnum) (nGrid - 1) 0).
  intros x _. now rewrite length_map, length_seq.
Qed.


Lemma goal_family_length (nGrid : nat) (ft_goal_param a : list R)
      (q : matrix R) :
  length (goal_family nGrid ft_goal_param a q) = (3 * fnum)%nat.
Proof. reflexivity. Qed.

Lemma goal_family_nth (nGrid : nat) (ft_goal_param a : list R) (q : matrix R)
      (f d : nat) :
  (f < fnum)%nat -> (d < 3)%nat ->
  nth_error (goal_family nGrid ft_goal_param a q) (f * 3 + d)
  = Some (Constraint (goal_slack_expr ft_goal_param a q (nGrid - 1) f d)
                     (Fin 0) PInf).
Proof.
  unfold fnum. intros Hf Hd.
  destruct f as [|[|[|f]]]; [| | |lia];
    (destruct d as [|[|[|d]]]; [| | |lia]); reflexivity.
Qed.

Lemma arena_family_length (c nGrid : nat) (q : matrix R) :
  length (arena_family c nGrid q) = ((nGrid - c) * (2 * fnum))%nat.
Proof.
  unfold arena_family.
  apply (flat_map_blocks _ (2 * fnum) (nGrid - c) c).
  intros x _. reflexivity.
Qed.

Lemma arena_family_nth (c nGrid : nat) (q : matrix R) (i f : nat) :
  (c <= i < nGrid)%nat -> (f < fnum)%nat ->
  firstn 2 (skipn ((i - c) * (2 * fnum) + 2 * f) (arena_family c nGrid q))
  = arena_pair q i f.
Proof.
  intros Hi Hf. unfold arena_family.
  destruct (flat_map_blocks
              (fun i => flat_map (fun f => arena_pair q i f) (seq 0 fnum))
              (2 * fnum) (nGrid - c) c) as [_ H].
  { intros x _. reflexivity. }
  assert (E : forall k, (k < 2)%nat ->
              nth_error (flat_map
                           (fun i => flat_map (fun f => arena_pair q i f)
                                              (seq 0 fnum))
                           (seq c (nGrid - c)))
                        ((i - c) * (2 * fnum) + 2 * f + k)
              = nth_error (arena_pair q i f) k).
  { intros k Hk. rewrite <- Nat.add_assoc.
    rewrite H by (unfold fnum in *; lia).
    replace (c + (i - c))%nat with i by lia.
    revert Hf. unfold fnum. intros Hf.
    destruct f as [|[|[|f]]]; [| | |lia];
      (destruct k as [|[|k]]; [| |lia]); reflexivity. }
  set (l := flat_map _ _) in *.
  set (n := ((i - c) * (2 * fnum) + 2 * f)%nat) in *.
  pose proof (E 0%nat ltac:(lia)) as E0.
  pose proof (E 1%nat ltac:(lia)) as E1.
  rewrite Nat.add_0_r in E0.
  assert (Hn : (n < length l)%nat)
    by (apply nth_error_Some; rewrite E0; discriminate).
  rewrite <- (firstn_skipn n l) in E0, E1.
  assert (Ln : length (firstn n l) = n)
    by (rewrite length_firstn; lia).
  rewrite nth_error_app2 in E0, E1 by lia.
  rewrite Ln in E0, E1.
  replace (n - n)%nat with 0%nat in E0 by lia.
  replace (n + 1 - n)%nat with 1%nat in E1 by lia.
  destruct (skipn n l) as [|c0 [|c1 rest]]; simpl in E0, E1;
    try discriminate.
  inversion E0; inversion E1; subst. reflexivity.
Qed.

(** The pinned time grid has step [dt]. *)
Lemma linspace_step (nGrid : nat) (dt : R) (i : nat) :
  (i + 1 < nGrid)%nat ->
  nth (i + 1) (linspace 0 (tf nGrid dt) nGrid) 0
  - nth i (linspace 0 (tf nGrid dt) nGrid) 0 = dt.
Proof.
  intros Hi. unfold linspace, tf.
  destruct nGrid as [|[|n]]; [lia | lia |].
  set (N := S (S n)) in *.
  assert (E : forall k, (k < N)%nat ->
            nth k (map (fun i => 0 + INR i * ((dt * (INR N - 1) - 0) / INR (N - 1)))
                       (seq 0 N)) 0
            = INR k * dt).
  { intros k Hk.
    apply nth_error_nth. rewrite nth_error_map_seq by assumption.
    f_equal. rewrite minus_INR by (subst N; lia).
    assert (INR N - INR 1 <> 0).
    { rewrite <- minus_INR by (subst N; lia). apply not_0_INR. subst N; lia. }
    simpl INR in *. field. assumption. }
  rewrite !E by lia. rewrite plus_INR. simpl INR. ring.
Qed.

End ConstraintFamilies.

(** ** The example inputs *)

Section Examples.
Local Open Scope R_scope.

Lemma rest_entry (i j : nat) :
  (i < 2)%nat -> (j < 9)%nat -> entry rest_q i j = 0.
Proof.
  intros Hi Hj.
  destruct i as [|[|i]]; [| |lia];
    do 9 (destruct j as [|j]; [reflexivity|]); lia.
Qed.



End Examples.

(** ** Collocation, goal and arena constraints *)

Section ConstraintClaims.
Local Open Scope R_scope.



(** C3. The goal constraints are imposed at the last grid index only: after
    the collocation defects come exactly [3 * fnum] inequalities, one for
    each finger [f] and axis [d], with expression
    [slack[f,d] - (goal[f,d] - fingertip_position[f,d]) ^ 2], lower bound 0
    and upper bound [+inf], the fingertip position being the forward
    kinematics of row [nGrid - 1] of [q]; all other constraints are
    collocation or arena constraints, and the goal constraints depend on
    [q] through its last row only. *)
Theorem goal_constraint_at_last_index (nGrid : nat)
        (ft_goal_param t s a : list R) (q dq : matrix R) :
  (1 <= nGrid)%nat ->
  length t = nGrid ->
  length s = (2 * nGrid * fnum * qnum)%nat ->
  length a = (3 * fnum)%nat ->
  length ft_goal_param = (3 * fnum)%nat ->
  s_unpack nGrid s = Some (q, dq) ->
  get_constraints nGrid ft_goal_param t s a
  = Some (collocation_family nGrid t q dq
          ++ goal_family nGrid ft_goal_param a q
          ++ arena_family 10 nGrid q) /\
  length (goal_family nGrid ft_goal_param a q) = (3 * fnum)%nat /\
  (forall f d, (f < fnum)%nat -> (d < 3)%nat ->
     exists fingertip,
       row q (nGrid - 1) = Some (row_of q (nGrid - 1)) /\
       FK (row_of q (nGrid - 1)) = Some fingertip /\
       nth_error fingertip f = Some (fingertip_position (row_of q (nGrid - 1)) f) /\
       nth_error (goal_family nGrid ft_goal_param a q) (f * 3 + d)
       = Some (Constraint
                 (nth (f * 3 + d) a 0
                  - (nth (f * 3 + d) ft_goal_param 0
                     - nth d (fingertip_position (row_of q (nGrid - 1)) f) 0) ^ 2)
                 (Fin 0) PInf)) /\
  (forall q', row_of q' (nGrid - 1) = row_of q (nGrid - 1) ->
     goal_family nGrid ft_goal_param a q'
     = goal_family nGrid ft_goal_param a q).
Proof.
  intros Hn Ht Hs Ha Hg Hqdq.
  split; [apply get_constraints_families; (assumption || lia)|].
  split; [apply goal_family_length|].
  split.
  - intros f d Hf Hd.
    destruct (s_unpack_Some nGrid s Hs)
      as (q' & dq' & Hqdq' & Hq & Hq1 & Hq2 & _).
    rewrite Hqdq in Hqdq'. inversion Hqdq'; subst q' dq'.
    exists (map (fingertip_position (row_of q (nGrid - 1))) (seq 0 fnum)).
    split; [apply row_Some; [assumption | lia]|].
    split; [apply FK_Some; now rewrite row_of_length|].
    split; [now apply nth_error_map_seq|].
    now apply goal_family_nth.
  - intros q' Hrow. unfold goal_family, goal_slack_expr.
    now rewrite Hrow.
Qed.

Lemma goal_constraint_at_last_index_witness :
  get_constraints 2 rest_goal rest_t rest_s rest_a
  = Some (collocation_family 2 rest_t rest_q rest_q
          ++ goal_family 2 rest_goal rest_a rest_q
          ++ arena_family 10 2 rest_q) /\
  length (goal_family 2 rest_goal rest_a rest_q) = (3 * fnum)%nat.
Proof.
  destruct (goal_constraint_at_last_index 2 rest_goal rest_t rest_s rest_a
                                          rest_q rest_q)
    as (H1 & H2 & _);
    [lia | reflexivity | reflexivity | reflexivity | reflexivity
     | reflexivity |].
  split; [exact H1 | exact H2].
Defined.

End ConstraintClaims.

Section ArenaClaims.
Local Open Scope R_scope.

Lemma arena_constraint_family (nGrid : nat) (s : list R) (q dq : matrix R) :
  length s = (2 * nGrid * fnum * qnum)%nat ->
  s_unpack nGrid s = Some (q, dq) ->
  arena_constraint nGrid s = Some (horzcat (map g (arena_family 10 nGrid q))).
Proof.
  intros Hs Hqdq.
  destruct (s_unpack_Some nGrid s Hs)
    as (q' & dq' & Hqdq' & Hq & Hq1 & Hq2 & _).
  rewrite Hqdq in Hqdq'. inversion Hqdq'; subst q' dq'.
  now apply (arena_constraint_Some nGrid s q dq).
Qed.

(** C5. The arena constraints are imposed at every grid index from the
    cut-in index, which is 10, on: for each such index [i] and each finger
    [f] the constraints hold, in this order, the two inequalities
    [MAX_FT_R - xy_radius(fingertip)] and [fingertip_z - GROUND_CLEARANCE],
    both with lower bound 0 and upper bound [+inf], where [fingertip] is
    the forward kinematics of row [i] of [q]; [MAX_FT_R = 0.195] and
    [GROUND_CLEARANCE = 0.01]. *)
Theorem arena_constraints_from_cut_in (nGrid : nat)
        (ft_goal_param t s a : list R) (q dq : matrix R) :
  (1 <= nGrid)%nat ->
  length t = nGrid ->
  length s = (2 * nGrid * fnum * qnum)%nat ->
  length a = (3 * fnum)%nat ->
  length ft_goal_param = (3 * fnum)%nat ->
  s_unpack nGrid s = Some (q, dq) ->
  get_constraints nGrid ft_goal_param t s a
  = Some (collocation_family nGrid t q dq
          ++ goal_family nGrid ft_goal_param a q
          ++ arena_family 10 nGrid q) /\
  length (arena_family 10 nGrid q) = ((nGrid - 10) * (2 * fnum))%nat /\
  (forall i f, (10 <= i < nGrid)%nat -> (f < fnum)%nat ->
     exists fingertips x y z,
       row q i = Some (row_of q i) /\
       FK (row_of q i) = Some fingertips /\
       nth_error fingertips f = Some [x; y; z] /\
       firstn 2 (skipn ((i - 10) * (2 * fnum) + 2 * f)
                       (arena_family 10 nGrid q))
       = [ Constraint (MAX_FT_R - sqrt (x * x + y * y)) (Fin 0) PInf ;
           Constraint (z - GROUND_CLEARANCE) (Fin 0) PInf ]) /\
  MAX_FT_R = 0.195 /\ GROUND_CLEARANCE = 0.01.
Proof.
  intros Hn Ht Hs Ha Hg Hqdq.
  split; [apply get_constraints_families; (assumption || lia)|].
  split; [apply arena_family_length|].
  split; [|split; reflexivity].
  intros i f Hi Hf.
  destruct (s_unpack_Some nGrid s Hs)
    as (q' & dq' & Hqdq' & Hq & Hq1 & Hq2 & _).
  rewrite Hqdq in Hqdq'. inversion Hqdq'; subst q' dq'.
  exists (map (fingertip_position (row_of q i)) (seq 0 fnum)),
         (nth 0 (fingertip_position (row_of q i) f) 0),
         (nth 1 (fingertip_position (row_of q i) f) 0),
         (nth 2 (fingertip_position (row_of q i) f) 0).
  split; [apply row_Some; [assumption | lia]|].
  split; [apply FK_Some; now rewrite row_of_length|].
  split; [now rewrite nth_error_map_seq|].
  now rewrite arena_family_nth.
Qed.

Lemma arena_constraints_from_cut_in_witness :
  get_constraints 11 rest_goal far_t far_s rest_a
  = Some (collocation_family 11 far_t far_q far_q
          ++ goal_family 11 rest_goal rest_a far_q
          ++ arena_family 10 11 far_q) /\
  length (arena_family 10 11 far_q) = ((11 - 10) * (2 * fnum))%nat.
Proof.
  destruct (arena_constraints_from_cut_in 11 rest_goal far_t far_s rest_a
                                          far_q far_q)
    as (H1 & H2 & _);
    [lia | reflexivity | reflexivity | reflexivity | reflexivity
     | reflexivity |].
  split; [exact H1 | exact H2].
Defined.

(** C9. The cut-in index of the arena constraints is 10 whatever the grid:
    on a grid of at most 10 points [arena_constraint] returns an empty row
    and the assembled constraints are the collocation and goal
    constraints only. *)
Theorem arena_empty_on_short_grids (nGrid : nat)
        (ft_goal_param t s a : list R) (q dq : matrix R) :
  (1 <= nGrid)%nat ->
  (nGrid <= 10)%nat ->
  length t = nGrid ->
  length s = (2 * nGrid * fnum * qnum)%nat ->
  length a = (3 * fnum)%nat ->
  length ft_goal_param = (3 * fnum)%nat ->
  s_unpack nGrid s = Some (q, dq) ->
  arena_constraint nGrid s = Some (horzcat []) /\
  arena_family 10 nGrid q = [] /\
  get_constraints nGrid ft_goal_param t s a
  = Some (collocation_family nGrid t q dq
          ++ goal_family nGrid ft_goal_param a q) /\
  forall c, get_constraints nGrid ft_goal_param t s a = Some c ->
            length c = ((nGrid - 1) * (fnum * qnum) + 3 * fnum)%nat.
Proof.
  intros Hn Hn10 Ht Hs Ha Hg Hqdq.
  assert (E : arena_family 10 nGrid q = []).
  { unfold arena_family. replace (nGrid - 10)%nat with 0%nat by lia.
    reflexivity. }
  assert (G : get_constraints nGrid ft_goal_param t s a
              = Some (collocation_family nGrid t q dq
                      ++ goal_family nGrid ft_goal_param a q)).
  { rewrite (get_constraints_families nGrid ft_goal_param t s a q dq)
      by (assumption || lia).
    now rewrite E, app_nil_r. }
  split; [rewrite (arena_constraint_family nGrid s q dq) by assumption;
          now rewrite E|].
  split; [exact E|].
  split; [exact G|].
  intros c Hc. rewrite G in Hc. inversion Hc; subst c.
  rewrite length_app, collocation_family_length, goal_family_length.
  reflexivity.
Qed.

Lemma arena_empty_on_short_grids_witness :
  arena_constraint 2 rest_s = Some (horzcat []) /\
  arena_family 10 2 rest_q = [] /\
  get_constraints 2 rest_goal rest_t rest_s rest_a
  = Some (collocation_family 2 rest_t rest_q rest_q
          ++ goal_family 2 rest_goal rest_a rest_q).
Proof.
  destruct (arena_empty_on_short_grids 2 rest_goal rest_t rest_s rest_a
                                       rest_q rest_q)
    as (H1 & H2 & H3 & _);
    [lia | lia | reflexivity | reflexivity | reflexivity | reflexivity
     | reflexivity |].
  split; [exact H1 | split; [exact H2 | exact H3]].
Defined.

End ArenaClaims.

(** ** The assembled cost *)

Section CostFacts.
Local Open Scope R_scope.

Lemma foldM_sum {B : Type} (F : R -> B -> option R) (h : B -> R)
      (l : list B) (c0 : R) :
  (forall c x, In x l -> F c x = Some (c + h x)) ->
  foldM F l c0 = Some (c0 + sum (map h l)).
Proof.
  revert c0. induction l as [|x l IH]; intros c0 H; simpl.
  - f_equal. unfold sum. simpl. ring.
  - rewrite (H c0 x) by (now left). cbn [bind].
    rewrite IH by (intros; apply H; now right).
    f_equal. unfold sum. simpl. ring.
Qed.

Lemma foldM_ext {B C : Type} (F G : C -> B -> option C) (l : list B) (c0 : C) :
  (forall c x, In x l -> F c x = G c x) ->
  foldM F l c0 = foldM G l c0.
Proof.
  revert c0. induction l as [|x l IH]; intros c0 H; simpl; [reflexivity|].
  rewrite (H c0 x) by (now left).
  destruct (G c0 x); cbn [bind]; [|reflexivity].
  apply IH. intros; apply H; now right.
Qed.

Ltac unfold_decimals := cbv [Q2R QArith_base.Qnum QArith_base.Qden].

Ltac compute_arrays :=
  cbv [dot vecmat vscale vsub mscale eye map combine seq fold_right sum
       column nth hd length fst snd Nat.eqb quad_form Q_weight R_weight
       qnum fnum Nat.mul Nat.add].

(** The tracking term as the source computes it is half the quadratic
    form of the goal error. *)
Lemma tracking_quad (g0 g1 g2 x y z : R) :
  dot (vecmat (vscale 0.5 (vsub [g0; g1; g2] [x; y; z])) (mscale (eye qnum) 6))
      (vsub [g0; g1; g2] [x; y; z])
  = 0.5 * quad_form [g0 - x; g1 - y; g2 - z] Q_weight.
Proof. compute_arrays. unfold_decimals. field. Qed.

Lemma velocity_quad (v : list R) :
  length v = (fnum * qnum)%nat ->
  dot (vecmat (vscale 0.5 v) (mscale (eye (fnum * qnum)) 0.01)) v
  = 0.5 * quad_form v R_weight.
Proof.
  intros Hlen.
  destruct v as [|a0 [|a1 [|a2 [|a3 [|a4 [|a5 [|a6 [|a7 [|a8 [|]]]]]]]]]];
    try discriminate Hlen.
  compute_arrays. unfold_decimals. field.
Qed.

Lemma sum_times (a : list R) (w : R) :
  sum (map (fun i => nth i a 0 * w) (seq 0 (length a))) = sum a * w.
Proof.
  assert (H : forall pre,
             sum (map (fun i => nth i (pre ++ a) 0 * w)
                      (seq (length pre) (length a)))
             = sum a * w).
  { induction a as [|x a IH]; intros pre; unfold sum in *; simpl.
    - ring.
    - rewrite app_nth2, Nat.sub_diag by lia. simpl.
      specialize (IH (pre ++ [x])).
      rewrite <- app_assoc, length_app in IH. simpl in IH.
      rewrite Nat.add_1_r in IH. rewrite IH. ring. }
  exact (H []).
Qed.

Lemma slice_window (l : list R) (start len : nat) :
  (start + len <= length l)%nat ->
  slice l start (Some (start + len)%nat) = Some (firstn len (skipn start l)).
Proof.
  intros H. unfold slice.
  destruct (Nat.ltb_spec (length l) (start + len)); [lia|].
  do 2 f_equal. lia.
Qed.

End CostFacts.

Section CostClaims.
Local Open Scope R_scope.
Variable nGrid : nat.
Variable obj_shape : vec3.
Variable invert_transform : vec3 -> quat -> vec3 * quat.
Variable get_matrix_from_quaternion : quat -> vec3 * vec3 * vec3.
Variable get_sphere_centers_wf : nat -> list R -> nat -> list vec3.

Local Abbreviation cost :=
  (cost_func nGrid obj_shape invert_transform get_matrix_from_quaternion
             get_sphere_centers_wf).
Local Abbreviation collision :=
  (collision_cost obj_shape invert_transform get_matrix_from_quaternion
                  get_sphere_centers_wf).

Lemma tracking_step (ft_goal_param : list R) (q : matrix R) (i f : nat) :
  length ft_goal_param = (3 * fnum)%nat -> (f < fnum)%nat ->
  dot (vecmat (vscale 0.5 (vsub (firstn 3 (skipn (3 * f) ft_goal_param))
                                (fingertip_position (row_of q i) f)))
              (mscale (eye qnum) 6))
      (vsub (firstn 3 (skipn (3 * f) ft_goal_param))
            (fingertip_position (row_of q i) f))
  = tracking_cost ft_goal_param q i f.
Proof.
  intros Hg Hf. unfold tracking_cost, goal_error.
  set (ft := fingertip_position (row_of q i) f).
  assert (E : ft = [nth 0 ft 0; nth 1 ft 0; nth 2 ft 0]) by reflexivity.
  set (x := nth 0 ft 0) in *. set (y := nth 1 ft 0) in *.
  set (z := nth 2 ft 0) in *. clearbody x y z.
  rewrite E. clear E.
  destruct ft_goal_param
    as [|g0 [|g1 [|g2 [|g3 [|g4 [|g5 [|g6 [|g7 [|g8 [|]]]]]]]]]];
    try discriminate Hg.
  revert Hf. unfold fnum. intros Hf.
  destruct f as [|[|[|f]]]; [| | |lia]; apply tracking_quad.
Qed.

(** The cost as the sum of its four families of terms. *)
Lemma cost_func_terms (ft_goal_param : list R) (obj_pose_param : pose)
      (t s a : list R) (q dq : matrix R) :
  length t = nGrid ->
  length s = (2 * nGrid * fnum * qnum)%nat ->
  length a = (3 * fnum)%nat ->
  length ft_goal_param = (3 * fnum)%nat ->
  s_unpack nGrid s = Some (q, dq) ->
  cost ft_goal_param obj_pose_param t s a
  = Some (slack_penalty a
          + sum_over_grid nGrid
              (fun i => sum_over_fingers (tracking_cost ft_goal_param q i))
          + sum_over_grid nGrid (velocity_cost dq)
          + sum_over_grid nGrid
              (fun i => sum_over_fingers (collision obj_pose_param q i))).
Proof.
  intros Ht Hs Ha Hg Hqdq.
  destruct (s_unpack_Some nGrid s Hs)
    as (q' & dq' & Hqdq' & Hq & Hq1 & Hq2 & Hdq & Hdq1 & Hdq2).
  rewrite Hqdq in Hqdq'. inversion Hqdq'; subst q' dq'. clear Hqdq'.
  unfold cost_func. rewrite Hqdq. cbn [bind fst snd].
  rewrite !range_from_0.
  rewrite (foldM_sum _ (fun i => nth i a 0 * 150)).
  2:{ intros c i Hi. apply in_seq in Hi.
      rewrite (nth_error_nth' a 0) by lia. reflexivity. }
  cbn [bind].
  rewrite (foldM_sum _ (fun i => sum_over_fingers
                                   (tracking_cost ft_goal_param q i))).
  2:{ intros c i Hi. apply in_seq in Hi.
      rewrite row_Some by (assumption || lia). cbn [bind].
      rewrite FK_Some by (now rewrite row_of_length). cbn [bind].
      apply foldM_sum. intros c' f Hf. apply in_seq in Hf.
      rewrite slice_window by (rewrite Hg; lia). cbn [bind].
      rewrite nth_error_map_seq by lia. cbn [bind].
      do 2 f_equal. apply tracking_step; [assumption | lia]. }
  cbn [bind].
  rewrite (foldM_sum _ (velocity_cost dq)).
  2:{ intros c i Hi. apply in_seq in Hi.
      rewrite row_Some by (assumption || lia). cbn [bind].
      do 2 f_equal. apply velocity_quad.
      now rewrite row_of_length. }
  cbn [bind].
  rewrite (foldM_sum _ (fun i => sum_over_fingers (collision obj_pose_param q i))).
  2:{ intros c i Hi. apply in_seq in Hi.
      rewrite row_Some by (assumption || lia). cbn [bind].
      apply foldM_sum. intros c' f Hf. apply in_seq in Hf.
      rewrite slice_window
        by (rewrite row_of_length, Hq2; unfold fnum, qnum in *; lia).
      cbn [bind]. unfold collision_cost.
      apply (foldM_sum _ (fun l_i => sum (map _ (get_sphere_centers_wf f _ l_i)))).
      intros c2 l_i _. apply foldM_sum. intros; reflexivity. }
  f_equal. rewrite Ht. unfold slack_penalty, sum_over_grid, W_SLACK.
  rewrite sum_times. ring.
Qed.

(** C4. The cost is the sum of the slack penalty (the sum of the slack
    variables times 150), of the tracking term of every finger at every
    grid index (half the quadratic form of the goal error with the
    diagonal weight [Q], entries 6), of the velocity term at every grid
    index (half the quadratic form of the joint velocities with the
    diagonal weight [R], entries 0.01) and of the collision penalties. *)
Theorem cost_is_sum_of_terms (ft_goal_param : list R) (obj_pose_param : pose)
        (t s a : list R) (q dq : matrix R) :
  length t = nGrid ->
  length s = (2 * nGrid * fnum * qnum)%nat ->
  length a = (3 * fnum)%nat ->
  length ft_goal_param = (3 * fnum)%nat ->
  s_unpack nGrid s = Some (q, dq) ->
  cost ft_goal_param obj_pose_param t s a
  = Some (slack_penalty a
          + sum_over_grid nGrid
              (fun i => sum_over_fingers (tracking_cost ft_goal_param q i))
          + sum_over_grid nGrid (velocity_cost dq)
          + sum_over_grid nGrid
              (fun i => sum_over_fingers (collision obj_pose_param q i))) /\
  slack_penalty a = sum a * 150 /\
  (forall i f,
     tracking_cost ft_goal_param q i f
     = 0.5 * quad_form (goal_error ft_goal_param q i f) Q_weight) /\
  (forall i, velocity_cost dq i = 0.5 * quad_form (row_of dq i) R_weight) /\
  (forall i j, (i < qnum)%nat -> (j < qnum)%nat ->
     nth j (nth i Q_weight []) 0 = if (i =? j)%nat then 6 else 0) /\
  (forall i j, (i < fnum * qnum)%nat -> (j < fnum * qnum)%nat ->
     nth j (nth i R_weight []) 0 = if (i =? j)%nat then 0.01 else 0) /\
  0 < 6 /\ 0 < 0.01.
Proof.
  intros Ht Hs Ha Hg Hqdq.
  split; [now apply cost_func_terms|].
  split; [reflexivity|]. split; [reflexivity|]. split; [reflexivity|].
  split; [|split; [|split; lra]].
  - unfold qnum. intros i j Hi Hj.
    destruct i as [|[|[|i]]]; [| | |lia];
      (destruct j as [|[|[|j]]]; [| | |lia]);
      cbv [Q_weight mscale eye map seq qnum nth Nat.eqb]; lra.
  - unfold fnum, qnum. intros i j Hi Hj.
    do 9 (destruct i as [|i];
          [do 9 (destruct j as [|j];
                 [cbv [R_weight mscale eye map seq qnum fnum nth Nat.eqb
                       Nat.mul Nat.add]; lra|]); lia|]); lia.
Qed.

(** C10. The collision weight is zero, and the cost does not depend on the
    object pose: with the fingertip goal and the decision variables held
    equal, two object poses give the same cost. *)
Theorem cost_independent_of_object_pose (ft_goal_param : list R)
        (pose1 pose2 : pose) (t s a : list R) :
  length t = nGrid ->
  length s = (2 * nGrid * fnum * qnum)%nat ->
  length a = (3 * fnum)%nat ->
  length ft_goal_param = (3 * fnum)%nat ->
  collision_weight = 0 /\
  cost ft_goal_param pose1 t s a = cost ft_goal_param pose2 t s a /\
  exists c, cost ft_goal_param pose1 t s a = Some c /\
            cost ft_goal_param pose2 t s a = Some c.
Proof.
  intros Ht Hs Ha Hg.
  assert (E : cost ft_goal_param pose1 t s a = cost ft_goal_param pose2 t s a).
  { unfold cost_func.
    destruct (s_unpack nGrid s) as [[q dq]|]; cbn [bind fst snd];
      [|reflexivity].
    destruct (foldM _ (range 0 (length a)) 0) as [c1|]; cbn [bind];
      [|reflexivity].
    destruct (foldM _ (range 0 (length t)) c1) as [c2|]; cbn [bind];
      [|reflexivity].
    destruct (foldM _ (range 0 (length t)) c2) as [c3|]; cbn [bind];
      [|reflexivity].
    apply foldM_ext. intros c t_i _.
    destruct (row q t_i) as [q_cur|]; cbn [bind]; [|reflexivity].
    apply foldM_ext. intros c4 f_i _.
    destruct (slice q_cur _ _) as [q_f|]; cbn [bind]; [|reflexivity].
    apply foldM_ext. intros c5 l_i _.
    apply foldM_ext. intros c6 ctr _.
    unfold collision_weight. f_equal. ring. }
  split; [reflexivity|]. split; [exact E|].
  destruct (s_unpack_Some nGrid s Hs) as (q & dq & Hqdq & _).
  eexists. split; [|rewrite <- E];
    apply (cost_func_terms ft_goal_param pose1 t s a q dq); assumption.
Qed.

End CostClaims.

Section CostWitnesses.
Local Open Scope R_scope.

Lemma cost_is_sum_of_terms_witness :
  cost_func 2 unit_shape keep_transform identity_rotation origin_centers
            rest_goal pose_origin rest_t rest_s rest_a
  = Some (slack_penalty rest_a
          + sum_over_grid 2
              (fun i => sum_over_fingers (tracking_cost rest_goal rest_q i))
          + sum_over_grid 2 (velocity_cost rest_q)
          + sum_over_grid 2
              (fun i => sum_over_fingers
                          (collision_cost unit_shape keep_transform
                             identity_rotation origin_centers
                             pose_origin rest_q i))).
Proof.
  apply (cost_is_sum_of_terms 2 unit_shape keep_transform identity_rotation
           origin_centers rest_goal pose_origin rest_t rest_s rest_a
           rest_q rest_q); reflexivity.
Defined.

Lemma cost_independent_of_object_pose_witness :
  cost_func 2 unit_shape keep_transform identity_rotation origin_centers
            rest_goal pose_origin rest_t rest_s rest_a
  = cost_func 2 unit_shape keep_transform identity_rotation origin_centers
              rest_goal pose_shifted rest_t rest_s rest_a.
Proof.
  apply (cost_independent_of_object_pose 2 unit_shape keep_transform
           identity_rotation origin_centers rest_goal pose_origin
           pose_shifted rest_t rest_s rest_a); reflexivity.
Defined.

End CostWitnesses.

(** ** The Jacobian of the hand *)

Section JacobianClaim.
Local Open Scope R_scope.

(** C7. For every base angle and every joint configuration of a finger,
    entry [(r, k)] of [one_finger_J] is the partial derivative of
    coordinate [r] of [one_finger_ft_wf] with respect to joint [k]; [FK]
    returns these fingertip positions finger by finger, and
    [get_jacobian] returns a [3 * fnum] by [fnum * qnum] matrix whose
    diagonal blocks are the Jacobians of the fingers and whose other
    entries are 0. *)
Theorem jacobian_of_forward_kinematics (q_cur : list R) :
  length q_cur = (fnum * qnum)%nat ->
  (forall theta_base q1 q2 q3 r k, (r < 3)%nat -> (k < qnum)%nat ->
     derivable_pt_lim
       (fun x => ft_coord theta_base r (set_joint k x (q1, q2, q3)))
       (joint k (q1, q2, q3))
       (J_coord theta_base r k (q1, q2, q3))) /\
  FK q_cur = Some (map (fingertip_position q_cur) (seq 0 fnum)) /\
  (forall f r, (f < fnum)%nat -> (r < 3)%nat ->
     nth r (fingertip_position q_cur f) 0
     = ft_coord (theta_base_of f) r (finger_joints q_cur f)) /\
  exists J,
    get_jacobian q_cur = Some J /\
    length J = (3 * fnum)%nat /\
    Forall (fun row => length row = (fnum * qnum)%nat) J /\
    forall i j r k, (i < fnum)%nat -> (j < fnum)%nat ->
                    (r < 3)%nat -> (k < qnum)%nat ->
      nth (qnum * j + k) (nth (3 * i + r) J []) 0
      = if (i =? j)%nat
        then J_coord (theta_base_of i) r k (finger_joints q_cur i)
        else 0.
Proof.
  intros Hlen.
  split; [intros; now apply one_finger_jacobian|].
  split; [now apply FK_Some|].
  split; [intros; reflexivity|].
  now apply get_jacobian_blocks.
Qed.

Lemma jacobian_of_forward_kinematics_witness :
  FK (repeat 0 9) = Some (map (fingertip_position (repeat 0 9)) (seq 0 fnum)) /\
  derivable_pt_lim
    (fun x => ft_coord 0 0 (set_joint 0 x (0, 0, 0)))
    (joint 0 (0, 0, 0))
    (J_coord 0 0 0 (0, 0, 0)).
Proof.
  destruct (jacobian_of_forward_kinematics (repeat 0 9)) as (H1 & H2 & _);
    [reflexivity|].
  split; [exact H2|].
  apply H1; unfold qnum; lia.
Defined.

End JacobianClaim.

(** ** Vectors of the wrong length *)

Section WrongLengths.
Context {A : Type}.
Variable nGrid : nat.

Lemma s_unpack_wrong_length (s : list A) :
  length s <> 2 * nGrid * fnum * qnum -> s_unpack nGrid s = None.
Proof.
  intros Hlen. unfold s_unpack. cbv zeta.
  set (n9 := nGrid * (qnum * fnum)).
  unfold slice at 1.
  destruct (Nat.ltb_spec (length s) n9) as [Hlt|Hge]; [reflexivity|].
  cbn [bind]. unfold reshape at 1.
  destruct (Nat.eqb_spec (length (firstn (n9 - 0) (skipn 0 s)))
                         (qnum * fnum * nGrid)); [|reflexivity].
  cbn [bind]. unfold slice. rewrite Nat.ltb_irrefl. cbn [bind].
  unfold reshape.
  destruct (Nat.eqb_spec (length (firstn (length s - n9) (skipn n9 s)))
                         (qnum * fnum * nGrid)) as [E|]; [|reflexivity].
  exfalso. apply Hlen.
  rewrite length_firstn, length_skipn in E. subst n9. lia.
Qed.

Lemma decvar_unpack_too_short (z : list A) :
  length z < nGrid + 2 * nGrid * fnum * qnum -> decvar_unpack nGrid z = None.
Proof.
  intros Hlen. unfold decvar_unpack.
  unfold slice at 1.
  destruct (Nat.ltb_spec (length z) nGrid); [reflexivity|].
  cbn [bind]. unfold slice at 1.
  destruct (Nat.ltb_spec (length z) (nGrid + 2 * nGrid * fnum * qnum));
    [reflexivity | lia].
Qed.

Lemma decvar_unpack_long_enough (z : list A) :
  nGrid + 2 * nGrid * fnum * qnum <= length z ->
  exists t s a,
    decvar_unpack nGrid z = Some (t, s, a) /\
    length t = nGrid /\
    length s = 2 * nGrid * fnum * qnum /\
    t ++ s ++ a = z.
Proof.
  intros Hlen.
  set (n := 2 * nGrid * fnum * qnum) in *.
  exists (firstn nGrid z), (firstn n (skipn nGrid z)),
         (skipn n (skipn nGrid z)).
  assert (Lt : length (firstn nGrid z) = nGrid)
    by (rewrite length_firstn; lia).
  assert (Ls : length (firstn n (skipn nGrid z)) = n)
    by (rewrite length_firstn, length_skipn; lia).
  assert (Ez : firstn nGrid z ++ firstn n (skipn nGrid z)
               ++ skipn n (skipn nGrid z) = z)
    by (now rewrite firstn_skipn, firstn_skipn).
  split; [|split; [exact Lt|split; [exact Ls|exact Ez]]].
  rewrite <- Ez at 1.
  pose proof (decvar_unpack_pack nGrid (firstn nGrid z)
                (firstn n (skipn nGrid z)) (skipn n (skipn nGrid z)) Lt Ls)
    as H.
  unfold decvar_pack, vertcat in H. simpl concat in H.
  now rewrite app_nil_r in H.
Qed.

End WrongLengths.

(** C8, as the claim states it, fails: on a grid of two points a decision
    vector with one entry too many is unpacked, the extra entry going to the
    slack block. *)
Lemma decvar_unpack_accepts_long_vector :
  length (seq 0 48) <> 2 + 2 * 2 * fnum * qnum + 3 * fnum /\
  decvar_unpack 2 (seq 0 48) = Some (seq 0 2, seq 2 36, seq 38 10).
Proof. split; [discriminate | reflexivity]. Qed.

(** C8, amended. [s_unpack] fails on every state vector whose length is not
    [2 * nGrid * fnum * qnum]. [decvar_unpack] fails on every decision vector
    shorter than [nGrid + 2 * nGrid * fnum * qnum]; on every longer one it
    returns the time block, the state block and, as slack block, all the
    entries that remain, whatever their number: the three blocks laid end
    to end are the input, so nothing is dropped and nothing is added. *)
Theorem unpack_length_checks {A : Type} (nGrid : nat) (z s : list A) :
  (length s <> 2 * nGrid * fnum * qnum -> s_unpack nGrid s = None) /\
  (length z < nGrid + 2 * nGrid * fnum * qnum -> decvar_unpack nGrid z = None) /\
  (nGrid + 2 * nGrid * fnum * qnum <= length z ->
   exists t s' a,
     decvar_unpack nGrid z = Some (t, s', a) /\
     length t = nGrid /\
     length s' = 2 * nGrid * fnum * qnum /\
     t ++ s' ++ a = z).
Proof.
  split; [apply s_unpack_wrong_length|].
  split; [apply decvar_unpack_too_short | apply decvar_unpack_long_enough].
Qed.

Lemma unpack_length_checks_witness :
  s_unpack 2 (seq 0 37) = None /\
  decvar_unpack 2 (seq 0 37) = None /\
  exists t s' a,
    decvar_unpack 2 (seq 0 48) = Some (t, s', a) /\
    length t = 2 /\ length s' = 2 * 2 * fnum * qnum /\
    t ++ s' ++ a = seq 0 48.
Proof.
  split; [apply (unpack_length_checks 2 (seq 0 37) (seq 0 37)); discriminate|].
  split; [apply (unpack_length_checks 2 (seq 0 37) (seq 0 37)); simpl; lia|].
  apply (unpack_length_checks 2 (seq 0 48) (seq 0 48)). simpl. lia.
Defined.

(** ** Bounds of the decision variables *)

Section TabulatedMatrices.
Context {A : Type}.

Lemma wf_tabulate (r c : nat) (f : nat -> nat -> option A) :
  (forall i j, i < r -> j < c -> f i j <> None) ->
  wf (Matrix r c (tabulate r c f)).
Proof.
  intros H. unfold wf. cbn [size1 size2 nz].
  destruct (tabulate_spec r c f H) as [Hl _]. lia.
Qed.

Lemma get_tabulate (r c : nat) (f : nat -> nat -> option A) (i j : nat) :
  (forall i j, i < r -> j < c -> f i j <> None) ->
  i < r -> j < c ->
  get (Matrix r c (tabulate r c f)) i j = f i j.
Proof.
  intros H Hi Hj. rewrite get_nth by assumption. cbn [size1 nz].
  destruct (tabulate_spec r c f H) as [_ Hn]. now apply Hn.
Qed.

Lemma mapM_ext {B : Type} (f h : B -> option A) (l : list B) :
  (forall x, In x l -> f x = h x) -> mapM f l = mapM h l.
Proof.
  induction l as [|x l IH]; intros H; simpl; [reflexivity|].
  rewrite (H x) by (now left).
  rewrite IH by (intros; apply H; now right). reflexivity.
Qed.

Lemma nth_error_not_None (l : list A) (j : nat) :
  j < length l -> nth_error l j <> None.
Proof. intros H. now apply nth_error_Some. Qed.

(** After [m[i] = v], row [i] of [m] is [v]. *)
Lemma set_row_row (m m' : matrix A) (i : nat) (v : list A) :
  wf m -> set_row m i v = Some m' ->
  wf m' /\ size1 m' = size1 m /\ size2 m' = size2 m /\ row m' i = Some v.
Proof.
  intros Hwf. unfold set_row.
  destruct (Nat.ltb_spec i (size1 m)) as [Hi|]; [|discriminate].
  destruct (Nat.eqb_spec (length v) (size2 m)) as [Hv|]; [|discriminate].
  cbn [andb]. intros E. inversion E; subst m'; clear E.
  set (f := fun i' j => if i' =? i then nth_error v j else get m i' j).
  assert (Hf : forall i' j, i' < size1 m -> j < size2 m -> f i' j <> None).
  { intros i' j Hi' Hj. subst f. cbv beta.
    destruct (i' =? i); [apply nth_error_not_None; lia | now apply get_Some]. }
  split; [now apply wf_tabulate|].
  split; [reflexivity|]. split; [reflexivity|].
  unfold row. cbn [size1 size2].
  destruct (Nat.ltb_spec i (size1 m)); [|lia].
  rewrite (mapM_ext _ (fun j => nth_error v j)).
  - rewrite <- Hv. apply mapM_nth_error_seq.
  - intros j Hj. apply in_seq in Hj.
    rewrite get_tabulate by (assumption || lia).
    subst f. cbv beta. now rewrite Nat.eqb_refl.
Qed.

End TabulatedMatrices.

Section Bounds.
Local Open Scope R_scope.

Lemma ble_refl (x : R) : ble (Fin x) (Fin x).
Proof. simpl. lra. Qed.

Lemma below_tile (r : nat) (v1 v2 : list bound) :
  Forall2 ble v1 v2 ->
  below r (length v1) (tile_rows r v1) (tile_rows r v2).
Proof.
  intros H. pose proof (Forall2_length H) as Hl.
  assert (H1 : forall i j : nat, (i < r)%nat -> (j < length v1)%nat ->
                                 nth_error v1 j <> None)
    by (intros; now apply nth_error_not_None).
  assert (H2 : forall i j : nat, (i < r)%nat -> (j < length v2)%nat ->
                                 nth_error v2 j <> None)
    by (intros; now apply nth_error_not_None).
  unfold below, tile_rows.
  split; [now apply wf_tabulate|]. split; [now apply wf_tabulate|].
  cbn [size1 size2]. repeat (split; [reflexivity || (symmetry; exact Hl)|]).
  intros i j Hi Hj.
  rewrite (get_tabulate r (length v1) (fun _ j => nth_error v1 j))
    by assumption.
  rewrite (get_tabulate r (length v2) (fun _ j => nth_error v2 j))
    by (assumption || lia).
  destruct (nth_error v1 j) as [x|] eqn:E1;
    [|apply nth_error_None in E1; lia].
  destruct (nth_error v2 j) as [y|] eqn:E2;
    [|apply nth_error_None in E2; lia].
  exists x, y. repeat split.
  clear - H E1 E2. revert j E1 E2.
  induction H as [|a b l1 l2 Hab Hrest IH]; intros [|j] E1 E2;
    simpl in *; try discriminate.
  - inversion E1; inversion E2; now subst.
  - now apply (IH j).
Qed.

(** Pinning one row of both matrices to the same numbers keeps the first
    below the second. *)
Lemma below_set_row (r c : nat) (lo hi : matrix bound) (i : nat) (v : list R) :
  below r c lo hi -> (i < r)%nat -> length v = c ->
  exists lo' hi',
    set_row lo i (map Fin v) = Some lo' /\
    set_row hi i (map Fin v) = Some hi' /\
    below r c lo' hi' /\
    row lo' i = Some (map Fin v) /\ row hi' i = Some (map Fin v).
Proof.
  intros (Hwl & Hwh & Hl1 & Hl2 & Hh1 & Hh2 & Hle) Hi Hv.
  assert (El : exists lo', set_row lo i (map Fin v) = Some lo').
  { unfold set_row. rewrite Hl1, Hl2, length_map, Hv, Nat.eqb_refl.
    destruct (Nat.ltb_spec i r); [|lia]. eexists; reflexivity. }
  assert (Eh : exists hi', set_row hi i (map Fin v) = Some hi').
  { unfold set_row. rewrite Hh1, Hh2, length_map, Hv, Nat.eqb_refl.
    destruct (Nat.ltb_spec i r); [|lia]. eexists; reflexivity. }
  destruct El as [lo' El]. destruct Eh as [hi' Eh].
  exists lo', hi'.
  destruct (set_row_row lo lo' i (map Fin v) Hwl El)
    as (Wl & Sl1 & Sl2 & Rl).
  destruct (set_row_row hi hi' i (map Fin v) Hwh Eh)
    as (Wh & Sh1 & Sh2 & Rh).
  repeat (split; [assumption || congruence|]).
  split; [|split; assumption].
  unfold below. repeat (split; [assumption || congruence|]).
  intros i' j Hi' Hj.
  unfold set_row in El, Eh.
  rewrite Hl1, Hl2, length_map, Hv, Nat.eqb_refl in El.
  rewrite Hh1, Hh2, length_map, Hv, Nat.eqb_refl in Eh.
  destruct (Nat.ltb_spec i r); [|lia]. cbn [andb] in El, Eh.
  inversion El; inversion Eh; subst lo' hi'; clear El Eh.
  rewrite !get_tabulate; try assumption.
  - destruct (Nat.eqb_spec i' i).
    + destruct (nth_error (map Fin v) j) as [x|] eqn:E;
        [|apply nth_error_None in E; rewrite length_map in E; lia].
      exists x, x. repeat split.
      rewrite nth_error_map in E.
      destruct (nth_error v j); inversion E. apply ble_refl.
    + apply Hle; assumption.
  - intros a b Ha Hb. destruct (a =? i);
      [apply nth_error_not_None; rewrite length_map; lia
      |apply get_Some; [assumption | lia | lia]].
  - intros a b Ha Hb. destruct (a =? i);
      [apply nth_error_not_None; rewrite length_map; lia
      |apply get_Some; [assumption | lia | lia]].
Qed.

Lemma Forall2_flat_map {B C D : Type} (P : C -> D -> Prop)
      (f : B -> list C) (h : B -> list D) (l : list B) :
  (forall x, In x l -> Forall2 P (f x) (h x)) ->
  Forall2 P (flat_map f l) (flat_map h l).
Proof.
  induction l as [|x l IH]; intros H; simpl; [constructor|].
  apply Forall2_app; [apply H; now left | apply IH; intros; apply H; now right].
Qed.

(** Packed row after row, the entries of the first matrix are below those
    of the second. *)
Lemma below_packed (r c : nat) (lo hi : matrix bound) :
  below r c lo hi ->
  Forall2 ble (nz (transpose lo)) (nz (transpose hi)).
Proof.
  intros (Hwl & Hwh & Hl1 & Hl2 & Hh1 & Hh2 & Hle).
  unfold transpose, tabulate. cbn [nz]. rewrite Hl1, Hl2, Hh1, Hh2.
  apply Forall2_flat_map. intros i Hi. apply in_seq in Hi.
  apply Forall2_flat_map. intros j Hj. apply in_seq in Hj.
  destruct (Hle i j) as (x & y & Ex & Ey & Hxy); [lia | lia |].
  rewrite Ex, Ey. simpl. now constructor.
Qed.

Lemma linspace_length (a b : R) (n : nat) : length (linspace a b n) = n.
Proof.
  unfold linspace. destruct n as [|[|n]]; [reflexivity | reflexivity |].
  now rewrite length_map, length_seq.
Qed.

Lemma Forall2_ble_refl (l : list R) : Forall2 ble (map Fin l) (map Fin l).
Proof. induction l; simpl; constructor; [apply ble_refl | assumption]. Qed.

Lemma q_range_ordered :
  Forall2 ble (map (fun r => Fin (fst r)) (tile one_finger_q_range fnum))
              (map (fun r => Fin (snd r)) (tile one_finger_q_range fnum)).
Proof.
  cbv [tile one_finger_q_range fnum repeat concat app map fst snd].
  repeat constructor; simpl; lra.
Qed.

Lemma dq_range_ordered :
  Forall2 ble (map (fun r => Fin (fst r)) (tile one_finger_dq_range fnum))
              (map (fun r => Fin (snd r)) (tile one_finger_dq_range fnum)).
Proof.
  cbv [tile one_finger_dq_range fnum repeat concat app map fst snd].
  repeat constructor; simpl; lra.
Qed.

End Bounds.

Section PathConstraints.
Local Open Scope R_scope.
Variable nGrid : nat.
Variable dt : R.

Lemma below_pin_first (r c : nat) (lo hi : matrix bound)
      (o : option (list R)) :
  below r c lo hi -> (0 < r)%nat ->
  (forall v, o = Some v -> length v = c) ->
  exists lo' hi',
    match o with
    | Some v => set_row lo 0 (map Fin v)
    | None => Some lo
    end = Some lo' /\
    match o with
    | Some v => set_row hi 0 (map Fin v)
    | None => Some hi
    end = Some hi' /\
    below r c lo' hi'.
Proof.
  intros Hb Hr Ho. destruct o as [v|].
  - destruct (below_set_row r c lo hi 0 v Hb Hr (Ho v eq_refl))
      as (lo' & hi' & E1 & E2 & Hb' & _).
    now exists lo', hi'.
  - now exists lo, hi.
Qed.

Lemma below_pin_last (r c : nat) (lo hi : matrix bound)
      (o : option (list R)) :
  below r c lo hi -> (0 < r)%nat ->
  (forall v, o = Some v -> length v = c) ->
  exists lo' hi',
    match o with
    | Some v => set_last_row lo (map Fin v)
    | None => Some lo
    end = Some lo' /\
    match o with
    | Some v => set_last_row hi (map Fin v)
    | None => Some hi
    end = Some hi' /\
    below r c lo' hi'.
Proof.
  intros Hb Hr Ho. destruct o as [v|].
  - assert (Hk : (r - 1 < r)%nat) by lia.
    destruct (below_set_row r c lo hi (r - 1) v Hb Hk (Ho v eq_refl))
      as (lo' & hi' & E1 & E2 & Hb' & _).
    exists lo', hi'.
    destruct Hb as (_ & _ & Hl1 & _ & Hh1 & _).
    unfold set_last_row. rewrite Hl1, Hh1.
    destruct r as [|k]; [lia|].
    replace (S k - 1)%nat with k in E1, E2 by lia.
    split; [exact E1 | split; [exact E2 | exact Hb']].
  - exists lo, hi. split; [reflexivity | split; [reflexivity | exact Hb]].
Qed.

(** C6. On a valid configuration, for every [q0] and every choice of
    boundary velocities, [path_constraints] returns bounds with
    [z_lb <= z_ub] entry by entry; the time blocks of both are the linear
    spacing over [[0, tf]], and row 0 of the position blocks of both is
    [q0]. *)
Theorem bounds_are_ordered (z q0 : list R) (dq0 dq_end : option (list R)) :
  (2 <= nGrid)%nat ->
  0 < dt ->
  length z = (nGrid + 2 * nGrid * fnum * qnum + 3 * fnum)%nat ->
  length q0 = (fnum * qnum)%nat ->
  (forall v, dq0 = Some v -> length v = (fnum * qnum)%nat) ->
  (forall v, dq_end = Some v -> length v = (fnum * qnum)%nat) ->
  exists z_lb z_ub,
    path_constraints nGrid dt z q0 dq0 dq_end = Some (z_lb, z_ub) /\
    length z_lb = length z /\ length z_ub = length z /\
    Forall2 ble z_lb z_ub /\
    exists s_lb a_lb q_lb dq_lb s_ub a_ub q_ub dq_ub,
      decvar_unpack nGrid z_lb
      = Some (map Fin (linspace 0 (tf nGrid dt) nGrid), s_lb, a_lb) /\
      decvar_unpack nGrid z_ub
      = Some (map Fin (linspace 0 (tf nGrid dt) nGrid), s_ub, a_ub) /\
      s_unpack nGrid s_lb = Some (q_lb, dq_lb) /\
      s_unpack nGrid s_ub = Some (q_ub, dq_ub) /\
      row q_lb 0 = Some (map Fin q0) /\
      row q_ub 0 = Some (map Fin q0).
Proof.
  intros Hn Hdt Hz Hq0 Hdq0 Hdqe.
  destruct (decvar_unpack_long_enough nGrid z) as (t & s & a & Ez & Lt & Ls & Ezz);
    [lia|].
  assert (La : length a = (3 * fnum)%nat).
  { rewrite <- Ezz, !length_app in Hz. lia. }
  destruct (s_unpack_Some nGrid s Ls)
    as (q & dq & Eqdq & Hq & Hq1 & Hq2 & Hdq & Hdq1 & Hdq2).
  (* position bounds *)
  pose proof (below_tile nGrid _ _ q_range_ordered) as Bq.
  change (length (map (fun r => Fin (fst r)) (tile one_finger_q_range fnum)))
    with (fnum * qnum)%nat in Bq.
  destruct (below_set_row nGrid (fnum * qnum) _ _ 0 q0 Bq ltac:(lia) Hq0)
    as (q_lb & q_ub & Eql & Equ & Bq' & Rl & Ru).
  (* velocity bounds *)
  pose proof (below_tile nGrid _ _ dq_range_ordered) as Bdq.
  change (length (map (fun r => Fin (fst r)) (tile one_finger_dq_range fnum)))
    with (fnum * qnum)%nat in Bdq.
  destruct (below_pin_first nGrid (fnum * qnum) _ _ dq0 Bdq ltac:(lia) Hdq0)
    as (dq_lb1 & dq_ub1 & Edl1 & Edu1 & Bdq1).
  destruct (below_pin_last nGrid (fnum * qnum) _ _ dq_end Bdq1 ltac:(lia) Hdqe)
    as (dq_lb & dq_ub & Edl & Edu & Bdq2).
  pose proof Bq' as (Wql & Wqu & Sql1 & Sql2 & Squ1 & Squ2 & _).
  pose proof Bdq2 as (Wdl & Wdu & Sdl1 & Sdl2 & Sdu1 & Sdu2 & _).
  set (t_b := map Fin (linspace 0 (tf nGrid dt) nGrid)).
  set (s_lb := nz (transpose q_lb) ++ nz (transpose dq_lb)).
  set (s_ub := nz (transpose q_ub) ++ nz (transpose dq_ub)).
  assert (Ltb : length t_b = nGrid)
    by (subst t_b; now rewrite length_map, linspace_length).
  assert (Lsl : length s_lb = (2 * nGrid * fnum * qnum)%nat).
  { subst s_lb. rewrite length_app, !transpose_nz_length by assumption.
    rewrite Sql1, Sql2, Sdl1, Sdl2. lia. }
  assert (Lsu : length s_ub = (2 * nGrid * fnum * qnum)%nat).
  { subst s_ub. rewrite length_app, !transpose_nz_length by assumption.
    rewrite Squ1, Squ2, Sdu1, Sdu2. lia. }
  exists (decvar_pack t_b s_lb (repeat (Fin 0) (length a))),
         (decvar_pack t_b s_ub (repeat PInf (length a))).
  split.
  { unfold path_constraints. rewrite Ez. cbn [bind].
    rewrite Eqdq. cbn [bind fst snd].
    unfold ones_times. rewrite Hq1, Hq2, Hdq1, Hdq2.
    change (length (map (fun r => Fin (fst r)) (tile one_finger_q_range fnum))
            =? fnum * qnum)%nat with true.
    change (length (map (fun r => Fin (snd r)) (tile one_finger_q_range fnum))
            =? fnum * qnum)%nat with true.
    change (length (map (fun r => Fin (fst r)) (tile one_finger_dq_range fnum))
            =? fnum * qnum)%nat with true.
    change (length (map (fun r => Fin (snd r)) (tile one_finger_dq_range fnum))
            =? fnum * qnum)%nat with true.
    cbn [bind]. rewrite Eql. cbn [bind]. rewrite Equ. cbn [bind].
    rewrite Edl1. cbn [bind]. rewrite Edu1. cbn [bind].
    rewrite Edl. cbn [bind]. rewrite Edu. cbn [bind].
    rewrite (s_pack_Some nGrid q_lb dq_lb) by assumption. cbn [bind].
    rewrite (s_pack_Some nGrid q_ub dq_ub) by assumption. cbn [bind].
    reflexivity. }
  split.
  { unfold decvar_pack, vertcat. cbn [concat].
    rewrite !length_app, Ltb, Lsl, repeat_length, La, Hz. simpl. lia. }
  split.
  { unfold decvar_pack, vertcat. cbn [concat].
    rewrite !length_app, Ltb, Lsu, repeat_length, La, Hz. simpl. lia. }
  split.
  { unfold decvar_pack, vertcat. cbn [concat].
    apply Forall2_app; [subst t_b; apply Forall2_ble_refl|].
    apply Forall2_app.
    - subst s_lb s_ub. apply Forall2_app.
      + exact (below_packed _ _ _ _ Bq').
      + exact (below_packed _ _ _ _ Bdq2).
    - apply Forall2_app; [|constructor].
      generalize (length a) as k. induction k; simpl; constructor;
        [exact I | assumption]. }
  exists s_lb, (repeat (Fin 0) (length a)), q_lb, dq_lb,
         s_ub, (repeat PInf (length a)), q_ub, dq_ub.
  split; [now apply decvar_unpack_pack|].
  split; [now apply decvar_unpack_pack|].
  split; [now apply s_unpack_pack|].
  split; [now apply s_unpack_pack|].
  split; assumption.
Qed.

End PathConstraints.

Lemma bounds_are_ordered_witness :
  exists z_lb z_ub,
    path_constraints 2 0.1 (repeat 0%R 47) (repeat 0%R 9)
                     (Some (repeat 0%R 9)) (Some (repeat 0%R 9))
    = Some (z_lb, z_ub) /\
    length z_lb = 47 /\ length z_ub = 47 /\ Forall2 ble z_lb z_ub.
Proof.
  destruct (bounds_are_ordered 2 0.1 (repeat 0%R 47) (repeat 0%R 9)
                               (Some (repeat 0%R 9)) (Some (repeat 0%R 9)))
    as (z_lb & z_ub & H1 & H2 & H3 & H4 & _).
  - lia.
  - lra.
  - reflexivity.
  - reflexivity.
  - intros v Hv. inversion Hv. reflexivity.
  - intros v Hv. inversion Hv. reflexivity.
  - exists z_lb, z_ub. repeat split; assumption.
Defined.

(** * Further properties of the two modules *)

(** ** Rows of tabulated matrices *)

Section Rows.
Context {A : Type}.

Lemma mapM_olist {B : Type} (f : B -> option A) (l : list B) (r : list A) :
  mapM f l = Some r -> flat_map (fun x => olist (f x)) l = r.
Proof.
  revert r. induction l as [|x l IH]; simpl; intros r H.
  - now inversion H.
  - destruct (f x) as [y|]; cbn [bind] in H; [|discriminate].
    destruct (mapM f l) as [ys|]; cbn [bind] in H; [|discriminate].
    inversion H; subst r. simpl. f_equal. now apply IH.
Qed.

Lemma flat_map_ext_in {B : Type} (f h : B -> list A) (l : list B) :
  (forall x, In x l -> f x = h x) -> flat_map f l = flat_map h l.
Proof.
  induction l as [|x l IH]; intros H; simpl; [reflexivity|].
  rewrite (H x) by (now left).
  rewrite IH by (intros; apply H; now right). reflexivity.
Qed.

(** Packed by [s_pack], a matrix is its rows laid end to end. *)
Lemma rows_packed (m : matrix A) (rows : nat -> list A) :
  (forall i, i < size1 m -> row m i = Some (rows i)) ->
  nz (transpose m) = flat_map rows (seq 0 (size1 m)).
Proof.
  intros H. unfold transpose, tabulate. cbn [nz].
  apply flat_map_ext_in. intros i Hi. apply in_seq in Hi.
  apply mapM_olist.
  specialize (H i ltac:(lia)). unfold row in H.
  destruct (Nat.ltb_spec i (size1 m)); [exact H | lia].
Qed.

Lemma tile_rows_wf (r : nat) (v : list A) : wf (tile_rows r v).
Proof.
  unfold tile_rows. apply wf_tabulate.
  intros i j _ Hj. now apply nth_error_not_None.
Qed.

Lemma row_tile (r : nat) (v : list A) (i : nat) :
  i < r -> row (tile_rows r v) i = Some v.
Proof.
  intros Hi. unfold row, tile_rows. cbn [size1 size2].
  destruct (Nat.ltb_spec i r); [|lia].
  rewrite (mapM_ext _ (fun j => nth_error v j)); [apply mapM_nth_error_seq|].
  intros j Hj. apply in_seq in Hj.
  apply (get_tabulate r (length v) (fun _ j => nth_error v j));
    [|assumption|lia].
  intros a b _ Hb. now apply nth_error_not_None.
Qed.

(** After [m[i] = v], row [i] is [v] and the other rows are as before. *)
Lemma set_row_rows (m m' : matrix A) (i i' : nat) (v : list A) :
  wf m -> set_row m i v = Some m' -> i' < size1 m ->
  row m' i' = if i' =? i then Some v else row m i'.
Proof.
  intros Hwf E Hi'.
  destruct (Nat.eqb_spec i' i) as [->|Hne].
  - now destruct (set_row_row m m' i v Hwf E) as (_ & _ & _ & H).
  - unfold set_row in E.
    destruct (Nat.ltb_spec i (size1 m)) as [Hi|]; [|discriminate].
    destruct (Nat.eqb_spec (length v) (size2 m)) as [Hv|]; [|discriminate].
    cbn [andb] in E. inversion E; subst m'; clear E.
    unfold row. cbn [size1 size2].
    destruct (Nat.ltb_spec i' (size1 m)); [|lia].
    apply mapM_ext. intros j Hj. apply in_seq in Hj.
    rewrite get_tabulate; [|intros a b Ha Hb|assumption|lia].
    + apply Nat.eqb_neq in Hne. now rewrite Hne.
    + destruct (a =? i); [apply nth_error_not_None; lia | now apply get_Some].
Qed.

Lemma set_row_shape (m m' : matrix A) (i : nat) (v : list A) :
  wf m -> set_row m i v = Some m' ->
  wf m' /\ size1 m' = size1 m /\ size2 m' = size2 m.
Proof.
  intros Hwf E.
  destruct (set_row_row m m' i v Hwf E) as (H1 & H2 & H3 & _).
  now repeat split.
Qed.

Lemma set_row_Some (m : matrix A) (i : nat) (v : list A) :
  i < size1 m -> length v = size2 m ->
  exists m', set_row m i v = Some m'.
Proof.
  intros Hi Hv. unfold set_row.
  destruct (Nat.ltb_spec i (size1 m)); [|lia].
  rewrite Hv, Nat.eqb_refl. eexists; reflexivity.
Qed.

End Rows.

(** ** The initial guess *)

Section InitialGuess.
Local Open Scope R_scope.
Variable nGrid : nat.
Variable dt : R.

Lemma mzeros_wf (r c : nat) : wf (mzeros r c).
Proof. unfold wf, mzeros. cbn [nz size1 size2]. now rewrite repeat_length. Qed.

Lemma row_mzeros (r c i : nat) :
  (i < r)%nat -> row (mzeros r c) i = Some (repeat 0 c).
Proof.
  intros Hi. unfold row, mzeros. cbn [size1 size2].
  destruct (Nat.ltb_spec i r); [|lia].
  rewrite (mapM_Some _ (fun _ => 0)).
  - now rewrite map_const, length_seq.
  - intros j Hj. apply in_seq in Hj.
    rewrite get_nth by (cbn [size1 size2]; lia). cbn [nz size1].
    rewrite (nth_error_nth' _ 0) by (rewrite repeat_length; nia).
    now rewrite nth_repeat.
Qed.

Lemma entry_tile (q0 : list R) (i j : nat) :
  (i < nGrid)%nat -> (j < length q0)%nat ->
  entry (tile_rows nGrid q0) i j = nth j q0 0.
Proof.
  intros Hi Hj.
  assert (H : get (tile_rows nGrid q0) i j = Some (entry (tile_rows nGrid q0) i j))
    by (apply get_entry; [apply tile_rows_wf | assumption | assumption]).
  unfold tile_rows in H at 1.
  rewrite (get_tabulate nGrid (length q0) (fun _ j => nth_error q0 j)) in H;
    [|intros a b _ Hb; now apply nth_error_not_None|assumption|assumption].
  rewrite (nth_error_nth' q0 0 Hj) in H. now inversion H.
Qed.

Lemma entry_mzeros (r c i j : nat) : entry (mzeros r c) i j = 0.
Proof. unfold entry, mzeros. cbn [nz size1]. apply nth_repeat. Qed.

(** The initial guess, block by block. *)
Lemma get_initial_guess_Some (z_var q0 : list R) :
  length z_var = (nGrid + 2 * nGrid * fnum * qnum + 3 * fnum)%nat ->
  length q0 = (fnum * qnum)%nat ->
  get_initial_guess nGrid dt z_var q0
  = Some (decvar_pack (linspace 0 (tf nGrid dt) nGrid)
            (nz (transpose (tile_rows nGrid q0))
             ++ nz (transpose (mzeros nGrid (fnum * qnum))))
            (repeat 0 (3 * fnum))).
Proof.
  intros Hz Hq0.
  destruct (decvar_unpack_long_enough nGrid z_var)
    as (t & s & a & Ez & Lt & Ls & Ezz); [lia|].
  assert (La : length a = (3 * fnum)%nat).
  { rewrite <- Ezz, !length_app in Hz. lia. }
  destruct (s_unpack_Some nGrid s Ls)
    as (q & dq & Eqdq & Hq & Hq1 & Hq2 & Hdq & Hdq1 & Hdq2).
  unfold get_initial_guess. rewrite Ez. cbn [bind].
  rewrite Eqdq. cbn [bind fst snd]. rewrite Hdq1, Hdq2, La.
  rewrite (s_pack_Some nGrid (tile_rows nGrid q0) (mzeros nGrid (fnum * qnum)));
    [reflexivity | apply tile_rows_wf | reflexivity
     | unfold tile_rows; cbn [size2]; rewrite Hq0; apply Nat.mul_comm
     | apply mzeros_wf | reflexivity | apply Nat.mul_comm].
Qed.

Lemma initial_state_length (q0 : list R) :
  length q0 = (fnum * qnum)%nat ->
  length (nz (transpose (tile_rows nGrid q0))
          ++ nz (transpose (mzeros nGrid (fnum * qnum))))
  = (2 * nGrid * fnum * qnum)%nat.
Proof.
  intros Hq0.
  rewrite length_app, !transpose_nz_length
    by (apply tile_rows_wf || apply mzeros_wf).
  unfold tile_rows, mzeros. cbn [size1 size2]. rewrite Hq0. lia.
Qed.

Lemma initial_state_unpack (q0 : list R) :
  length q0 = (fnum * qnum)%nat ->
  s_unpack nGrid (nz (transpose (tile_rows nGrid q0))
                  ++ nz (transpose (mzeros nGrid (fnum * qnum))))
  = Some (tile_rows nGrid q0, mzeros nGrid (fnum * qnum)).
Proof.
  intros Hq0.
  apply s_unpack_pack;
    [apply tile_rows_wf | reflexivity
     | unfold tile_rows; cbn [size2]; rewrite Hq0; apply Nat.mul_comm
     | apply mzeros_wf | reflexivity | apply Nat.mul_comm].
Qed.

(** X1. Read back by the codec, the initial guess has the time points
    equally spaced over [[0, tf]], every row of the positions equal to
    [q0], every velocity 0 and every slack variable 0; it has as many
    entries as the decision vector. *)
Theorem initial_guess_blocks (z_var q0 : list R) :
  length z_var = (nGrid + 2 * nGrid * fnum * qnum + 3 * fnum)%nat ->
  length q0 = (fnum * qnum)%nat ->
  exists z0 s0 q dq,
    get_initial_guess nGrid dt z_var q0 = Some z0 /\
    length z0 = length z_var /\
    decvar_unpack nGrid z0
    = Some (linspace 0 (tf nGrid dt) nGrid, s0, repeat 0 (3 * fnum)) /\
    s_unpack nGrid s0 = Some (q, dq) /\
    Forall (fun i => row q i = Some q0 /\
                     row dq i = Some (repeat 0 (fnum * qnum)))
           (seq 0 nGrid).
Proof.
  intros Hz Hq0.
  exists (decvar_pack (linspace 0 (tf nGrid dt) nGrid)
            (nz (transpose (tile_rows nGrid q0))
             ++ nz (transpose (mzeros nGrid (fnum * qnum))))
            (repeat 0 (3 * fnum))),
         (nz (transpose (tile_rows nGrid q0))
          ++ nz (transpose (mzeros nGrid (fnum * qnum)))),
         (tile_rows nGrid q0), (mzeros nGrid (fnum * qnum)).
  split; [now apply get_initial_guess_Some|].
  split.
  { pose proof (initial_state_length q0 Hq0) as L.
    unfold decvar_pack, vertcat. cbn [concat].
    rewrite !length_app in *. rewrite linspace_length, repeat_length.
    cbn [length]. lia. }
  split.
  { apply decvar_unpack_pack;
      [apply linspace_length | now apply initial_state_length]. }
  split; [now apply initial_state_unpack|].
  apply Forall_forall. intros i Hi. apply in_seq in Hi.
  split; [apply row_tile; lia | apply row_mzeros; lia].
Qed.

(** X2. The initial guess meets every collocation constraint: unpacked and
    given to [get_constraints], it makes each of the first
    [(nGrid - 1) * fnum * qnum] constraints, which have both bounds 0,
    evaluate to 0, whatever the time step and [q0]. *)
Theorem initial_guess_meets_collocation (ft_goal_param z_var q0 : list R) :
  (1 <= nGrid)%nat ->
  length z_var = (nGrid + 2 * nGrid * fnum * qnum + 3 * fnum)%nat ->
  length q0 = (fnum * qnum)%nat ->
  length ft_goal_param = (3 * fnum)%nat ->
  exists z0 t0 s0 a0 cs,
    get_initial_guess nGrid dt z_var q0 = Some z0 /\
    decvar_unpack nGrid z0 = Some (t0, s0, a0) /\
    get_constraints nGrid ft_goal_param t0 s0 a0 = Some cs /\
    Forall (fun c => g c = 0 /\ lbg c = Fin 0 /\ ubg c = Fin 0)
           (firstn ((nGrid - 1) * (fnum * qnum)) cs).
Proof.
  intros Hn Hz Hq0 Hg.
  set (t0 := linspace 0 (tf nGrid dt) nGrid).
  set (s0 := nz (transpose (tile_rows nGrid q0))
             ++ nz (transpose (mzeros nGrid (fnum * qnum)))).
  set (q := tile_rows nGrid q0). set (dq := mzeros nGrid (fnum * qnum)).
  exists (decvar_pack t0 s0 (repeat 0 (3 * fnum))), t0, s0,
         (repeat 0 (3 * fnum)),
         (collocation_family nGrid t0 q dq
          ++ goal_family nGrid ft_goal_param (repeat 0 (3 * fnum)) q
          ++ arena_family 10 nGrid q).
  split; [now apply get_initial_guess_Some|].
  split.
  { apply decvar_unpack_pack;
      [apply linspace_length | now apply initial_state_length]. }
  split.
  { apply get_constraints_families;
      [assumption | apply linspace_length | now apply initial_state_length
       | apply repeat_length | assumption | now apply initial_state_unpack]. }
  rewrite <- (collocation_family_length nGrid t0 q dq).
  rewrite firstn_app, Nat.sub_diag, firstn_all. cbn [firstn].
  rewrite app_nil_r.
  apply Forall_forall. intros c Hc.
  unfold collocation_family in Hc. apply in_flat_map in Hc.
  destruct Hc as [i [Hi Hc]]. apply in_map_iff in Hc.
  destruct Hc as [j [Ec Hj]]. subst c. apply in_seq in Hi, Hj.
  cbn [g lbg ubg]. split; [|split; reflexivity].
  unfold collocation_defect. subst q dq.
  rewrite !entry_mzeros, !entry_tile by lia. lra.
Qed.

End InitialGuess.

Section InitialGuessWitnesses.
Local Open Scope R_scope.

Lemma initial_guess_blocks_witness :
  exists z0 s0 q dq,
    get_initial_guess 2 1 (repeat 0 47) (repeat 1 9) = Some z0 /\
    length z0 = length (repeat 0 47) /\
    decvar_unpack 2 z0 = Some (linspace 0 (tf 2 1) 2, s0, repeat 0 (3 * fnum)) /\
    s_unpack 2 s0 = Some (q, dq) /\
    Forall (fun i => row q i = Some (repeat 1 9) /\
                     row dq i = Some (repeat 0 (fnum * qnum)))
           (seq 0 2).
Proof.
  apply (initial_guess_blocks 2 1 (repeat 0 47) (repeat 1 9)); reflexivity.
Defined.

Lemma initial_guess_meets_collocation_witness :
  exists z0 t0 s0 a0 cs,
    get_initial_guess 2 1 (repeat 0 47) (repeat 1 9) = Some z0 /\
    decvar_unpack 2 z0 = Some (t0, s0, a0) /\
    get_constraints 2 rest_goal t0 s0 a0 = Some cs /\
    Forall (fun c => g c = 0 /\ lbg c = Fin 0 /\ ubg c = Fin 0)
           (firstn ((2 - 1) * (fnum * qnum)) cs).
Proof.
  apply (initial_guess_meets_collocation 2 1 rest_goal (repeat 0 47)
           (repeat 1 9)); (lia || reflexivity).
Defined.

End InitialGuessWitnesses.

(** ** The table of bounds *)

Section BoundsTable.
Local Open Scope R_scope.
Variable nGrid : nat.
Variable dt : R.

Lemma tiled_bound_rows (lim : list R) :
  length lim = (fnum * qnum)%nat ->
  bound_rows (tile_rows nGrid (map Fin lim)) nGrid (fun _ => lim).
Proof.
  intros Hl. unfold bound_rows.
  split; [apply tile_rows_wf|]. split; [reflexivity|].
  split; [unfold tile_rows; cbn [size2]; now rewrite length_map|].
  intros i Hi. now apply row_tile.
Qed.

(** Pinning row [k] of a table of bounds. *)
Lemma pinned_bound_rows (m : matrix bound) (rows : nat -> list R)
      (k : nat) (v : list R) :
  bound_rows m nGrid rows -> (k < nGrid)%nat ->
  length v = (fnum * qnum)%nat ->
  exists m',
    set_row m k (map Fin v) = Some m' /\
    bound_rows m' nGrid (fun i => if (i =? k)%nat then v else rows i).
Proof.
  intros (Hwf & H1 & H2 & Hrows) Hk Hv.
  destruct (set_row_Some m k (map Fin v)) as [m' E];
    [lia | rewrite length_map; lia|].
  exists m'. split; [exact E|].
  destruct (set_row_shape m m' k (map Fin v) Hwf E) as (Hwf' & S1 & S2).
  unfold bound_rows. repeat (split; [assumption || congruence|]).
  intros i Hi.
  rewrite (set_row_rows m m' k i (map Fin v) Hwf E) by lia.
  destruct (i =? k)%nat; [reflexivity | now apply Hrows].
Qed.

Lemma q_bound_chain (lim q0 : list R) :
  (1 <= nGrid)%nat ->
  length lim = (fnum * qnum)%nat -> length q0 = (fnum * qnum)%nat ->
  exists m,
    set_row (tile_rows nGrid (map Fin lim)) 0 (map Fin q0) = Some m /\
    bound_rows m nGrid (q_bound_row q0 lim).
Proof.
  intros Hn Hl Hq0.
  destruct (pinned_bound_rows _ _ 0%nat q0 (tiled_bound_rows lim Hl))
    as (m & E & Hm); [lia | assumption|].
  exists m. split; [exact E | exact Hm].
Qed.

Lemma dq_bound_chain (lim : list R) (dq0 dq_end : option (list R)) :
  (1 <= nGrid)%nat ->
  length lim = (fnum * qnum)%nat ->
  (forall v, dq0 = Some v -> length v = (fnum * qnum)%nat) ->
  (forall v, dq_end = Some v -> length v = (fnum * qnum)%nat) ->
  exists m1 m2,
    match dq0 with
    | Some v => set_row (tile_rows nGrid (map Fin lim)) 0 (map Fin v)
    | None => Some (tile_rows nGrid (map Fin lim))
    end = Some m1 /\
    match dq_end with
    | Some v => set_last_row m1 (map Fin v)
    | None => Some m1
    end = Some m2 /\
    bound_rows m2 nGrid (dq_bound_row nGrid dq0 dq_end lim).
Proof.
  intros Hn Hl H0 He.
  pose proof (tiled_bound_rows lim Hl) as B0.
  assert (S1 : exists m1,
             match dq0 with
             | Some v => set_row (tile_rows nGrid (map Fin lim)) 0 (map Fin v)
             | None => Some (tile_rows nGrid (map Fin lim))
             end = Some m1 /\
             bound_rows m1 nGrid
               (fun i => match dq0 with
                         | Some v0 => if (i =? 0)%nat then v0 else lim
                         | None => lim
                         end)).
  { destruct dq0 as [v0|].
    - apply pinned_bound_rows; [assumption | lia | now apply H0].
    - eexists; split; [reflexivity | exact B0]. }
  destruct S1 as (m1 & E1 & B1). exists m1.
  destruct dq_end as [ve|].
  - destruct (pinned_bound_rows m1 _ (nGrid - 1)%nat ve B1)
      as (m2 & E2 & B2); [lia | now apply He|].
    exists m2. split; [exact E1|]. split.
    + unfold set_last_row. destruct B1 as (_ & S1 & _). rewrite S1.
      destruct nGrid as [|k]; [lia|].
      now replace (S k - 1)%nat with k in E2 by lia.
    + exact B2.
  - exists m1. split; [exact E1|]. split; [reflexivity | exact B1].
Qed.

(** The bounds that [path_constraints] returns, as tables of rows. *)
Lemma path_constraints_table (z q0 : list R) (dq0 dq_end : option (list R)) :
  (1 <= nGrid)%nat ->
  length z = (nGrid + 2 * nGrid * fnum * qnum + 3 * fnum)%nat ->
  length q0 = (fnum * qnum)%nat ->
  (forall v, dq0 = Some v -> length v = (fnum * qnum)%nat) ->
  (forall v, dq_end = Some v -> length v = (fnum * qnum)%nat) ->
  exists q_lb dq_lb q_ub dq_ub,
    path_constraints nGrid dt z q0 dq0 dq_end
    = Some (decvar_pack (map Fin (linspace 0 (tf nGrid dt) nGrid))
                        (nz (transpose q_lb) ++ nz (transpose dq_lb))
                        (repeat (Fin 0) (3 * fnum)),
            decvar_pack (map Fin (linspace 0 (tf nGrid dt) nGrid))
                        (nz (transpose q_ub) ++ nz (transpose dq_ub))
                        (repeat PInf (3 * fnum))) /\
    bound_rows q_lb nGrid (q_bound_row q0 q_lower) /\
    bound_rows q_ub nGrid (q_bound_row q0 q_upper) /\
    bound_rows dq_lb nGrid (dq_bound_row nGrid dq0 dq_end dq_lower) /\
    bound_rows dq_ub nGrid (dq_bound_row nGrid dq0 dq_end dq_upper).
Proof.
  intros Hn Hz Hq0 H0 He.
  destruct (decvar_unpack_long_enough nGrid z)
    as (t & s & a & Ez & Lt & Ls & Ezz); [lia|].
  assert (La : length a = (3 * fnum)%nat).
  { rewrite <- Ezz, !length_app in Hz. lia. }
  destruct (s_unpack_Some nGrid s Ls)
    as (q & dq & Eqdq & Hq & Hq1 & Hq2 & Hdq & Hdq1 & Hdq2).
  destruct (q_bound_chain q_lower q0 Hn eq_refl Hq0) as (q_lb & Eql & Bql).
  destruct (q_bound_chain q_upper q0 Hn eq_refl Hq0) as (q_ub & Equ & Bqu).
  destruct (dq_bound_chain dq_lower dq0 dq_end Hn eq_refl H0 He)
    as (dl1 & dq_lb & Edl1 & Edl2 & Bdl).
  destruct (dq_bound_chain dq_upper dq0 dq_end Hn eq_refl H0 He)
    as (du1 & dq_ub & Edu1 & Edu2 & Bdu).
  exists q_lb, dq_lb, q_ub, dq_ub.
  split; [|split; [exact Bql|split; [exact Bqu|split; [exact Bdl|exact Bdu]]]].
  unfold path_constraints. rewrite Ez. cbn [bind].
  rewrite Eqdq. cbn [bind fst snd].
  unfold ones_times. rewrite Hq1, Hq2, Hdq1, Hdq2.
  change (map (fun r => Fin (fst r)) (tile one_finger_q_range fnum))
    with (map Fin q_lower).
  change (map (fun r => Fin (snd r)) (tile one_finger_q_range fnum))
    with (map Fin q_upper).
  change (map (fun r => Fin (fst r)) (tile one_finger_dq_range fnum))
    with (map Fin dq_lower).
  change (map (fun r => Fin (snd r)) (tile one_finger_dq_range fnum))
    with (map Fin dq_upper).
  change (length (map Fin q_lower) =? fnum * qnum)%nat with true.
  change (length (map Fin q_upper) =? fnum * qnum)%nat with true.
  change (length (map Fin dq_lower) =? fnum * qnum)%nat with true.
  change (length (map Fin dq_upper) =? fnum * qnum)%nat with true.
  cbn [bind]. rewrite Eql. cbn [bind]. rewrite Equ. cbn [bind].
  rewrite Edl1. cbn [bind]. rewrite Edu1. cbn [bind].
  rewrite Edl2. cbn [bind]. rewrite Edu2. cbn [bind].
  destruct Bql as (W1 & A1 & B1 & _). destruct Bqu as (W2 & A2 & B2 & _).
  destruct Bdl as (W3 & A3 & B3 & _). destruct Bdu as (W4 & A4 & B4 & _).
  rewrite (s_pack_Some nGrid q_lb dq_lb)
    by (assumption || (rewrite Nat.mul_comm; assumption)).
  cbn [bind].
  rewrite (s_pack_Some nGrid q_ub dq_ub)
    by (assumption || (rewrite Nat.mul_comm; assumption)).
  cbn [bind]. rewrite La. reflexivity.
Qed.

(** X3. The table of bounds of [path_constraints]: read back by the codec,
    the slack bounds are [0] and [+inf]; row 0 of both position bounds is
    [q0] and every other row holds the joint limits; a row of the velocity
    bounds is the final velocity at the last grid index when [dq_end] is
    given (also when that index is 0), else the initial velocity at grid
    index 0 when [dq0] is given, else the velocity limits [-2] and [2]. *)
Theorem path_bounds_table (z q0 : list R) (dq0 dq_end : option (list R)) :
  (1 <= nGrid)%nat ->
  length z = (nGrid + 2 * nGrid * fnum * qnum + 3 * fnum)%nat ->
  length q0 = (fnum * qnum)%nat ->
  (forall v, dq0 = Some v -> length v = (fnum * qnum)%nat) ->
  (forall v, dq_end = Some v -> length v = (fnum * qnum)%nat) ->
  exists z_lb z_ub t_lb t_ub s_lb s_ub q_lb dq_lb q_ub dq_ub,
    path_constraints nGrid dt z q0 dq0 dq_end = Some (z_lb, z_ub) /\
    decvar_unpack nGrid z_lb = Some (t_lb, s_lb, repeat (Fin 0) (3 * fnum)) /\
    decvar_unpack nGrid z_ub = Some (t_ub, s_ub, repeat PInf (3 * fnum)) /\
    s_unpack nGrid s_lb = Some (q_lb, dq_lb) /\
    s_unpack nGrid s_ub = Some (q_ub, dq_ub) /\
    Forall (fun i =>
              row q_lb i = Some (map Fin (if (i =? 0)%nat then q0 else q_lower)) /\
              row q_ub i = Some (map Fin (if (i =? 0)%nat then q0 else q_upper)) /\
              row dq_lb i
              = Some (map Fin (dq_bound_row nGrid dq0 dq_end dq_lower i)) /\
              row dq_ub i
              = Some (map Fin (dq_bound_row nGrid dq0 dq_end dq_upper i)))
           (seq 0 nGrid) /\
    q_lower = [-0.33; 0.0; -2.7; -0.33; 0.0; -2.7; -0.33; 0.0; -2.7] /\
    q_upper = [1.0; 1.57; 0.0; 1.0; 1.57; 0.0; 1.0; 1.57; 0.0] /\
    dq_lower = repeat (-2) 9 /\ dq_upper = repeat 2 9.
Proof.
  intros Hn Hz Hq0 H0 He.
  destruct (path_constraints_table z q0 dq0 dq_end Hn Hz Hq0 H0 He)
    as (q_lb & dq_lb & q_ub & dq_ub & E & Bql & Bqu & Bdl & Bdu).
  destruct Bql as (W1 & A1 & B1 & R1). destruct Bqu as (W2 & A2 & B2 & R2).
  destruct Bdl as (W3 & A3 & B3 & R3). destruct Bdu as (W4 & A4 & B4 & R4).
  assert (Lt : length (map Fin (linspace 0 (tf nGrid dt) nGrid)) = nGrid)
    by (now rewrite length_map, linspace_length).
  assert (Ll : length (nz (transpose q_lb) ++ nz (transpose dq_lb))
               = (2 * nGrid * fnum * qnum)%nat).
  { rewrite length_app, !transpose_nz_length by assumption.
    rewrite A1, B1, A3, B3. lia. }
  assert (Lu : length (nz (transpose q_ub) ++ nz (transpose dq_ub))
               = (2 * nGrid * fnum * qnum)%nat).
  { rewrite length_app, !transpose_nz_length by assumption.
    rewrite A2, B2, A4, B4. lia. }
  eexists _, _, _, _, _, _, q_lb, dq_lb, q_ub, dq_ub.
  split; [exact E|].
  split; [now apply decvar_unpack_pack|].
  split; [now apply decvar_unpack_pack|].
  split; [apply s_unpack_pack;
          (assumption || (rewrite Nat.mul_comm; assumption))|].
  split; [apply s_unpack_pack;
          (assumption || (rewrite Nat.mul_comm; assumption))|].
  split; [|repeat split; reflexivity].
  apply Forall_forall. intros i Hi. apply in_seq in Hi.
  split; [apply R1; lia|]. split; [apply R2; lia|].
  split; [apply R3; lia | apply R4; lia].
Qed.

Lemma Forall2_app_split {B C : Type} (P : B -> C -> Prop)
      (l1 l2 : list B) (l1' l2' : list C) :
  length l1 = length l1' ->
  Forall2 P (l1 ++ l2) (l1' ++ l2') ->
  Forall2 P l1 l1' /\ Forall2 P l2 l2'.
Proof.
  revert l1'. induction l1 as [|x l1 IH]; intros [|y l1'] Hl H;
    simpl in *; try discriminate.
  - split; [constructor | exact H].
  - inversion H; subst.
    destruct (IH l1' ltac:(lia) ltac:(assumption)) as [Ha Hb].
    split; [now constructor | exact Hb].
Qed.

Lemma map_flat_map {B C E : Type} (f : C -> E) (h : B -> list C) (l : list B) :
  map f (flat_map h l) = flat_map (fun x => map f (h x)) l.
Proof.
  induction l as [|x l IH]; simpl; [reflexivity|].
  now rewrite map_app, IH.
Qed.

Lemma Forall2_ble_Fin (u v : list R) :
  Forall2 ble (map Fin u) (map Fin v) <-> Forall2 Rle u v.
Proof.
  split.
  - revert v. induction u as [|x u IH]; intros [|y v] H; simpl in H;
      inversion H; subst; constructor; [assumption | now apply IH].
  - intros H. induction H; simpl; constructor; assumption.
Qed.

Lemma Forall2_Rle_refl (l : list R) : Forall2 Rle l l.
Proof. induction l; constructor; [lra | assumption]. Qed.

Lemma dq_limits_around_zero :
  Forall2 Rle dq_lower (repeat 0 (fnum * qnum)) /\
  Forall2 Rle (repeat 0 (fnum * qnum)) dq_upper.
Proof.
  split; cbv [dq_lower dq_upper tile one_finger_dq_range fnum qnum repeat
              concat app map fst snd Nat.mul Nat.add];
    repeat constructor; lra.
Qed.

(** X4. The initial guess with respect to the bounds, for boundary
    velocities that are zero where they are given (as [solve_nlp] gives
    them): on a grid of at least two points the initial guess lies within
    the bounds of [path_constraints] exactly when [q0] is within the joint
    limits; [get_initial_guess] never clamps [q0]. *)
Theorem initial_guess_within_bounds (z q0 : list R)
        (dq0 dq_end : option (list R)) :
  (2 <= nGrid)%nat ->
  length z = (nGrid + 2 * nGrid * fnum * qnum + 3 * fnum)%nat ->
  length q0 = (fnum * qnum)%nat ->
  (forall v, dq0 = Some v -> v = repeat 0 (fnum * qnum)) ->
  (forall v, dq_end = Some v -> v = repeat 0 (fnum * qnum)) ->
  exists z0 z_lb z_ub,
    get_initial_guess nGrid dt z q0 = Some z0 /\
    path_constraints nGrid dt z q0 dq0 dq_end = Some (z_lb, z_ub) /\
    (within_joint_limits q0 <->
     Forall2 ble z_lb (map Fin z0) /\ Forall2 ble (map Fin z0) z_ub).
Proof.
  intros Hn Hz Hq0 H0 He.
  assert (L0 : forall v, dq0 = Some v -> length v = (fnum * qnum)%nat)
    by (intros v Hv; rewrite (H0 v Hv); apply repeat_length).
  assert (Le : forall v, dq_end = Some v -> length v = (fnum * qnum)%nat)
    by (intros v Hv; rewrite (He v Hv); apply repeat_length).
  destruct (path_constraints_table z q0 dq0 dq_end ltac:(lia) Hz Hq0 L0 Le)
    as (q_lb & dq_lb & q_ub & dq_ub & E & Bql & Bqu & Bdl & Bdu).
  destruct Bql as (W1 & A1 & B1 & R1). destruct Bqu as (W2 & A2 & B2 & R2).
  destruct Bdl as (W3 & A3 & B3 & R3). destruct Bdu as (W4 & A4 & B4 & R4).
  eexists _, _, _.
  split; [now apply get_initial_guess_Some|].
  split; [exact E|].
  (* every block as rows laid end to end *)
  rewrite (rows_packed q_lb (fun i => map Fin (q_bound_row q0 q_lower i)))
    by (rewrite A1; exact R1).
  rewrite (rows_packed q_ub (fun i => map Fin (q_bound_row q0 q_upper i)))
    by (rewrite A2; exact R2).
  rewrite (rows_packed dq_lb
             (fun i => map Fin (dq_bound_row nGrid dq0 dq_end dq_lower i)))
    by (rewrite A3; exact R3).
  rewrite (rows_packed dq_ub
             (fun i => map Fin (dq_bound_row nGrid dq0 dq_end dq_upper i)))
    by (rewrite A4; exact R4).
  rewrite (rows_packed (tile_rows nGrid q0) (fun _ => q0))
    by (intros i Hi; now apply row_tile).
  rewrite (rows_packed (mzeros nGrid (fnum * qnum))
             (fun _ => repeat 0 (fnum * qnum)))
    by (intros i Hi; now apply row_mzeros).
  rewrite A1, A2, A3, A4.
  change (size1 (tile_rows nGrid q0)) with nGrid.
  change (size1 (mzeros nGrid (fnum * qnum))) with nGrid.
  unfold decvar_pack, vertcat. cbn [concat].
  rewrite !app_nil_r, !map_app, !map_flat_map, map_repeat.
  assert (Hdl : forall i, Forall2 ble
                  (map Fin (dq_bound_row nGrid dq0 dq_end dq_lower i))
                  (map Fin (repeat 0 (fnum * qnum)))).
  { intros i. apply Forall2_ble_Fin. unfold dq_bound_row.
    destruct dq_end as [ve|]; [rewrite (He ve eq_refl)|];
      (destruct dq0 as [v0|]; [rewrite (H0 v0 eq_refl)|]);
      repeat match goal with |- context [if ?b then _ else _] => destruct b end;
      (apply Forall2_Rle_refl || apply dq_limits_around_zero). }
  assert (Hdu : forall i, Forall2 ble
                  (map Fin (repeat 0 (fnum * qnum)))
                  (map Fin (dq_bound_row nGrid dq0 dq_end dq_upper i))).
  { intros i. apply Forall2_ble_Fin. unfold dq_bound_row.
    destruct dq_end as [ve|]; [rewrite (He ve eq_refl)|];
      (destruct dq0 as [v0|]; [rewrite (H0 v0 eq_refl)|]);
      repeat match goal with |- context [if ?b then _ else _] => destruct b end;
      (apply Forall2_Rle_refl || apply dq_limits_around_zero). }
  split.
  - intros [Hlo Hhi]. split.
    + apply Forall2_app; [apply Forall2_ble_refl|].
      apply Forall2_app; [apply Forall2_app|].
      * apply Forall2_flat_map. intros i _. apply Forall2_ble_Fin.
        unfold q_bound_row. destruct (i =? 0)%nat;
          [apply Forall2_Rle_refl | exact Hlo].
      * apply Forall2_flat_map. intros i _. apply Hdl.
      * generalize (3 * fnum)%nat as k.
        induction k; simpl; [constructor | constructor; [simpl; lra | assumption]].
    + apply Forall2_app; [apply Forall2_ble_refl|].
      apply Forall2_app; [apply Forall2_app|].
      * apply Forall2_flat_map. intros i _. apply Forall2_ble_Fin.
        unfold q_bound_row. destruct (i =? 0)%nat;
          [apply Forall2_Rle_refl | exact Hhi].
      * apply Forall2_flat_map. intros i _. apply Hdu.
      * generalize (3 * fnum)%nat as k.
        induction k; simpl; [constructor | constructor; [exact I | assumption]].
  - intros [Hlo Hhi].
    destruct nGrid as [|[|n]]; [lia | lia |].
    cbn [seq flat_map] in Hlo, Hhi.
    split.
    + apply Forall2_app_split in Hlo; [|now rewrite !length_map].
      destruct Hlo as [_ Hlo].
      rewrite <- !app_assoc in Hlo.
      apply Forall2_app_split in Hlo;
        [|unfold q_bound_row; cbn [Nat.eqb]; now rewrite !length_map].
      destruct Hlo as [_ Hlo].
      apply Forall2_app_split in Hlo;
        [|unfold q_bound_row; cbn [Nat.eqb]; rewrite !length_map;
          now rewrite Hq0].
      destruct Hlo as [Hlo _]. now apply Forall2_ble_Fin in Hlo.
    + apply Forall2_app_split in Hhi; [|now rewrite !length_map].
      destruct Hhi as [_ Hhi].
      rewrite <- !app_assoc in Hhi.
      apply Forall2_app_split in Hhi;
        [|unfold q_bound_row; cbn [Nat.eqb]; now rewrite !length_map].
      destruct Hhi as [_ Hhi].
      apply Forall2_app_split in Hhi;
        [|unfold q_bound_row; cbn [Nat.eqb]; rewrite !length_map;
          now rewrite Hq0].
      destruct Hhi as [Hhi _]. now apply Forall2_ble_Fin in Hhi.
Qed.

End BoundsTable.

Section BoundsTableWitnesses.
Local Open Scope R_scope.

Lemma path_bounds_table_witness :
  exists z_lb z_ub,
    path_constraints 2 0.1 (repeat 0 47) (repeat 0 9)
                     (Some (repeat 0 9)) None
    = Some (z_lb, z_ub).
Proof.
  destruct (path_bounds_table 2 0.1 (repeat 0 47) (repeat 0 9)
                              (Some (repeat 0 9)) None)
    as (z_lb & z_ub & _ & _ & _ & _ & _ & _ & _ & _ & H & _).
  - lia.
  - reflexivity.
  - reflexivity.
  - intros v Hv. inversion Hv. reflexivity.
  - intros v Hv. discriminate Hv.
  - exists z_lb, z_ub. exact H.
Defined.

Lemma main_q0_within_joint_limits :
  within_joint_limits [0; 0.9; -1; 0; 0.9; -1.7; 0; 0.9; -1.7].
Proof.
  split; cbv [q_lower q_upper tile one_finger_q_range fnum repeat concat app
              map fst snd]; repeat constructor; lra.
Qed.

Lemma initial_guess_within_bounds_witness :
  exists z0 z_lb z_ub,
    get_initial_guess 2 0.1 (repeat 0 47)
                      [0; 0.9; -1; 0; 0.9; -1.7; 0; 0.9; -1.7] = Some z0 /\
    path_constraints 2 0.1 (repeat 0 47)
                     [0; 0.9; -1; 0; 0.9; -1.7; 0; 0.9; -1.7]
                     (Some (repeat 0 9)) (Some (repeat 0 9))
    = Some (z_lb, z_ub) /\
    Forall2 ble z_lb (map Fin z0) /\ Forall2 ble (map Fin z0) z_ub.
Proof.
  destruct (initial_guess_within_bounds 2 0.1 (repeat 0 47)
              [0; 0.9; -1; 0; 0.9; -1.7; 0; 0.9; -1.7]
              (Some (repeat 0 9)) (Some (repeat 0 9)))
    as (z0 & z_lb & z_ub & H1 & H2 & H3).
  - lia.
  - reflexivity.
  - reflexivity.
  - intros v Hv. inversion Hv. reflexivity.
  - intros v Hv. inversion Hv. reflexivity.
  - exists z0, z_lb, z_ub. split; [exact H1|]. split; [exact H2|].
    apply H3. exact main_q0_within_joint_limits.
Defined.

End BoundsTableWitnesses.

(** ** Further properties of the kinematics *)

Section KinematicsEdges.
Local Open Scope R_scope.

(** X5. [FK] and [get_jacobian] read the entries 0 to 8 of the
    configuration and nothing else: on a configuration with fewer than
    [fnum * qnum] entries both fail (an index is out of range), and on a
    longer one both succeed and ignore the entries from 9 on. *)
Theorem kinematics_read_nine_entries (q_cur : list R) :
  ((length q_cur < fnum * qnum)%nat ->
   FK q_cur = None /\ get_jacobian q_cur = None) /\
  ((fnum * qnum <= length q_cur)%nat ->
   FK q_cur = FK (firstn (fnum * qnum) q_cur) /\
   get_jacobian q_cur = get_jacobian (firstn (fnum * qnum) q_cur) /\
   FK q_cur <> None /\ get_jacobian q_cur <> None).
Proof.
  unfold fnum, qnum.
  destruct q_cur as [|a0 [|a1 [|a2 [|a3 [|a4 [|a5 [|a6 [|a7 [|a8 rest]]]]]]]]];
    (split; [intros H; simpl in H; try lia; split; reflexivity
            |intros H; simpl in H; try lia]).
  split; [reflexivity|]. split; [reflexivity|]. split; discriminate.
Qed.

Lemma kinematics_read_nine_entries_witness :
  (FK [1; 2; 3] = None /\ get_jacobian [1; 2; 3] = None) /\
  FK (repeat 0 12) = FK (firstn (fnum * qnum) (repeat 0 12)).
Proof.
  split.
  - apply (kinematics_read_nine_entries [1; 2; 3]). unfold fnum, qnum.
    simpl. lia.
  - apply (kinematics_read_nine_entries (repeat 0 12)). unfold fnum, qnum.
    simpl. lia.
Defined.

Ltac unfold_decimals := cbv [Q2R QArith_base.Qnum QArith_base.Qden].

(** The fingertip of a finger is the fingertip of the finger at base angle
    0, turned by the base angle about the vertical axis. *)
Lemma fingertip_turned (theta_base q1 q2 q3 : R) :
  let p0 := one_finger_ft_wf 0 q1 q2 q3 in
  let p := one_finger_ft_wf theta_base q1 q2 q3 in
  nth 0 p 0 = cos theta_base * nth 0 p0 0 - sin theta_base * nth 1 p0 0 /\
  nth 1 p 0 = sin theta_base * nth 0 p0 0 + cos theta_base * nth 1 p0 0 /\
  nth 2 p 0 = nth 2 p0 0.
Proof.
  cbv zeta. unfold one_finger_ft_wf. cbn [nth].
  rewrite sin_0, cos_0.
  repeat split; unfold_decimals; field.
Qed.

Lemma xy_radius_turned (theta_base q1 q2 q3 : R) :
  xy_radius (one_finger_ft_wf theta_base q1 q2 q3)
  = xy_radius (one_finger_ft_wf 0 q1 q2 q3).
Proof.
  destruct (fingertip_turned theta_base q1 q2 q3) as (Hx & Hy & _).
  unfold xy_radius. rewrite Hx, Hy. f_equal.
  set (a := nth 0 (one_finger_ft_wf 0 q1 q2 q3) 0).
  set (b := nth 1 (one_finger_ft_wf 0 q1 q2 q3) 0).
  pose proof (sin2_cos2 theta_base) as H. unfold Rsqr in H.
  replace ((cos theta_base * a - sin theta_base * b)
           * (cos theta_base * a - sin theta_base * b)
           + (sin theta_base * a + cos theta_base * b)
             * (sin theta_base * a + cos theta_base * b))
    with ((sin theta_base * sin theta_base + cos theta_base * cos theta_base)
          * (a * a + b * b)) by ring.
  rewrite H. ring.
Qed.

(** X6. The fingers are turned copies of one another: the fingertip
    position of a finger is that of a finger at base angle 0 with the same
    joint angles, turned by the base angle about the vertical axis. So the
    two arena constraints of a finger depend on its three joint angles only,
    not on which finger it is. *)
Theorem arena_constraints_same_for_all_fingers
        (q q' : matrix R) (i i' f f' : nat) (theta_base q1 q2 q3 : R) :
  finger_joints (row_of q i) f = finger_joints (row_of q' i') f' ->
  (let p0 := one_finger_ft_wf 0 q1 q2 q3 in
   let p := one_finger_ft_wf theta_base q1 q2 q3 in
   nth 0 p 0 = cos theta_base * nth 0 p0 0 - sin theta_base * nth 1 p0 0 /\
   nth 1 p 0 = sin theta_base * nth 0 p0 0 + cos theta_base * nth 1 p0 0 /\
   nth 2 p 0 = nth 2 p0 0) /\
  arena_pair q i f = arena_pair q' i' f'.
Proof.
  intros Hj. split; [apply fingertip_turned|].
  unfold arena_pair, fingertip_position.
  unfold finger_joints in Hj.
  pose proof (f_equal (fun p => fst (fst p)) Hj) as H1.
  pose proof (f_equal (fun p => snd (fst p)) Hj) as H2.
  pose proof (f_equal (fun p => snd p) Hj) as H3.
  cbv beta in H1, H2, H3. cbn [fst snd] in H1, H2, H3.
  rewrite H1, H2, H3.
  rewrite (xy_radius_turned (theta_base_of f)).
  rewrite (xy_radius_turned (theta_base_of f')).
  destruct (fingertip_turned (theta_base_of f)
              (nth (qnum * f') (row_of q' i') 0)
              (nth (qnum * f' + 1) (row_of q' i') 0)
              (nth (qnum * f' + 2) (row_of q' i') 0)) as (_ & _ & Hz).
  destruct (fingertip_turned (theta_base_of f')
              (nth (qnum * f') (row_of q' i') 0)
              (nth (qnum * f' + 1) (row_of q' i') 0)
              (nth (qnum * f' + 2) (row_of q' i') 0)) as (_ & _ & Hz').
  cbv zeta in Hz, Hz'. rewrite Hz, Hz'. reflexivity.
Qed.

Lemma arena_constraints_same_for_all_fingers_witness :
  arena_pair rest_q 0 0 = arena_pair rest_q 1 2.
Proof.
  apply (arena_constraints_same_for_all_fingers rest_q rest_q 0 1 0 2 0 0 0 0).
  reflexivity.
Defined.

End KinematicsEdges.

(** ** The p-norm and the object's box *)

Section PNorm.
Local Open Scope R_scope.

Lemma fold_left_powers (cp : list R) (acc : R) :
  fold_left (fun pnorm param => pnorm + Rabs param ^ p) cp acc
  = acc + sum (map (fun x => Rabs x ^ p) cp).
Proof.
  revert acc. induction cp as [|x cp IH]; intros acc;
    cbn [fold_left map]; unfold sum in *; cbn [fold_right].
  - ring.
  - rewrite IH. ring.
Qed.

Lemma get_pnorm_sum (cp : list R) :
  get_pnorm cp = power (sum (map (fun x => Rabs x ^ p) cp)) (1 / INR p).
Proof. unfold get_pnorm. rewrite fold_left_powers. f_equal. ring. Qed.

Lemma powers_nonneg (cp : list R) : 0 <= sum (map (fun x => Rabs x ^ p) cp).
Proof.
  induction cp as [|x cp IH]; unfold sum in *; cbn [map fold_right]; [lra|].
  pose proof (pow_le (Rabs x) p (Rabs_pos x)). lra.
Qed.

Lemma power_le_sum (cp : list R) (x : R) :
  In x cp -> Rabs x ^ p <= sum (map (fun x => Rabs x ^ p) cp).
Proof.
  induction cp as [|y cp IH]; intros H; [contradiction|].
  unfold sum in *. cbn [map fold_right].
  destruct H as [->|H].
  - pose proof (powers_nonneg cp). unfold sum in *. lra.
  - pose proof (pow_le (Rabs y) p (Rabs_pos y)). specialize (IH H). lra.
Qed.

Lemma sum_le_length (cp : list R) (M : R) :
  (forall x, In x cp -> Rabs x <= M) ->
  sum (map (fun x => Rabs x ^ p) cp) <= INR (length cp) * M ^ p.
Proof.
  induction cp as [|y cp IH]; intros H.
  - unfold sum. cbn [map fold_right length INR]. lra.
  - change (length (y :: cp)) with (S (length cp)). rewrite S_INR.
    unfold sum in *. cbn [map fold_right].
    assert (Rabs y ^ p <= M ^ p)
      by (apply pow_incr; split; [apply Rabs_pos | apply H; now left]).
    specialize (IH (fun x Hx => H x (or_intror Hx))). lra.
Qed.

(** The [p]-th root of a [p]-th power. *)
Lemma root_of_power (y : R) : 0 < y -> Rpower (y ^ p) (1 / INR p) = y.
Proof.
  intros Hy. rewrite <- (Rpower_pow p y Hy), Rpower_mult.
  replace (INR p * (1 / INR p)) with 1.
  - now apply Rpower_1.
  - field. apply not_0_INR. discriminate.
Qed.

Lemma root_exponent_pos : 0 <= 1 / INR p.
Proof.
  apply Rlt_le, Rdiv_lt_0_compat; [lra | apply lt_0_INR; unfold p; lia].
Qed.

Lemma abs_le_pnorm (cp : list R) (x : R) : In x cp -> Rabs x <= get_pnorm cp.
Proof.
  intros Hx. rewrite get_pnorm_sum. unfold power.
  pose proof (power_le_sum cp x Hx) as Hle.
  pose proof (Rabs_pos x) as Hpos.
  destruct (Req_dec_T (sum (map (fun x => Rabs x ^ p) cp)) 0) as [E|NE].
  - rewrite E in Hle.
    destruct (Rle_lt_or_eq_dec _ _ Hpos) as [Hlt|Heq]; [|lra].
    pose proof (pow_lt (Rabs x) p Hlt). lra.
  - destruct (Rle_lt_or_eq_dec _ _ Hpos) as [Hlt|Heq].
    + rewrite <- (root_of_power (Rabs x) Hlt) at 1.
      apply Rle_Rpower_l; [apply root_exponent_pos|].
      split; [now apply pow_lt | exact Hle].
    + rewrite <- Heq. apply Rlt_le, exp_pos.
Qed.

Lemma pnorm_le_scaled (cp : list R) (M : R) :
  cp <> [] ->
  (forall x, In x cp -> Rabs x <= M) ->
  get_pnorm cp <= Rpower (INR (length cp)) (1 / INR p) * M.
Proof.
  intros Hne HM. rewrite get_pnorm_sum. unfold power.
  assert (HM0 : 0 <= M).
  { destruct cp as [|y cp]; [contradiction|].
    pose proof (HM y (or_introl eq_refl)). pose proof (Rabs_pos y). lra. }
  assert (Hn : 0 < INR (length cp)).
  { destruct cp; [contradiction|]. apply lt_0_INR. simpl. lia. }
  pose proof (sum_le_length cp M HM) as Hle.
  pose proof (powers_nonneg cp) as Hpos.
  destruct (Req_dec_T (sum (map (fun x => Rabs x ^ p) cp)) 0) as [E|NE].
  - apply Rmult_le_pos; [apply Rlt_le, exp_pos | exact HM0].
  - assert (HM1 : 0 < M).
    { destruct (Rle_lt_or_eq_dec _ _ HM0) as [H|H]; [exact H|].
      exfalso. apply NE. rewrite <- H in Hle.
      rewrite pow_i in Hle by (unfold p; lia). lra. }
    rewrite <- (root_of_power M HM1) at 1.
    rewrite Rpower_mult_distr by (assumption || now apply pow_lt).
    apply Rle_Rpower_l; [apply root_exponent_pos|]. split; lra.
Qed.

Lemma root_of_three : Rpower 3 (1 / INR p) <= 1.012.
Proof.
  assert (H : 0 < 1.012) by lra.
  rewrite <- (root_of_power 1.012 H).
  apply Rle_Rpower_l; [apply root_exponent_pos|].
  split; [lra|]. unfold p. lra.
Qed.

Lemma pnorm_of_three_le (a b c M : R) :
  Rabs a <= M -> Rabs b <= M -> Rabs c <= M ->
  get_pnorm [a; b; c] <= 1.012 * M.
Proof.
  intros Ha Hb Hc.
  assert (HM : 0 <= M) by (pose proof (Rabs_pos a); lra).
  apply Rle_trans with (Rpower (INR (length [a; b; c])) (1 / INR p) * M).
  - apply pnorm_le_scaled; [discriminate|].
    intros x [<-|[<-|[<-|[]]]]; assumption.
  - apply Rmult_le_compat_r; [exact HM|].
    replace (INR (length [a; b; c])) with 3 by (simpl; lra).
    exact root_of_three.
Qed.

(** X7. [get_pnorm] is within 1.2 percent of the largest absolute value of
    three entries: it is at least the absolute value of every entry, and at
    most 1.012 times a bound on all three. *)
Theorem pnorm_near_max (a b c M : R) :
  Rabs a <= M -> Rabs b <= M -> Rabs c <= M ->
  Rabs a <= get_pnorm [a; b; c] /\
  Rabs b <= get_pnorm [a; b; c] /\
  Rabs c <= get_pnorm [a; b; c] /\
  get_pnorm [a; b; c] <= 1.012 * M.
Proof.
  intros Ha Hb Hc.
  split; [apply abs_le_pnorm; simpl; tauto|].
  split; [apply abs_le_pnorm; simpl; tauto|].
  split; [apply abs_le_pnorm; simpl; tauto|].
  now apply pnorm_of_three_le.
Qed.

Lemma pnorm_near_max_witness :
  Rabs 1 <= get_pnorm [1; 0; -1] /\ get_pnorm [1; 0; -1] <= 1.012 * 1.
Proof.
  assert (H1 : Rabs 1 <= 1) by (rewrite Rabs_R1; lra).
  assert (H0 : Rabs 0 <= 1) by (rewrite Rabs_R0; lra).
  assert (H2 : Rabs (-1) <= 1)
    by (unfold Rabs; destruct (Rcase_abs (-1)); lra).
  destruct (pnorm_near_max 1 0 (-1) 1 H1 H0 H2) as (A & _ & _ & B).
  split; [exact A | exact B].
Defined.

Section Box.
Variable obj_shape : vec3.

Lemma cp_param_entries (p_of : list R) :
  positive_shape obj_shape ->
  get_cp_param_from_pos_of obj_shape p_of
  = map (fun k => 2 * nth k p_of 0 / nth k (vec3_list obj_shape) 0) (seq 0 3).
Proof.
  intros Hs. unfold get_cp_param_from_pos_of.
  apply map_ext_in. intros k Hk. apply in_seq in Hk.
  pose proof (Hs k ltac:(lia)). field. lra.
Qed.

Lemma abs_quotient (x s : R) : 0 < s -> Rabs (2 * x / s) = 2 * Rabs x / s.
Proof.
  intros Hs. unfold Rdiv. rewrite !Rabs_mult, Rabs_inv.
  rewrite (Rabs_pos_eq 2) by lra. rewrite (Rabs_pos_eq s) by lra.
  reflexivity.
Qed.

Lemma le_quotient (a b s : R) : 0 < s -> a * s <= b -> a <= b / s.
Proof.
  intros Hs H. apply Rmult_le_reg_r with s; [exact Hs|].
  unfold Rdiv. rewrite Rmult_assoc, Rinv_l by lra. lra.
Qed.

Lemma quotient_le (a b s : R) : 0 < s -> b <= a * s -> b / s <= a.
Proof.
  intros Hs H. apply Rmult_le_reg_r with s; [exact Hs|].
  unfold Rdiv. rewrite Rmult_assoc, Rinv_l by lra. lra.
Qed.

(** A point out of the box scaled by [1 + r] along some axis has a p-norm
    of at least [1 + r]. *)
Lemma outside_box_pnorm (p_of : list R) (r : R) :
  positive_shape obj_shape ->
  0 <= r ->
  outside_box_by obj_shape r p_of ->
  0 <= get_pnorm (get_cp_param_from_pos_of obj_shape p_of) - r - 1.
Proof.
  intros Hs Hr (k & Hk & Hout).
  rewrite (cp_param_entries p_of Hs).
  pose proof (Hs k Hk) as Hsk.
  assert (Hin : In (2 * nth k p_of 0 / nth k (vec3_list obj_shape) 0)
                   (map (fun k => 2 * nth k p_of 0
                                  / nth k (vec3_list obj_shape) 0)
                        (seq 0 3))).
  { apply in_map_iff. exists k. split; [reflexivity | apply in_seq; lia]. }
  pose proof (abs_le_pnorm _ _ Hin) as Hle.
  rewrite abs_quotient in Hle by assumption.
  assert (1 + r <= 2 * Rabs (nth k p_of 0) / nth k (vec3_list obj_shape) 0).
  { apply le_quotient; [assumption | lra]. }
  lra.
Qed.

(** X8. The box test behind the collision terms, for an object with
    positive extents: [get_cp_param_from_pos_of] scales coordinate [k] of a
    point in object frame to [2 * p_of[k] / obj_shape[k]]; a point that
    lies, along some axis, out of the box scaled by [1 + r] has
    [pnorm - r - 1 >= 0] (its collision constraint holds), and a point in
    the box has a p-norm of at most 1.012, below [pnorm_min]. *)
Theorem box_test (p_of : list R) (r : R) :
  positive_shape obj_shape ->
  0 <= r ->
  get_cp_param_from_pos_of obj_shape p_of
  = map (fun k => 2 * nth k p_of 0 / nth k (vec3_list obj_shape) 0) (seq 0 3) /\
  (outside_box_by obj_shape r p_of ->
   0 <= get_pnorm (get_cp_param_from_pos_of obj_shape p_of) - r - 1) /\
  (inside_box obj_shape p_of ->
   get_pnorm (get_cp_param_from_pos_of obj_shape p_of) <= 1.012 /\
   get_pnorm (get_cp_param_from_pos_of obj_shape p_of) < pnorm_min).
Proof.
  intros Hs Hr.
  pose proof (cp_param_entries p_of Hs) as E.
  split; [exact E|]. split.
  - now apply outside_box_pnorm.
  - rewrite E. intros Hin.
    assert (H : forall k, (k < 3)%nat ->
                Rabs (2 * nth k p_of 0 / nth k (vec3_list obj_shape) 0) <= 1).
    { intros k Hk. pose proof (Hs k Hk). rewrite abs_quotient by assumption.
      apply quotient_le; [assumption|]. specialize (Hin k Hk). lra. }
    cbn [map seq].
    pose proof (pnorm_of_three_le _ _ _ 1 (H 0%nat ltac:(lia))
                  (H 1%nat ltac:(lia)) (H 2%nat ltac:(lia))) as Hu.
    unfold pnorm_min. split; lra.
Qed.

End Box.

Lemma box_test_witness :
  0 <= get_pnorm (get_cp_param_from_pos_of unit_shape [1; 0; 0]) - 0.5 - 1 /\
  get_pnorm (get_cp_param_from_pos_of unit_shape [0; 0; 0]) < pnorm_min.
Proof.
  assert (Hs : positive_shape unit_shape).
  { intros k Hk. destruct k as [|[|[|k]]]; simpl; try lra; lia. }
  split.
  - apply (box_test unit_shape [1; 0; 0] 0.5 Hs); [lra|].
    exists 0%nat. split; [lia|]. simpl. rewrite Rabs_R1. lra.
  - apply (box_test unit_shape [0; 0; 0] 0 Hs); [lra|].
    intros k Hk. destruct k as [|[|[|k]]]; simpl; try lia;
      rewrite Rabs_R0; lra.
Defined.

End PNorm.

(** ** The collision terms *)

Section CollisionTerms.
Local Open Scope R_scope.

Lemma exp_base (x : R) : Rpower (exp 1) x = exp x.
Proof. unfold Rpower. rewrite ln_exp. f_equal. ring. Qed.

Lemma logistic_bounds (x : R) :
  0 < exp x / (1 + exp x) < 1 /\
  (0 <= x -> 1 / 2 <= exp x / (1 + exp x)) /\
  (x <= 0 -> exp x / (1 + exp x) <= 1 / 2).
Proof.
  pose proof (exp_pos x) as He.
  assert (Hd : 0 < 1 + exp x) by lra.
  assert (Hi : 0 < / (1 + exp x)) by (now apply Rinv_0_lt_compat).
  assert (E1 : exp x / (1 + exp x) = 1 - / (1 + exp x)) by (field; lra).
  split; [rewrite E1; split; [|lra]|split; intros Hx].
  - assert (/ (1 + exp x) < 1); [|lra].
    rewrite <- Rinv_1 at 2. apply Rinv_lt_contravar; lra.
  - assert (1 <= exp x).
    { rewrite <- exp_0. destruct Hx as [Hx|Hx];
        [apply Rlt_le, exp_increasing; exact Hx | rewrite <- Hx; lra]. }
    apply le_quotient; [exact Hd | lra].
  - assert (exp x <= 1).
    { rewrite <- exp_0. destruct Hx as [Hx|Hx];
        [apply Rlt_le, exp_increasing; exact Hx | rewrite Hx; lra]. }
    apply quotient_le; [exact Hd | lra].
Qed.

(** X9. The smooth penalty of the collision cost, with
    [d = pnorm_min - pnorm]: it is [d] times a factor between 0 and 1, so
    it has the sign of [d], lies between [d / 2] and [max(d, 0)], and never
    exceeds the hard penalty [max(d, 0)]; beyond [pnorm_min] it is
    negative. *)
Theorem penalty_is_damped (pnorm : R) :
  penalty pnorm
  = (pnorm_min - pnorm)
    * (exp (alpha * (pnorm_min - pnorm))
       / (1 + exp (alpha * (pnorm_min - pnorm)))) /\
  (pnorm_min - pnorm) / 2 <= penalty pnorm <= Rmax (pnorm_min - pnorm) 0 /\
  Rmin (pnorm_min - pnorm) 0 <= penalty pnorm /\
  (0 <= penalty pnorm <-> pnorm <= pnorm_min) /\
  (penalty pnorm < 0 <-> pnorm_min < pnorm).
Proof.
  remember (pnorm_min - pnorm) as d eqn:Ed.
  assert (E : penalty pnorm
              = d * (exp (alpha * d) / (1 + exp (alpha * d)))).
  { unfold penalty. rewrite <- Ed, exp_base.
    pose proof (exp_pos (alpha * d)). field. lra. }
  split; [exact E|]. rewrite E.
  destruct (logistic_bounds (alpha * d)) as ((S0 & S1) & Sp & Sn).
  remember (exp (alpha * d) / (1 + exp (alpha * d))) as sg eqn:Esg.
  clear Esg E.
  assert (Ha : 0 < alpha) by (unfold alpha; lra).
  destruct (Rle_lt_dec 0 d) as [Hd|Hd].
  - assert (Hs : 1 / 2 <= sg) by (apply Sp; nra).
    rewrite Rmax_left by lra. rewrite Rmin_right by lra.
    repeat split; intros; nra.
  - assert (Hs : sg <= 1 / 2) by (apply Sn; nra).
    rewrite Rmax_right by lra. rewrite Rmin_left by lra.
    repeat split; intros; nra.
Qed.

Variable nGrid : nat.
Variable obj_shape : vec3.
Variable invert_transform : vec3 -> quat -> vec3 * quat.
Variable get_matrix_from_quaternion : quat -> vec3 * vec3 * vec3.
Variable get_sphere_centers_wf : nat -> list R -> nat -> list vec3.
Variable r_list : nat -> nat -> R.

(** X10. [collision_constraint] returns one expression for every grid
    index, finger, link 2 or 3 and sphere centre on the link, and none for
    the other links; it reads the positions only. For an object with
    positive extents and spheres of radius at least 0, every expression is
    at least 0 when every such centre lies, along some axis of the object
    frame, out of the object's box scaled by 1 plus the radius. *)
Theorem collision_constraint_family (obj_pose_param : pose) (s : list R)
        (q dq : matrix R) :
  length s = (2 * nGrid * fnum * qnum)%nat ->
  s_unpack nGrid s = Some (q, dq) ->
  positive_shape obj_shape ->
  (forall f l, 0 <= r_list f l) ->
  collision_constraint nGrid obj_shape invert_transform
                       get_matrix_from_quaternion get_sphere_centers_wf
                       r_list obj_pose_param s
  = Some (horzcat (collision_family nGrid obj_shape invert_transform
                     get_matrix_from_quaternion get_sphere_centers_wf
                     r_list obj_pose_param q)) /\
  ((forall i f l c,
      (i < nGrid)%nat -> (f < fnum)%nat -> In l [2%nat; 3%nat] ->
      In c (get_sphere_centers_wf f
              (firstn qnum (skipn (qnum * f) (row_of q i))) l) ->
      outside_box_by obj_shape (r_list f l)
        (pos_of invert_transform get_matrix_from_quaternion obj_pose_param c)) ->
   Forall (fun x => 0 <= x)
          (collision_family nGrid obj_shape invert_transform
             get_matrix_from_quaternion get_sphere_centers_wf
             r_list obj_pose_param q)).
Proof.
  intros Hs Hqdq Hshape Hr.
  destruct (s_unpack_Some nGrid s Hs)
    as (q' & dq' & Hqdq' & Hq & Hq1 & Hq2 & _).
  rewrite Hqdq in Hqdq'. inversion Hqdq'; subst q' dq'. clear Hqdq'.
  split.
  - unfold collision_constraint. rewrite Hqdq. cbn [bind fst].
    rewrite !range_from_0.
    rewrite (mapM_Some _
               (fun i =>
                  flat_map (fun f =>
                    flat_map (fun l =>
                      map (fun c =>
                             get_pnorm
                               (get_cp_param_from_pos_of obj_shape
                                  (pos_of invert_transform
                                          get_matrix_from_quaternion
                                          obj_pose_param c))
                             - r_list f l - 1)
                          (get_sphere_centers_wf f
                             (firstn qnum (skipn (qnum * f) (row_of q i))) l))
                      [2%nat; 3%nat])
                    (seq 0 fnum))).
    + cbn [bind]. unfold collision_family.
      now rewrite <- flat_map_concat_map.
    + intros i Hi. apply in_seq in Hi.
      rewrite row_Some by (assumption || lia). cbn [bind].
      rewrite (mapM_Some _
                 (fun f =>
                    flat_map (fun l =>
                      map (fun c =>
                             get_pnorm
                               (get_cp_param_from_pos_of obj_shape
                                  (pos_of invert_transform
                                          get_matrix_from_quaternion
                                          obj_pose_param c))
                             - r_list f l - 1)
                          (get_sphere_centers_wf f
                             (firstn qnum (skipn (qnum * f) (row_of q i))) l))
                      [2%nat; 3%nat])).
      * cbn [bind]. now rewrite <- flat_map_concat_map.
      * intros f Hf. apply in_seq in Hf.
        rewrite slice_window
          by (rewrite row_of_length, Hq2; unfold fnum, qnum in *; lia).
        cbn [bind]. now rewrite <- flat_map_concat_map.
  - intros Hout. apply Forall_forall. intros x Hx.
    unfold collision_family in Hx.
    apply in_flat_map in Hx. destruct Hx as (i & Hi & Hx).
    apply in_flat_map in Hx. destruct Hx as (f & Hf & Hx).
    apply in_flat_map in Hx. destruct Hx as (l & Hl & Hx).
    apply in_map_iff in Hx. destruct Hx as (c & Ex & Hc).
    apply in_seq in Hi, Hf. subst x.
    apply (outside_box_pnorm obj_shape _ (r_list f l) Hshape (Hr f l)).
    apply (Hout i f l c); (lia || assumption).
Qed.

End CollisionTerms.

Section CollisionWitness.
Local Open Scope R_scope.

Lemma collision_constraint_family_witness :
  collision_constraint 2 unit_shape keep_transform identity_rotation
                       far_centers half_radius pose_origin rest_s
  = Some (horzcat (collision_family 2 unit_shape keep_transform
                     identity_rotation far_centers half_radius
                     pose_origin rest_q)).
Proof.
  apply (collision_constraint_family 2 unit_shape keep_transform
           identity_rotation far_centers half_radius pose_origin rest_s
           rest_q rest_q).
  - reflexivity.
  - reflexivity.
  - intros k Hk. destruct k as [|[|[|k]]]; simpl; try lra; lia.
  - intros f l. unfold half_radius. lra.
Defined.

End CollisionWitness.

(** ** Decoding a solution *)

Section Decode.
Local Open Scope R_scope.

Lemma tderiv_correct (traj : nat -> R -> R) (vel : nat -> R) (tau : R)
      (e : texpr) :
  (forall k, derivable_pt_lim (traj k) tau (vel k)) ->
  derivable_pt_lim (teval traj e) tau (tderiv traj vel e tau).
Proof.
  intros H.
  induction e as [k | c | a IHa b IHb | a IHa b IHb | a IHa b IHb
                  | a IHa | a IHa | a IHa]; simpl.
  - apply H.
  - apply derivable_pt_lim_const.
  - exact (derivable_pt_lim_plus _ _ _ _ _ IHa IHb).
  - exact (derivable_pt_lim_minus _ _ _ _ _ IHa IHb).
  - exact (derivable_pt_lim_mult _ _ _ _ _ IHa IHb).
  - exact (derivable_pt_lim_opp _ _ _ IHa).
  - rewrite Rmult_comm.
    exact (derivable_pt_lim_comp (teval traj a) sin tau _ _ IHa
             (derivable_pt_lim_sin _)).
  - rewrite Rmult_comm.
    exact (derivable_pt_lim_comp (teval traj a) cos tau _ _ IHa
             (derivable_pt_lim_cos _)).
Qed.

Lemma deriv_by_texpr (traj : nat -> R -> R) (vel : nat -> R) (e : texpr)
      (f : R -> R) (tau l : R) :
  (forall k, derivable_pt_lim (traj k) tau (vel k)) ->
  (forall x, f x = teval traj e x) -> l = tderiv traj vel e tau ->
  derivable_pt_lim f tau l.
Proof.
  intros H Hf Hl. subst l.
  intros eps Heps. destruct (tderiv_correct traj vel tau e H eps Heps) as [d Hd].
  exists d. intros h Hh1 Hh2. rewrite !Hf. now apply Hd.
Qed.

Ltac treify c0 c1 c2 x e :=
  lazymatch e with
  | c0 x => constr:(TJoint 0)
  | c1 x => constr:(TJoint 1)
  | c2 x => constr:(TJoint 2)
  | ?a + ?b => let a' := treify c0 c1 c2 x a in
               let b' := treify c0 c1 c2 x b in constr:(TAdd a' b')
  | ?a - ?b => let a' := treify c0 c1 c2 x a in
               let b' := treify c0 c1 c2 x b in constr:(TSub a' b')
  | ?a * ?b => let a' := treify c0 c1 c2 x a in
               let b' := treify c0 c1 c2 x b in constr:(TMul a' b')
  | - ?a => let a' := treify c0 c1 c2 x a in constr:(TNeg a')
  | sin ?a => let a' := treify c0 c1 c2 x a in constr:(TSin a')
  | cos ?a => let a' := treify c0 c1 c2 x a in constr:(TCos a')
  | _ => constr:(TConst e)
  end.

Ltac unfold_decimals := cbv [Q2R QArith_base.Qnum QArith_base.Qden].

(** Along differentiable joint trajectories, the time derivative of a
    fingertip coordinate is the Jacobian times the joint velocities. *)
Lemma fingertip_chain_rule (theta_base : R) (c0 c1 c2 : R -> R)
      (v0 v1 v2 tau : R) (r : nat) :
  (r < 3)%nat ->
  derivable_pt_lim c0 tau v0 ->
  derivable_pt_lim c1 tau v1 ->
  derivable_pt_lim c2 tau v2 ->
  derivable_pt_lim
    (fun x => ft_coord theta_base r (c0 x, c1 x, c2 x)) tau
    (fingertip_velocity theta_base r (c0 tau, c1 tau, c2 tau) v0 v1 v2).
Proof.
  intros Hr H0 H1 H2.
  assert (H : forall k, derivable_pt_lim (joint_traj c0 c1 c2 k) tau
                                         (joint_vel v0 v1 v2 k)).
  { intros [|[|k]]; assumption. }
  destruct r as [|[|[|r]]]; [| | |lia];
    unfold fingertip_velocity;
    cbn [ft_coord J_coord one_finger_ft_wf one_finger_J nth];
    (let E := open_constr:(_ : texpr) in
     apply (deriv_by_texpr (joint_traj c0 c1 c2) (joint_vel v0 v1 v2) E _ _ _ H);
     [ let x := fresh "x" in
       intro x;
       lazymatch goal with
       | |- ?lhs = teval _ _ x =>
         let E' := treify c0 c1 c2 x lhs in unify E E'; reflexivity
       end
     | cbn [tderiv teval joint_traj joint_vel]; unfold_decimals; field ]).
Qed.

Lemma ft_pos_row (q_t : list R) :
  foldM (fun ft_pos f_i =>
           ft_f <- nth_error (map (fingertip_position q_t) (seq 0 fnum)) f_i ;;
           set_slice ft_pos (f_i * qnum) (f_i * qnum + qnum) ft_f)
        (range 0 fnum) (repeat 0 (fnum * 3))
  = Some (flat_map (fingertip_position q_t) (seq 0 fnum)).
Proof. reflexivity. Qed.

Lemma hand_jacobian_Some (q_t : list R) :
  length q_t = (fnum * qnum)%nat ->
  get_jacobian q_t = Some (hand_jacobian q_t).
Proof.
  intros H. unfold hand_jacobian.
  destruct (get_jacobian_blocks q_t H) as (J & E & _). now rewrite E.
Qed.

Lemma block_row_dot (row d : list R) (f : nat) (c : nat -> R) :
  length row = (fnum * qnum)%nat -> length d = (fnum * qnum)%nat ->
  (f < fnum)%nat ->
  (forall j k, (j < fnum)%nat -> (k < qnum)%nat ->
     nth (qnum * j + k) row 0 = if (f =? j)%nat then c k else 0) ->
  dot row d
  = c 0%nat * nth (qnum * f) d 0 + c 1%nat * nth (qnum * f + 1) d 0
    + c 2%nat * nth (qnum * f + 2) d 0.
Proof.
  unfold fnum, qnum. intros Hr Hd Hf H.
  destruct row as [|x0 [|x1 [|x2 [|x3 [|x4 [|x5 [|x6 [|x7 [|x8 [|]]]]]]]]]];
    try discriminate Hr.
  destruct d as [|d0 [|d1 [|d2 [|d3 [|d4 [|d5 [|d6 [|d7 [|d8 [|]]]]]]]]]];
    try discriminate Hd.
  pose proof (H 0%nat 0%nat ltac:(lia) ltac:(lia)) as H00.
  pose proof (H 0%nat 1%nat ltac:(lia) ltac:(lia)) as H01.
  pose proof (H 0%nat 2%nat ltac:(lia) ltac:(lia)) as H02.
  pose proof (H 1%nat 0%nat ltac:(lia) ltac:(lia)) as H10.
  pose proof (H 1%nat 1%nat ltac:(lia) ltac:(lia)) as H11.
  pose proof (H 1%nat 2%nat ltac:(lia) ltac:(lia)) as H12.
  pose proof (H 2%nat 0%nat ltac:(lia) ltac:(lia)) as H20.
  pose proof (H 2%nat 1%nat ltac:(lia) ltac:(lia)) as H21.
  pose proof (H 2%nat 2%nat ltac:(lia) ltac:(lia)) as H22.
  clear H.
  destruct f as [|[|[|f]]]; [| | |lia];
    cbn [nth Nat.mul Nat.add Nat.eqb] in *; subst;
    cbv [dot combine map fst snd sum fold_right]; ring.
Qed.

(** The velocity of a fingertip coordinate that [solve_nlp] computes is the
    Jacobian of that finger times the joint velocities of that finger. *)
Lemma jacobian_times_velocity (q_t d : list R) (f r : nat) :
  length q_t = (fnum * qnum)%nat -> length d = (fnum * qnum)%nat ->
  (f < fnum)%nat -> (r < 3)%nat ->
  nth (3 * f + r) (matvec (hand_jacobian q_t) d) 0
  = fingertip_velocity (theta_base_of f) r (finger_joints q_t f)
      (nth (qnum * f) d 0) (nth (qnum * f + 1) d 0) (nth (qnum * f + 2) d 0).
Proof.
  intros Hq Hd Hf Hr. unfold hand_jacobian.
  destruct (get_jacobian_blocks q_t Hq) as (J & E & LJ & FJ & HJ).
  rewrite E. unfold matvec.
  rewrite (nth_indep _ 0 (dot [] d))
    by (rewrite length_map, LJ; unfold fnum in *; lia).
  rewrite (map_nth (fun row => dot row d) J []).
  assert (Hrow : length (nth (3 * f + r) J []) = (fnum * qnum)%nat).
  { rewrite Forall_forall in FJ. apply FJ. apply nth_In.
    rewrite LJ. unfold fnum in *. lia. }
  apply (block_row_dot _ d f
           (fun k => J_coord (theta_base_of f) r k (finger_joints q_t f)));
    try assumption.
  intros j k Hj Hk. now apply HJ.
Qed.

(** The decoded solution, row by row. *)
Lemma decode_solution_Some (nGrid : nat) (z : list R) :
  (nGrid + 2 * nGrid * fnum * qnum <= length z)%nat ->
  exists t s a q dq,
    decvar_unpack nGrid z = Some (t, s, a) /\
    s_unpack nGrid s = Some (q, dq) /\
    t ++ s ++ a = z /\
    decode_solution nGrid z
    = Some (Solution t q dq a
              (map (fun i => flat_map (fingertip_position (row_of q i))
                                      (seq 0 fnum))
                   (seq 0 nGrid))
              (map (fun i => matvec (hand_jacobian (row_of q i)) (row_of dq i))
                   (seq 0 nGrid))).
Proof.
  intros Hz.
  destruct (decvar_unpack_long_enough nGrid z Hz)
    as (t & s & a & Ez & Lt & Ls & Ezz).
  destruct (s_unpack_Some nGrid s Ls)
    as (q & dq & Eqdq & Hq & Hq1 & Hq2 & Hdq & Hdq1 & Hdq2).
  exists t, s, a, q, dq.
  split; [exact Ez|]. split; [exact Eqdq|]. split; [exact Ezz|].
  unfold decode_solution. rewrite Ez. cbn [bind].
  rewrite Eqdq. cbn [bind fst snd]. rewrite (range_from_0 nGrid).
  rewrite (mapM_Some _
             (fun i => (flat_map (fingertip_position (row_of q i)) (seq 0 fnum),
                        matvec (hand_jacobian (row_of q i)) (row_of dq i)))).
  - cbn [bind]. rewrite !map_map. reflexivity.
  - intros i Hi. apply in_seq in Hi.
    rewrite row_Some by (assumption || lia). cbn [bind].
    rewrite FK_Some by (now rewrite row_of_length). cbn [bind].
    rewrite hand_jacobian_Some by (now rewrite row_of_length). cbn [bind].
    rewrite row_Some by (assumption || lia). cbn [bind].
    rewrite ft_pos_row. reflexivity.
Qed.

(** X11. [decode_solution] fails on a solution vector shorter than
    [nGrid + 2 * nGrid * fnum * qnum] and returns on every other one,
    whatever the number of slack entries. It returns [nGrid] rows of
    fingertip positions, row [i] holding the [x, y, z] of finger 1, then of
    finger 2, then of finger 3, as [FK] gives them for row [i] of the
    positions. *)
Theorem decoded_fingertip_positions (nGrid : nat) (z : list R) :
  ((length z < nGrid + 2 * nGrid * fnum * qnum)%nat ->
   decode_solution nGrid z = None) /\
  ((nGrid + 2 * nGrid * fnum * qnum <= length z)%nat ->
   exists sol s,
     decode_solution nGrid z = Some sol /\
     decvar_unpack nGrid z = Some (t_soln sol, s, a_soln sol) /\
     s_unpack nGrid s = Some (q_soln sol, dq_soln sol) /\
     length (ft_pos_soln sol) = nGrid /\
     Forall (fun row => length row = (fnum * 3)%nat) (ft_pos_soln sol) /\
     forall i f r, (i < nGrid)%nat -> (f < fnum)%nat -> (r < 3)%nat ->
       exists fingertips,
         FK (row_of (q_soln sol) i) = Some fingertips /\
         nth (3 * f + r) (nth i (ft_pos_soln sol) []) 0
         = nth r (nth f fingertips []) 0).
Proof.
  split.
  - intros Hz. unfold decode_solution.
    now rewrite (decvar_unpack_too_short nGrid z Hz).
  - intros Hz.
    destruct (decode_solution_Some nGrid z Hz)
      as (t & s & a & q & dq & Ez & Eqdq & _ & E).
    destruct (s_unpack_Some nGrid s) as (q' & dq' & Hqdq' & Hq & Hq1 & Hq2 & _).
    { destruct (decvar_unpack_long_enough nGrid z Hz)
        as (t' & s' & a' & Ez' & _ & Ls & _).
      rewrite Ez in Ez'. now inversion Ez'; subst. }
    rewrite Eqdq in Hqdq'. inversion Hqdq'; subst q' dq'. clear Hqdq'.
    eexists _, s. split; [exact E|]. cbn [t_soln a_soln q_soln dq_soln ft_pos_soln].
    split; [exact Ez|]. split; [exact Eqdq|].
    split; [now rewrite length_map, length_seq|].
    split.
    { apply Forall_forall. intros row Hrow. apply in_map_iff in Hrow.
      destruct Hrow as (i & <- & _). reflexivity. }
    intros i f r Hi Hf Hr.
    exists (map (fingertip_position (row_of q i)) (seq 0 fnum)).
    split; [apply FK_Some; now rewrite row_of_length|].
    rewrite (nth_indep _ [] (flat_map (fingertip_position (row_of q 0)) (seq 0 fnum)))
      by (now rewrite length_map, length_seq).
    rewrite (map_nth (fun i => flat_map (fingertip_position (row_of q i))
                                        (seq 0 fnum)) (seq 0 nGrid) 0%nat).
    rewrite seq_nth by assumption. cbn [Nat.add].
    revert Hf Hr. unfold fnum. intros Hf Hr.
    destruct f as [|[|[|f]]]; [| | |lia];
      (destruct r as [|[|[|r]]]; [| | |lia]); reflexivity.
Qed.

Lemma decoded_fingertip_positions_witness :
  decode_solution 2 (repeat 0 37) = None /\
  exists sol s,
    decode_solution 2 (repeat 0 40) = Some sol /\
    decvar_unpack 2 (repeat 0 40) = Some (t_soln sol, s, a_soln sol) /\
    s_unpack 2 s = Some (q_soln sol, dq_soln sol) /\
    length (ft_pos_soln sol) = 2%nat.
Proof.
  split.
  - apply (decoded_fingertip_positions 2 (repeat 0 37)). simpl. lia.
  - destruct (decoded_fingertip_positions 2 (repeat 0 40)) as (_ & H).
    destruct H as (sol & s & H1 & H2 & H3 & H4 & _); [simpl; lia|].
    exists sol, s. repeat split; assumption.
Defined.

(** X12. The fingertip velocities that [decode_solution] returns are time
    derivatives: entry [3 * f + r] of row [i] is the Jacobian of finger
    [f] times the joint velocities of finger [f] only, and it is the
    derivative at time [tau] of coordinate [r] of the fingertip of finger
    [f] along any joint trajectories that pass at [tau] through the joint
    angles of row [i] with the joint velocities of row [i]. *)
Theorem decoded_fingertip_velocities (nGrid : nat) (z : list R)
        (i f r : nat) (c0 c1 c2 : R -> R) (tau : R) :
  (nGrid + 2 * nGrid * fnum * qnum <= length z)%nat ->
  (i < nGrid)%nat -> (f < fnum)%nat -> (r < 3)%nat ->
  exists sol,
    decode_solution nGrid z = Some sol /\
    length (ft_vel_soln sol) = nGrid /\
    let q_i := row_of (q_soln sol) i in
    let dq_i := row_of (dq_soln sol) i in
    let ft_vel := nth (3 * f + r) (nth i (ft_vel_soln sol) []) 0 in
    ft_vel
    = J_coord (theta_base_of f) r 0 (finger_joints q_i f) * nth (qnum * f) dq_i 0
      + J_coord (theta_base_of f) r 1 (finger_joints q_i f)
        * nth (qnum * f + 1) dq_i 0
      + J_coord (theta_base_of f) r 2 (finger_joints q_i f)
        * nth (qnum * f + 2) dq_i 0 /\
    ((c0 tau, c1 tau, c2 tau) = finger_joints q_i f ->
     derivable_pt_lim c0 tau (nth (qnum * f) dq_i 0) ->
     derivable_pt_lim c1 tau (nth (qnum * f + 1) dq_i 0) ->
     derivable_pt_lim c2 tau (nth (qnum * f + 2) dq_i 0) ->
     derivable_pt_lim
       (fun x => ft_coord (theta_base_of f) r (c0 x, c1 x, c2 x)) tau ft_vel).
Proof.
  intros Hz Hi Hf Hr.
  destruct (decode_solution_Some nGrid z Hz)
    as (t & s & a & q & dq & Ez & Eqdq & _ & E).
  destruct (s_unpack_Some nGrid s)
    as (q' & dq' & Hqdq' & Hq & Hq1 & Hq2 & Hdq & Hdq1 & Hdq2).
  { destruct (decvar_unpack_long_enough nGrid z Hz)
      as (t' & s' & a' & Ez' & _ & Ls & _).
    rewrite Ez in Ez'. now inversion Ez'; subst. }
  rewrite Eqdq in Hqdq'. inversion Hqdq'; subst q' dq'. clear Hqdq'.
  eexists. split; [exact E|].
  cbn [q_soln dq_soln ft_vel_soln].
  split; [now rewrite length_map, length_seq|].
  cbv zeta.
  assert (Ev : nth (3 * f + r)
                 (nth i (map (fun i => matvec (hand_jacobian (row_of q i))
                                              (row_of dq i))
                             (seq 0 nGrid)) []) 0
               = fingertip_velocity (theta_base_of f) r
                   (finger_joints (row_of q i) f)
                   (nth (qnum * f) (row_of dq i) 0)
                   (nth (qnum * f + 1) (row_of dq i) 0)
                   (nth (qnum * f + 2) (row_of dq i) 0)).
  { rewrite (nth_indep _ [] (matvec (hand_jacobian (row_of q 0)) (row_of dq 0)))
      by (now rewrite length_map, length_seq).
    rewrite (map_nth (fun i => matvec (hand_jacobian (row_of q i))
                                      (row_of dq i)) (seq 0 nGrid) 0%nat).
    rewrite seq_nth by assumption. cbn [Nat.add].
    apply jacobian_times_velocity;
      (assumption || (rewrite row_of_length; assumption)). }
  rewrite Ev. split; [reflexivity|].
  intros Hj H0 H1 H2. rewrite <- Hj.
  now apply fingertip_chain_rule.
Qed.

Lemma decoded_fingertip_velocities_witness :
  exists sol,
    decode_solution 2 (repeat 0 40) = Some sol /\
    length (ft_vel_soln sol) = 2%nat.
Proof.
  destruct (decoded_fingertip_velocities 2 (repeat 0 40) 0 0 0
              (fun _ => 0) (fun _ => 0) (fun _ => 0) 0)
    as (sol & H1 & H2 & _); [simpl; lia | lia | unfold fnum; lia | lia|].
  exists sol. split; assumption.
Defined.

End Decode.

(** ** Feasible points *)

Section Feasible.
Local Open Scope R_scope.

Lemma Forall2_at {B C : Type} (P : B -> C -> Prop) (l1 : list B)
      (l2 : list C) (n : nat) (x : B) (y : C) :
  Forall2 P l1 l2 -> nth_error l1 n = Some x -> nth_error l2 n = Some y ->
  P x y.
Proof.
  intros H. revert n.
  induction H as [|a b l1 l2 Hab H IH]; intros [|n] H1 H2; simpl in *;
    try discriminate.
  - inversion H1; inversion H2; subst; assumption.
  - now apply (IH n).
Qed.

Lemma decvar_pack_app {B : Type} (t s a : list B) :
  decvar_pack t s a = t ++ s ++ a.
Proof. unfold decvar_pack, vertcat. cbn [concat]. now rewrite app_nil_r. Qed.

Lemma pinned_equal (l t : list R) :
  Forall2 ble (map Fin l) (map Fin t) ->
  Forall2 ble (map Fin t) (map Fin l) -> t = l.
Proof.
  rewrite !Forall2_ble_Fin. intros H.
  induction H as [|x y l t Hxy H IH]; intros H'; inversion H'; subst;
    [reflexivity|].
  f_equal; [lra | now apply IH].
Qed.

Lemma decvar_unpack_parts {B : Type} (nGrid : nat) (z t s a : list B) :
  decvar_unpack nGrid z = Some (t, s, a) ->
  z = t ++ s ++ a /\ length t = nGrid /\
  length s = (2 * nGrid * fnum * qnum)%nat.
Proof.
  intros H.
  destruct (Nat.lt_ge_cases (length z) (nGrid + 2 * nGrid * fnum * qnum))
    as [Hlt|Hge].
  - rewrite (decvar_unpack_too_short nGrid z Hlt) in H. discriminate.
  - destruct (decvar_unpack_long_enough nGrid z Hge)
      as (t' & s' & a' & E & Lt & Ls & Ez).
    rewrite E in H. inversion H; subst. auto.
Qed.

(** Where [s_unpack] reads the entries of the positions and of the
    velocities in the state vector. *)
Lemma s_unpack_entries {B : Type} (nGrid : nat) (s : list B)
      (q dq : matrix B) :
  s_unpack nGrid s = Some (q, dq) ->
  wf q /\ size1 q = nGrid /\ size2 q = (fnum * qnum)%nat /\
  wf dq /\ size1 dq = nGrid /\ size2 dq = (fnum * qnum)%nat /\
  forall i j, (i < nGrid)%nat -> (j < fnum * qnum)%nat ->
    get q i j = nth_error s (i * (fnum * qnum) + j) /\
    get dq i j
    = nth_error s (nGrid * (fnum * qnum) + i * (fnum * qnum) + j).
Proof.
  unfold s_unpack, fnum, qnum. cbv zeta.
  destruct (slice s 0 (Some (nGrid * (3 * 3))%nat)) as [vq|] eqn:E1;
    [|discriminate].
  cbn [bind]. unfold reshape at 1.
  destruct (Nat.eqb_spec (length vq) (3 * 3 * nGrid)) as [Lq|];
    [|discriminate].
  cbn [bind].
  destruct (slice s (nGrid * (3 * 3)) None) as [vdq|] eqn:E2; [|discriminate].
  cbn [bind]. unfold reshape.
  destruct (Nat.eqb_spec (length vdq) (3 * 3 * nGrid)) as [Ldq|];
    [|discriminate].
  cbn [bind]. intros H. inversion H; subst q dq. clear H.
  apply slice_Some in E1, E2. destruct E1 as [E1 B1]. destruct E2 as [E2 _].
  rewrite Nat.sub_0_r in E1. cbn [skipn] in E1.
  assert (Wq : wf (Matrix (3 * 3) nGrid vq))
    by (unfold wf; cbn [nz size1 size2]; lia).
  assert (Wdq : wf (Matrix (3 * 3) nGrid vdq))
    by (unfold wf; cbn [nz size1 size2]; lia).
  assert (Ls : (length s - nGrid * (3 * 3) = 3 * 3 * nGrid)%nat).
  { rewrite E2, length_firstn, length_skipn in Ldq. lia. }
  split; [now apply transpose_wf|]. split; [reflexivity|].
  split; [reflexivity|].
  split; [now apply transpose_wf|]. split; [reflexivity|].
  split; [reflexivity|].
  intros i j Hi Hj. split.
  - rewrite get_transpose by (assumption || (cbn [size1 size2]; lia)).
    rewrite get_nth by (cbn [size1 size2]; lia). cbn [nz size1].
    rewrite E1, nth_error_firstn.
    match goal with
    | |- context [(?x <? ?y)%nat] => destruct (Nat.ltb_spec x y); [|lia]
    end.
    f_equal; lia.
  - rewrite get_transpose by (assumption || (cbn [size1 size2]; lia)).
    rewrite get_nth by (cbn [size1 size2]; lia). cbn [nz size1].
    rewrite E2, nth_error_firstn, nth_error_skipn.
    match goal with
    | |- context [(?x <? ?y)%nat] => destruct (Nat.ltb_spec x y); [|lia]
    end.
    f_equal; lia.
Qed.

Lemma mapM_at {B C : Type} (f : B -> option C) (xs : list B) (l : list C)
      (j : nat) (x : B) :
  mapM f xs = Some l -> nth_error xs j = Some x -> f x = nth_error l j.
Proof.
  revert l j. induction xs as [|x0 xs IH]; intros l j H Hj.
  - destruct j; discriminate.
  - simpl in H. destruct (f x0) as [y|] eqn:Ey; [|discriminate].
    cbn [bind] in H. destruct (mapM f xs) as [ys|] eqn:Eys; [|discriminate].
    cbn [bind] in H. inversion H; subst l. clear H.
    destruct j as [|j]; simpl in *.
    + inversion Hj; subst. exact Ey.
    + now apply (IH ys j).
Qed.

Lemma row_get {B : Type} (m : matrix B) (i j : nat) (l : list B) :
  row m i = Some l -> (j < size2 m)%nat -> get m i j = nth_error l j.
Proof.
  unfold row. intros H Hj.
  destruct (i <? size1 m)%nat; [|discriminate].
  apply (mapM_at _ _ _ j j H).
  rewrite (nth_error_nth' _ 0%nat) by (now rewrite length_seq).
  now rewrite seq_nth.
Qed.

Lemma row_of_nth (m : matrix R) (i j : nat) :
  (j < size2 m)%nat -> nth j (row_of m i) 0 = entry m i j.
Proof.
  intros Hj. unfold row_of.
  rewrite (nth_indep _ 0 (entry m i 0%nat))
    by (now rewrite length_map, length_seq).
  rewrite (map_nth (entry m i)). now rewrite seq_nth.
Qed.

Lemma bound_row_entry (m : matrix bound) (n : nat) (rows : nat -> list R)
      (i j : nat) (b : bound) :
  bound_rows m n rows -> (i < n)%nat -> (j < fnum * qnum)%nat ->
  get m i j = Some b -> b = Fin (nth j (rows i) 0).
Proof.
  intros (W & S1 & S2 & Hr) Hi Hj Hb.
  rewrite (row_get m i j _ (Hr i Hi)) in Hb by (rewrite S2; exact Hj).
  rewrite nth_error_map in Hb.
  destruct (nth_error (rows i) j) as [x|] eqn:Ex; [|discriminate].
  inversion Hb. f_equal. symmetry. now apply nth_error_nth.
Qed.

(** A state vector between two packed tables of bounds is between them
    entry by entry. *)
Lemma state_within (nGrid : nat) (s : list R) (q dq : matrix R)
      (q_lb dq_lb q_ub dq_ub : matrix bound)
      (q_lo q_hi dq_lo dq_hi : nat -> list R) :
  s_unpack nGrid s = Some (q, dq) ->
  bound_rows q_lb nGrid q_lo -> bound_rows q_ub nGrid q_hi ->
  bound_rows dq_lb nGrid dq_lo -> bound_rows dq_ub nGrid dq_hi ->
  Forall2 ble (nz (transpose q_lb) ++ nz (transpose dq_lb)) (map Fin s) ->
  Forall2 ble (map Fin s) (nz (transpose q_ub) ++ nz (transpose dq_ub)) ->
  forall i j, (i < nGrid)%nat -> (j < fnum * qnum)%nat ->
    nth j (q_lo i) 0 <= entry q i j <= nth j (q_hi i) 0 /\
    nth j (dq_lo i) 0 <= entry dq i j <= nth j (dq_hi i) 0.
Proof.
  intros Es Bql Bqu Bdl Bdu Hlo Hhi i j Hi Hj.
  destruct (s_unpack_entries nGrid s q dq Es)
    as (Wq & Q1 & Q2 & Wdq & D1 & D2 & Ent).
  assert (El : s_unpack nGrid (nz (transpose q_lb) ++ nz (transpose dq_lb))
               = Some (q_lb, dq_lb)).
  { destruct Bql as (W1 & A1 & B1 & _). destruct Bdl as (W3 & A3 & B3 & _).
    apply s_unpack_pack; (assumption || (rewrite Nat.mul_comm; assumption)). }
  assert (Eu : s_unpack nGrid (nz (transpose q_ub) ++ nz (transpose dq_ub))
               = Some (q_ub, dq_ub)).
  { destruct Bqu as (W1 & A1 & B1 & _). destruct Bdu as (W3 & A3 & B3 & _).
    apply s_unpack_pack; (assumption || (rewrite Nat.mul_comm; assumption)). }
  destruct (s_unpack_entries nGrid _ q_lb dq_lb El) as (_ & _ & _ & _ & _ & _ & EntL).
  destruct (s_unpack_entries nGrid _ q_ub dq_ub Eu) as (_ & _ & _ & _ & _ & _ & EntU).
  destruct (Ent i j Hi Hj) as [Gq Gdq].
  destruct (EntL i j Hi Hj) as [Lq Ldq].
  destruct (EntU i j Hi Hj) as [Uq Udq].
  rewrite get_entry in Gq, Gdq by (assumption || lia).
  assert (Mq : nth_error (map Fin s) (i * (fnum * qnum) + j)
               = Some (Fin (entry q i j)))
    by (now rewrite nth_error_map, <- Gq).
  assert (Mdq : nth_error (map Fin s)
                  (nGrid * (fnum * qnum) + i * (fnum * qnum) + j)
                = Some (Fin (entry dq i j)))
    by (now rewrite nth_error_map, <- Gdq).
  assert (Some_at : forall (m : matrix bound) rows,
             bound_rows m nGrid rows -> get m i j <> None).
  { intros m rows (W & S1 & S2 & _). apply get_Some; [assumption | lia | lia]. }
  destruct (get q_lb i j) as [b1|] eqn:G1;
    [|exfalso; revert G1; exact (Some_at _ _ Bql)].
  destruct (get q_ub i j) as [b2|] eqn:G2;
    [|exfalso; revert G2; exact (Some_at _ _ Bqu)].
  destruct (get dq_lb i j) as [b3|] eqn:G3;
    [|exfalso; revert G3; exact (Some_at _ _ Bdl)].
  destruct (get dq_ub i j) as [b4|] eqn:G4;
    [|exfalso; revert G4; exact (Some_at _ _ Bdu)].
  pose proof (Forall2_at _ _ _ _ _ _ Hlo (eq_sym Lq) Mq) as P1.
  pose proof (Forall2_at _ _ _ _ _ _ Hhi Mq (eq_sym Uq)) as P2.
  pose proof (Forall2_at _ _ _ _ _ _ Hlo (eq_sym Ldq) Mdq) as P3.
  pose proof (Forall2_at _ _ _ _ _ _ Hhi Mdq (eq_sym Udq)) as P4.
  rewrite (bound_row_entry _ _ _ _ _ _ Bql Hi Hj G1) in P1.
  rewrite (bound_row_entry _ _ _ _ _ _ Bqu Hi Hj G2) in P2.
  rewrite (bound_row_entry _ _ _ _ _ _ Bdl Hi Hj G3) in P3.
  rewrite (bound_row_entry _ _ _ _ _ _ Bdu Hi Hj G4) in P4.
  cbn [ble] in P1, P2, P3, P4. auto.
Qed.

Lemma dq_limits_nth (j : nat) :
  (j < fnum * qnum)%nat -> nth j dq_lower 0 = -2 /\ nth j dq_upper 0 = 2.
Proof.
  unfold fnum, qnum. intros Hj.
  do 9 (destruct j as [|j]; [split; reflexivity|]). lia.
Qed.

Lemma pinned_velocity_row (nGrid : nat) (limit : list R) (i j : nat) :
  (i = 0 \/ i = nGrid - 1)%nat ->
  nth j (dq_bound_row nGrid (Some (repeat 0 (fnum * qnum)))
                      (Some (repeat 0 (fnum * qnum))) limit i) 0 = 0.
Proof.
  intros Hi. unfold dq_bound_row.
  destruct (Nat.eqb_spec i (nGrid - 1)); [apply nth_repeat|].
  destruct Hi as [-> | ->]; [|lia]. cbn [Nat.eqb]. apply nth_repeat.
Qed.

Lemma velocity_row_range (nGrid : nat) (i j : nat) :
  (j < fnum * qnum)%nat ->
  -2 <= nth j (dq_bound_row nGrid (Some (repeat 0 (fnum * qnum)))
                            (Some (repeat 0 (fnum * qnum))) dq_lower i) 0 /\
  nth j (dq_bound_row nGrid (Some (repeat 0 (fnum * qnum)))
                      (Some (repeat 0 (fnum * qnum))) dq_upper i) 0 <= 2.
Proof.
  intros Hj. destruct (dq_limits_nth j Hj) as [L U]. unfold dq_bound_row.
  destruct (i =? nGrid - 1)%nat; [rewrite nth_repeat; lra|].
  destruct (i =? 0)%nat; [rewrite nth_repeat; lra|].
  rewrite L, U. lra.
Qed.

(** X13. What the solver is asked for. A decision vector within the bounds
    of [path_constraints] (as [solve_nlp] calls it, with zero boundary
    velocities) that satisfies the constraints of [get_constraints] is a
    trajectory on the uniform time grid that starts at [q0], is at rest at
    both ends, keeps the joint and velocity limits, integrates the
    velocities by the trapezoid rule with step [dt], ends with every
    fingertip coordinate within the square root of its slack of the goal,
    and keeps the fingertips inside the arena radius and above the ground
    clearance from grid index 10 on. *)
Theorem feasible_point (nGrid : nat) (dt : R) (ft_goal_param q0 z : list R)
        (z_lb z_ub : list bound) (t s a : list R) (q dq : matrix R)
        (cs : list constraint) :
  (1 <= nGrid)%nat ->
  length z = (nGrid + 2 * nGrid * fnum * qnum + 3 * fnum)%nat ->
  length q0 = (fnum * qnum)%nat ->
  length ft_goal_param = (3 * fnum)%nat ->
  path_constraints nGrid dt z q0 (Some (repeat 0 (fnum * qnum)))
                   (Some (repeat 0 (fnum * qnum))) = Some (z_lb, z_ub) ->
  within_bounds z_lb z z_ub ->
  decvar_unpack nGrid z = Some (t, s, a) ->
  s_unpack nGrid s = Some (q, dq) ->
  get_constraints nGrid ft_goal_param t s a = Some cs ->
  Forall satisfied cs ->
  t = linspace 0 (tf nGrid dt) nGrid /\
  row_of q 0 = q0 /\
  row_of dq 0 = repeat 0 (fnum * qnum) /\
  row_of dq (nGrid - 1) = repeat 0 (fnum * qnum) /\
  (forall i j, (i + 1 < nGrid)%nat -> (j < fnum * qnum)%nat ->
     entry q (i + 1) j
     = entry q i j + dt / 2 * (entry dq i j + entry dq (i + 1) j)) /\
  (forall i j, (0 < i < nGrid)%nat -> (j < fnum * qnum)%nat ->
     nth j q_lower 0 <= entry q i j <= nth j q_upper 0) /\
  (forall i j, (i < nGrid)%nat -> (j < fnum * qnum)%nat ->
     -2 <= entry dq i j <= 2) /\
  (forall f d, (f < fnum)%nat -> (d < 3)%nat ->
     (nth (f * 3 + d) ft_goal_param 0
      - nth d (fingertip_position (row_of q (nGrid - 1)) f) 0) ^ 2
     <= nth (f * 3 + d) a 0) /\
  (forall i f, (10 <= i < nGrid)%nat -> (f < fnum)%nat ->
     xy_radius (fingertip_position (row_of q i) f) <= MAX_FT_R /\
     GROUND_CLEARANCE <= nth 2 (fingertip_position (row_of q i) f) 0).
Proof.
  intros Hn Hz Hq0 Hg Hpc [Hlo Hhi] Ez Es Ec Hsat.
  destruct (decvar_unpack_parts nGrid z t s a Ez) as (Ezz & Lt & Ls).
  assert (La : length a = (3 * fnum)%nat).
  { rewrite Ezz, !length_app in Hz. lia. }
  destruct (s_unpack_entries nGrid s q dq Es)
    as (Wq & Q1 & Q2 & Wdq & D1 & D2 & _).
  set (zero := repeat 0 (fnum * qnum)) in *.
  destruct (path_constraints_table nGrid dt z q0 (Some zero) (Some zero)
              Hn Hz Hq0)
    as (q_lb & dq_lb & q_ub & dq_ub & E & Bql & Bqu & Bdl & Bdu).
  { intros v Hv. inversion Hv. apply repeat_length. }
  { intros v Hv. inversion Hv. apply repeat_length. }
  subst zero.
  assert (Lb : forall m rows, bound_rows m nGrid rows ->
                 length (nz (transpose m)) = (nGrid * (fnum * qnum))%nat).
  { intros m rows (W & S1 & S2 & _).
    rewrite (transpose_nz_length m W), S1, S2. reflexivity. }
  remember (nz (transpose q_lb) ++ nz (transpose dq_lb)) as s_lb eqn:Elb.
  remember (nz (transpose q_ub) ++ nz (transpose dq_ub)) as s_ub eqn:Eub.
  assert (Llb : length s_lb = length (map Fin s))
    by (rewrite Elb, length_app, (Lb _ _ Bql), (Lb _ _ Bdl), length_map; lia).
  assert (Lub : length (map Fin s) = length s_ub)
    by (rewrite Eub, length_app, (Lb _ _ Bqu), (Lb _ _ Bdu), length_map; lia).
  rewrite E in Hpc. injection Hpc as Hlb Hub. subst z_lb z_ub. clear E.
  rewrite decvar_pack_app in Hlo, Hhi. rewrite Ezz, !map_app in Hlo, Hhi.
  apply Forall2_app_split in Hlo;
    [|rewrite !length_map, linspace_length; lia].
  apply Forall2_app_split in Hhi;
    [|rewrite !length_map, linspace_length; lia].
  destruct Hlo as [Tlo Hlo]. destruct Hhi as [Thi Hhi].
  apply Forall2_app_split in Hlo; [|exact Llb].
  apply Forall2_app_split in Hhi; [|exact Lub].
  destruct Hlo as [Slo _]. destruct Hhi as [Shi _].
  rewrite Elb in Slo. rewrite Eub in Shi.
  pose proof (state_within nGrid s q dq q_lb dq_lb q_ub dq_ub _ _ _ _
                Es Bql Bqu Bdl Bdu Slo Shi) as K.
  assert (Et : t = linspace 0 (tf nGrid dt) nGrid)
    by (now apply pinned_equal).
  rewrite (get_constraints_families nGrid ft_goal_param t s a q dq
             Hn Lt Ls La Hg Es) in Ec.
  assert (Ecs : collocation_family nGrid t q dq
                ++ goal_family nGrid ft_goal_param a q
                ++ arena_family 10 nGrid q = cs) by congruence.
  subst cs. clear Ec.
  rewrite Forall_app in Hsat. destruct Hsat as [Hcol Hsat].
  rewrite Forall_app in Hsat. destruct Hsat as [Hgoal Harena].
  rewrite Forall_forall in Hcol, Hgoal, Harena.
  split; [exact Et|].
  split.
  { apply (nth_ext _ _ 0 0); [rewrite row_of_length; lia|].
    rewrite row_of_length. intros j Hj. rewrite row_of_nth by assumption.
    destruct (K 0%nat j ltac:(lia) ltac:(lia)) as [[A B] _].
    unfold q_bound_row in A, B. cbn [Nat.eqb] in A, B. lra. }
  split.
  { apply (nth_ext _ _ 0 0); [rewrite row_of_length, repeat_length; lia|].
    rewrite row_of_length. intros j Hj. rewrite row_of_nth by assumption.
    destruct (K 0%nat j ltac:(lia) ltac:(lia)) as [_ [A B]].
    rewrite pinned_velocity_row in A, B by (now left).
    rewrite nth_repeat. lra. }
  split.
  { apply (nth_ext _ _ 0 0); [rewrite row_of_length, repeat_length; lia|].
    rewrite row_of_length. intros j Hj. rewrite row_of_nth by assumption.
    destruct (K (nGrid - 1)%nat j ltac:(lia) ltac:(lia)) as [_ [A B]].
    rewrite pinned_velocity_row in A, B by (now right).
    rewrite nth_repeat. lra. }
  split.
  { intros i j Hi Hj.
    assert (Hc : satisfied (Constraint (collocation_defect t q dq i j)
                                       (Fin 0) (Fin 0))).
    { apply Hcol. unfold collocation_family. apply in_flat_map.
      exists i. split; [apply in_seq; lia|].
      apply in_map_iff. exists j. split; [reflexivity | apply in_seq; lia]. }
    destruct Hc as [A B]. cbn [g lbg ubg ble] in A, B.
    unfold collocation_defect in A, B.
    rewrite Et, linspace_step in A, B by assumption. lra. }
  split.
  { intros i j Hi Hj.
    destruct (K i j ltac:(lia) Hj) as [[A B] _].
    unfold q_bound_row in A, B.
    destruct (Nat.eqb_spec i 0); [lia|]. split; assumption. }
  split.
  { intros i j Hi Hj.
    destruct (K i j Hi Hj) as [_ [A B]].
    destruct (velocity_row_range nGrid i j Hj) as [L U].
    lra. }
  split.
  { intros f d Hf Hd.
    assert (Hc : satisfied (Constraint
                   (goal_slack_expr ft_goal_param a q (nGrid - 1) f d)
                   (Fin 0) PInf)).
    { apply Hgoal. unfold goal_family. apply in_flat_map.
      exists f. split; [apply in_seq; lia|].
      apply in_map_iff. exists d. split; [reflexivity | apply in_seq; lia]. }
    destruct Hc as [A _]. cbn [g lbg ble] in A.
    unfold goal_slack_expr in A. lra. }
  intros i f Hi Hf.
  assert (Hin : forall c, In c (arena_pair q i f) -> satisfied c).
  { intros c Hc. apply Harena. unfold arena_family. apply in_flat_map.
    exists i. split; [apply in_seq; lia|].
    apply in_flat_map. exists f. split; [apply in_seq; lia | exact Hc]. }
  unfold arena_pair in Hin. cbv zeta in Hin.
  destruct (Hin _ (or_introl eq_refl)) as [A _].
  destruct (Hin _ (or_intror (or_introl eq_refl))) as [B _].
  cbn [g lbg ble] in A, B. split; lra.
Qed.

End Feasible.

Section FeasibleWitness.
Local Open Scope R_scope.

Lemma rest_within_bounds : within_bounds rest_lb rest_z rest_ub.
Proof.
  split; cbv [rest_lb rest_ub rest_z rest_t rest_s rest_a rest_v decvar_pack
              vertcat concat app map repeat q_lower q_upper tile
              one_finger_q_range fnum fst snd];
    repeat (apply Forall2_cons || apply Forall2_nil); cbn [ble];
    try exact I; try apply Rle_refl; lra.
Qed.

Lemma square_gap (x : R) : 0 <= 0 - (x - x) ^ 2.
Proof. replace (x - x) with 0 by lra. lra. Qed.

Lemma rest_satisfied :
  Forall satisfied (collocation_family 2 rest_t rest_q rest_q
                    ++ goal_family 2 rest_reach rest_a rest_q
                    ++ arena_family 10 2 rest_q).
Proof.
  apply Forall_app. split; [|apply Forall_app; split].
  - apply Forall_forall. intros c Hc.
    unfold collocation_family in Hc. apply in_flat_map in Hc.
    destruct Hc as [i [Hi Hc]]. apply in_map_iff in Hc.
    destruct Hc as [j [Ec Hj]]. subst c. apply in_seq in Hi, Hj.
    unfold satisfied, collocation_defect. cbn [g lbg ubg ble].
    rewrite !rest_entry by (unfold fnum, qnum in *; lia). lra.
  - unfold goal_family, fnum. cbn [seq flat_map map app].
    repeat (apply Forall_cons || apply Forall_nil); (split; [|exact I]);
      cbn [g lbg ble]; unfold goal_slack_expr;
      match goal with
      | |- 0 <= _ - (_ - ?x) ^ 2 => exact (square_gap x)
      end.
  - unfold arena_family. cbn [Nat.sub seq flat_map]. constructor.
Qed.

Lemma feasible_point_witness :
  rest_t = linspace 0 (tf 2 1) 2 /\
  row_of rest_q 0 = rest_v /\
  (forall i j, (i + 1 < 2)%nat -> (j < fnum * qnum)%nat ->
     entry rest_q (i + 1) j
     = entry rest_q i j
       + 1 / 2 * (entry rest_q i j + entry rest_q (i + 1) j)).
Proof.
  destruct (feasible_point 2 1 rest_reach rest_v rest_z rest_lb rest_ub
              rest_t rest_s rest_a rest_q rest_q
              (collocation_family 2 rest_t rest_q rest_q
               ++ goal_family 2 rest_reach rest_a rest_q
               ++ arena_family 10 2 rest_q))
    as (H1 & H2 & _ & _ & H3 & _);
    [lia | reflexivity | reflexivity | reflexivity | reflexivity
     | exact rest_within_bounds | reflexivity | reflexivity
     | apply get_constraints_families; (reflexivity || lia)
     | exact rest_satisfied |].
  split; [exact H1|]. split; [exact H2 | exact H3].
Defined.

End FeasibleWitness.

(** ** The decision vector *)

Section DecisionVector.

Lemma SX_sym_wf (name : symbol_name) (r c : nat) : wf (SX_sym name r c).
Proof. unfold SX_sym. apply wf_tabulate. intros; discriminate. Qed.

Lemma SX_sym_get (name : symbol_name) (r c i j : nat) :
  i < r -> j < c -> get (SX_sym name r c) i j = Some (Sym name i j).
Proof.
  intros Hi Hj. unfold SX_sym.
  rewrite get_tabulate by (assumption || (intros; discriminate)).
  reflexivity.
Qed.

Lemma SX_sym_column (name : symbol_name) (r i : nat) :
  i < r -> nth_error (nz (SX_sym name r 1)) i = Some (Sym name i 0).
Proof.
  intros Hi. rewrite <- (SX_sym_get name r 1 i 0) by lia.
  rewrite get_nth by (cbn [SX_sym size1 size2]; lia). reflexivity.
Qed.

Lemma SX_sym_packed (name : symbol_name) (r c i j : nat) :
  i < r -> j < c ->
  nth_error (nz (transpose (SX_sym name r c))) (i * c + j)
  = Some (Sym name i j).
Proof.
  intros Hi Hj. rewrite <- (SX_sym_get name r c i j) by assumption.
  apply (transpose_nz_layout (SX_sym name r c) i j);
    [apply SX_sym_wf | exact Hi | exact Hj].
Qed.

Lemma SX_sym_length (name : symbol_name) (r c : nat) :
  length (nz (SX_sym name r c)) = r * c.
Proof. exact (SX_sym_wf name r c). Qed.

Lemma SX_sym_packed_length (name : symbol_name) (r c : nat) :
  length (nz (transpose (SX_sym name r c))) = r * c.
Proof. exact (transpose_nz_length _ (SX_sym_wf name r c)). Qed.

Lemma dec_vars_Some (nGrid : nat) :
  dec_vars nGrid
  = Some (nz (SX_sym name_t nGrid 1),
          nz (transpose (SX_sym name_q nGrid (qnum * fnum)))
          ++ nz (transpose (SX_sym name_dq nGrid (qnum * fnum))),
          nz (SX_sym name_a (3 * fnum) 1)).
Proof.
  unfold dec_vars.
  rewrite s_pack_Some by (apply SX_sym_wf || reflexivity).
  reflexivity.
Qed.

(** The entries of the decision vector, block by block. *)
Lemma decision_vector_entries (nGrid : nat) :
  exists z,
    decision_vector nGrid = Some z /\
    length z = nGrid + 2 * nGrid * fnum * qnum + 3 * fnum /\
    (forall i, i < nGrid -> nth_error z i = Some (Sym name_t i 0)) /\
    (forall i j, i < nGrid -> j < fnum * qnum ->
       nth_error z (nGrid + i * (fnum * qnum) + j) = Some (Sym name_q i j) /\
       nth_error z (nGrid + nGrid * (fnum * qnum) + i * (fnum * qnum) + j)
       = Some (Sym name_dq i j)) /\
    (forall k, k < 3 * fnum ->
       nth_error z (nGrid + 2 * nGrid * fnum * qnum + k)
       = Some (Sym name_a k 0)).
Proof.
  eexists. split.
  { unfold decision_vector. rewrite dec_vars_Some. cbn [bind].
    rewrite decvar_pack_app. reflexivity. }
  pose proof (SX_sym_length name_t nGrid 1) as Lt.
  pose proof (SX_sym_packed_length name_q nGrid (qnum * fnum)) as Lq.
  pose proof (SX_sym_packed_length name_dq nGrid (qnum * fnum)) as Ldq.
  pose proof (SX_sym_length name_a (3 * fnum) 1) as La.
  unfold fnum, qnum in *.
  split; [rewrite !length_app; lia|].
  split.
  { intros i Hi. rewrite nth_error_app1 by lia. now apply SX_sym_column. }
  split.
  { intros i j Hi Hj. split.
    - rewrite nth_error_app2 by lia. rewrite nth_error_app1 by (rewrite length_app; nia).
      rewrite nth_error_app1 by nia.
      replace (nGrid + i * (3 * 3) + j - length (nz (SX_sym name_t nGrid 1)))
        with (i * (3 * 3) + j) by lia.
      now apply SX_sym_packed.
    - rewrite nth_error_app2 by lia. rewrite nth_error_app1 by (rewrite length_app; nia).
      rewrite nth_error_app2 by nia.
      replace (nGrid + nGrid * (3 * 3) + i * (3 * 3) + j
               - length (nz (SX_sym name_t nGrid 1))
               - length (nz (transpose (SX_sym name_q nGrid (3 * 3)))))
        with (i * (3 * 3) + j) by lia.
      now apply SX_sym_packed. }
  intros k Hk.
  rewrite nth_error_app2 by lia. rewrite nth_error_app2 by (rewrite length_app; lia).
  rewrite length_app.
  replace (nGrid + 2 * nGrid * 3 * 3 + k - length (nz (SX_sym name_t nGrid 1))
           - (length (nz (transpose (SX_sym name_q nGrid (3 * 3))))
              + length (nz (transpose (SX_sym name_dq nGrid (3 * 3))))))
    with k by lia.
  now apply SX_sym_column.
Qed.

(** X14. The decision vector that [StaticObjectOpt.__init__] builds from
    [dec_vars] lists every decision variable exactly once: the [nGrid]
    times, then the positions grid index after grid index (each row joint
    after joint), then the velocities in the same order, then the
    [3 * fnum] slack variables; [s_unpack] of its state block gives back
    the symbol matrices [q] and [dq]. *)
Theorem decision_vector_layout (nGrid : nat) :
  exists z t s a,
    decision_vector nGrid = Some z /\
    length z = nGrid + 2 * nGrid * fnum * qnum + 3 * fnum /\
    NoDup z /\
    (forall i, i < nGrid -> nth_error z i = Some (Sym name_t i 0)) /\
    (forall i j, i < nGrid -> j < fnum * qnum ->
       nth_error z (nGrid + i * (fnum * qnum) + j) = Some (Sym name_q i j) /\
       nth_error z (nGrid + nGrid * (fnum * qnum) + i * (fnum * qnum) + j)
       = Some (Sym name_dq i j)) /\
    (forall k, k < 3 * fnum ->
       nth_error z (nGrid + 2 * nGrid * fnum * qnum + k)
       = Some (Sym name_a k 0)) /\
    dec_vars nGrid = Some (t, s, a) /\
    decvar_unpack nGrid z = Some (t, s, a) /\
    s_unpack nGrid s
    = Some (SX_sym name_q nGrid (qnum * fnum),
            SX_sym name_dq nGrid (qnum * fnum)).
Proof.
  destruct (decision_vector_entries nGrid) as (z & Ez & Lz & Ht & Hs & Ha).
  exists z, (nz (SX_sym name_t nGrid 1)),
         (nz (transpose (SX_sym name_q nGrid (qnum * fnum)))
          ++ nz (transpose (SX_sym name_dq nGrid (qnum * fnum)))),
         (nz (SX_sym name_a (3 * fnum) 1)).
  split; [exact Ez|]. split; [exact Lz|].
  split.
  { (* every index is found again from the symbol it holds *)
    pose (position := fun y =>
            match y with
            | Sym name_t i _ => i
            | Sym name_q i j => nGrid + i * (fnum * qnum) + j
            | Sym name_dq i j =>
              nGrid + nGrid * (fnum * qnum) + i * (fnum * qnum) + j
            | Sym name_a k _ => nGrid + 2 * nGrid * fnum * qnum + k
            end).
    assert (P : forall k y, nth_error z k = Some y -> position y = k).
    { intros k y Hk.
      assert (Hlt : k < length z) by (apply nth_error_Some; congruence).
      rewrite Lz in Hlt. unfold fnum, qnum in *.
      destruct (Nat.lt_ge_cases k nGrid) as [H1|H1].
      { rewrite (Ht k H1) in Hk.
        assert (Ey : Sym name_t k 0 = y) by congruence.
        subst y. reflexivity. }
      destruct (Nat.lt_ge_cases k (nGrid + nGrid * (3 * 3))) as [H2|H2].
      { pose proof (Nat.div_mod_eq (k - nGrid) (3 * 3)) as D.
        pose proof (Nat.mod_upper_bound (k - nGrid) (3 * 3) ltac:(lia)) as M.
        assert (I : (k - nGrid) / (3 * 3) < nGrid)
          by (apply Nat.Div0.div_lt_upper_bound; lia).
        destruct (Hs _ _ I M) as [Hq _].
        replace (nGrid + (k - nGrid) / (3 * 3) * (3 * 3)
                 + (k - nGrid) mod (3 * 3)) with k in Hq by lia.
        rewrite Hq in Hk.
        assert (Ey : Sym name_q ((k - nGrid) / (3 * 3))
                         ((k - nGrid) mod (3 * 3)) = y) by congruence.
        subst y. unfold position. lia. }
      destruct (Nat.lt_ge_cases k (nGrid + 2 * nGrid * 3 * 3)) as [H3|H3].
      { set (k' := k - nGrid - nGrid * (3 * 3)).
        pose proof (Nat.div_mod_eq k' (3 * 3)) as D.
        pose proof (Nat.mod_upper_bound k' (3 * 3) ltac:(lia)) as M.
        assert (I : k' / (3 * 3) < nGrid)
          by (apply Nat.Div0.div_lt_upper_bound; subst k'; lia).
        destruct (Hs _ _ I M) as [_ Hdq].
        replace (nGrid + nGrid * (3 * 3) + k' / (3 * 3) * (3 * 3)
                 + k' mod (3 * 3)) with k in Hdq by (subst k'; lia).
        rewrite Hdq in Hk.
        assert (Ey : Sym name_dq (k' / (3 * 3)) (k' mod (3 * 3)) = y)
          by congruence.
        subst y. unfold position. subst k'. lia. }
      assert (Hk' : k - (nGrid + 2 * nGrid * 3 * 3) < 3 * 3) by lia.
      pose proof (Ha _ Hk') as Hka.
      replace (nGrid + 2 * nGrid * 3 * 3 + (k - (nGrid + 2 * nGrid * 3 * 3)))
        with k in Hka by lia.
      rewrite Hka in Hk.
      assert (Ey : Sym name_a (k - (nGrid + 2 * nGrid * 3 * 3)) 0 = y)
        by congruence.
      subst y. unfold position. lia. }
    apply NoDup_nth_error. intros i j Hi E.
    destruct (nth_error z i) as [y|] eqn:Ei;
      [|apply nth_error_None in Ei; lia].
    rewrite <- (P i y Ei). apply P. now symmetry. }
  split; [exact Ht|]. split; [exact Hs|]. split; [exact Ha|].
  split; [apply dec_vars_Some|].
  assert (Ez' : z = decvar_pack (nz (SX_sym name_t nGrid 1))
                 (nz (transpose (SX_sym name_q nGrid (qnum * fnum)))
                  ++ nz (transpose (SX_sym name_dq nGrid (qnum * fnum))))
                 (nz (SX_sym name_a (3 * fnum) 1))).
  { unfold decision_vector in Ez. rewrite dec_vars_Some in Ez.
    cbn [bind] in Ez. congruence. }
  split.
  - rewrite Ez'. apply decvar_unpack_pack.
    + rewrite SX_sym_length. lia.
    + rewrite length_app, !SX_sym_packed_length. unfold fnum, qnum. lia.
  - apply s_unpack_pack; (apply SX_sym_wf || reflexivity).
Qed.

End DecisionVector.

(** ** The cost is bounded below *)

Section CostBound.
Local Open Scope R_scope.

Ltac unfold_decimals := cbv [Q2R QArith_base.Qnum QArith_base.Qden].

Lemma sum_nonneg {B : Type} (h : B -> R) (l : list B) :
  (forall x, In x l -> 0 <= h x) ->
  0 <= sum (map h l) /\
  (sum (map h l) = 0 <-> forall x, In x l -> h x = 0).
Proof.
  induction l as [|y l IH]; intros H; unfold sum in *; cbn [map fold_right].
  - split; [lra|]. split; [intros _ x []|reflexivity].
  - destruct IH as [IH0 IH1]; [intros x Hx; apply H; now right|].
    pose proof (H y (or_introl eq_refl)) as Hy.
    split; [lra|]. split.
    + intros E x [<-|Hx]; [lra|]. apply IH1; [lra | exact Hx].
    + intros E. rewrite (E y (or_introl eq_refl)).
      assert (E' : fold_right Rplus 0 (map h l) = 0)
        by (apply IH1; intros x Hx; apply E; now right).
      lra.
Qed.

Lemma sum_zero {B : Type} (h : B -> R) (l : list B) :
  (forall x, In x l -> h x = 0) -> sum (map h l) = 0.
Proof.
  induction l as [|y l IH]; intros H; unfold sum in *; cbn [map fold_right];
    [reflexivity|].
  rewrite (H y (or_introl eq_refl)), IH by (intros x Hx; apply H; now right).
  ring.
Qed.

Lemma square_zero (x : R) : x ^ 2 = 0 -> x = 0.
Proof. intros H. nra. Qed.

Lemma sum_of_nonneg (a : list R) :
  Forall (fun x => 0 <= x) a ->
  0 <= sum a /\ (sum a = 0 <-> Forall (fun x => x = 0) a).
Proof.
  intros H. rewrite Forall_forall in H.
  destruct (sum_nonneg (fun x => x) a H) as [H0 H1].
  rewrite map_id in H0, H1. split; [exact H0|].
  rewrite Forall_forall. exact H1.
Qed.

(** The tracking term is three times the squared distance to the goal. *)
Lemma tracking_cost_squares (ft_goal_param : list R) (q : matrix R)
      (i f : nat) :
  tracking_cost ft_goal_param q i f
  = 3 * ((nth (3 * f + 0) ft_goal_param 0
          - nth 0 (fingertip_position (row_of q i) f) 0) ^ 2
         + (nth (3 * f + 1) ft_goal_param 0
            - nth 1 (fingertip_position (row_of q i) f) 0) ^ 2
         + (nth (3 * f + 2) ft_goal_param 0
            - nth 2 (fingertip_position (row_of q i) f) 0) ^ 2).
Proof.
  unfold tracking_cost, goal_error. cbn [map seq].
  set (e0 := nth (3 * f + 0) ft_goal_param 0
             - nth 0 (fingertip_position (row_of q i) f) 0).
  set (e1 := nth (3 * f + 1) ft_goal_param 0
             - nth 1 (fingertip_position (row_of q i) f) 0).
  set (e2 := nth (3 * f + 2) ft_goal_param 0
             - nth 2 (fingertip_position (row_of q i) f) 0).
  clearbody e0 e1 e2.
  cbv [quad_form Q_weight mscale eye map seq length nth qnum Nat.eqb sum
       fold_right].
  unfold_decimals. field.
Qed.

(** The velocity term is 0.005 times the squared joint velocities. *)
Lemma velocity_cost_squares (dq : matrix R) (i : nat) :
  size2 dq = (fnum * qnum)%nat ->
  velocity_cost dq i
  = 0.005 * sum (map (fun j => entry dq i j ^ 2) (seq 0 (fnum * qnum))).
Proof.
  intros H. unfold velocity_cost, row_of. rewrite H.
  unfold fnum, qnum. cbn [Nat.mul Nat.add seq map].
  generalize (entry dq i 0) (entry dq i 1) (entry dq i 2) (entry dq i 3)
             (entry dq i 4) (entry dq i 5) (entry dq i 6) (entry dq i 7)
             (entry dq i 8).
  intros v0 v1 v2 v3 v4 v5 v6 v7 v8.
  cbv [quad_form R_weight mscale eye map seq length nth qnum fnum Nat.eqb sum
       fold_right Nat.mul Nat.add].
  unfold_decimals. field.
Qed.

Lemma collision_cost_zero (obj_shape : vec3)
      (invert_transform : vec3 -> quat -> vec3 * quat)
      (get_matrix_from_quaternion : quat -> vec3 * vec3 * vec3)
      (get_sphere_centers_wf : nat -> list R -> nat -> list vec3)
      (obj_pose_param : pose) (q : matrix R) (i f : nat) :
  collision_cost obj_shape invert_transform get_matrix_from_quaternion
                 get_sphere_centers_wf obj_pose_param q i f = 0.
Proof.
  unfold collision_cost, collision_weight. cbn [map].
  assert (E : forall (h : vec3 -> R) (l : list vec3),
             sum (map (fun c => h c * 0) l) = 0).
  { intros h l. induction l as [|c l IH]; unfold sum in *; cbn [map fold_right];
      [reflexivity | rewrite IH; ring]. }
  rewrite E. unfold sum. cbn [fold_right]. ring.
Qed.

Lemma tracking_zero (ft_goal_param : list R) (q : matrix R) (i f : nat) :
  0 <= tracking_cost ft_goal_param q i f /\
  (tracking_cost ft_goal_param q i f = 0 <->
   forall d, (d < 3)%nat ->
     nth (3 * f + d) ft_goal_param 0
     = nth d (fingertip_position (row_of q i) f) 0).
Proof.
  rewrite tracking_cost_squares.
  set (e0 := nth (3 * f + 0) ft_goal_param 0
             - nth 0 (fingertip_position (row_of q i) f) 0).
  set (e1 := nth (3 * f + 1) ft_goal_param 0
             - nth 1 (fingertip_position (row_of q i) f) 0).
  set (e2 := nth (3 * f + 2) ft_goal_param 0
             - nth 2 (fingertip_position (row_of q i) f) 0).
  pose proof (pow2_ge_0 e0). pose proof (pow2_ge_0 e1).
  pose proof (pow2_ge_0 e2).
  split; [lra|]. split.
  - intros E.
    assert (E0 : e0 ^ 2 = 0) by lra. assert (E1 : e1 ^ 2 = 0) by lra.
    assert (E2 : e2 ^ 2 = 0) by lra.
    apply square_zero in E0, E1, E2.
    intros d Hd. destruct d as [|[|[|d]]]; [| | |lia];
      [subst e0 | subst e1 | subst e2]; lra.
  - intros E.
    assert (E0 : e0 = 0) by (subst e0; rewrite (E 0%nat) by lia; lra).
    assert (E1 : e1 = 0) by (subst e1; rewrite (E 1%nat) by lia; lra).
    assert (E2 : e2 = 0) by (subst e2; rewrite (E 2%nat) by lia; lra).
    rewrite E0, E1, E2. lra.
Qed.

Lemma velocity_zero (dq : matrix R) (i : nat) :
  size2 dq = (fnum * qnum)%nat ->
  0 <= velocity_cost dq i /\
  (velocity_cost dq i = 0 <->
   forall j, (j < fnum * qnum)%nat -> entry dq i j = 0).
Proof.
  intros H. rewrite (velocity_cost_squares dq i H).
  destruct (sum_nonneg (fun j => entry dq i j ^ 2) (seq 0 (fnum * qnum)))
    as [S0 S1]; [intros; apply pow2_ge_0|].
  split; [lra|]. split.
  - intros E j Hj.
    assert (E' : sum (map (fun j => entry dq i j ^ 2) (seq 0 (fnum * qnum))) = 0)
      by lra.
    apply square_zero. apply (proj1 S1 E'). apply in_seq. lia.
  - intros E.
    assert (E' : sum (map (fun j => entry dq i j ^ 2) (seq 0 (fnum * qnum))) = 0).
    { apply S1. intros j Hj. apply in_seq in Hj. rewrite E by lia. lra. }
    rewrite E'. lra.
Qed.

Variable nGrid : nat.
Variable obj_shape : vec3.
Variable invert_transform : vec3 -> quat -> vec3 * quat.
Variable get_matrix_from_quaternion : quat -> vec3 * vec3 * vec3.
Variable get_sphere_centers_wf : nat -> list R -> nat -> list vec3.

(** X15. With slack variables that are not negative (their lower bound in
    [path_constraints]), the cost is at least 150 times the sum of the
    slack variables, hence at least 0; and it is 0 exactly when every slack
    variable is 0, every fingertip is at its goal at every grid index (not
    only at the last one) and every joint velocity is 0. *)
Theorem cost_bounded_below (ft_goal_param : list R) (obj_pose_param : pose)
        (t s a : list R) (q dq : matrix R) :
  length t = nGrid ->
  length s = (2 * nGrid * fnum * qnum)%nat ->
  length a = (3 * fnum)%nat ->
  length ft_goal_param = (3 * fnum)%nat ->
  s_unpack nGrid s = Some (q, dq) ->
  Forall (fun x => 0 <= x) a ->
  exists c,
    cost_func nGrid obj_shape invert_transform get_matrix_from_quaternion
              get_sphere_centers_wf ft_goal_param obj_pose_param t s a
    = Some c /\
    0 <= 150 * sum a <= c /\
    (c = 0 <->
     Forall (fun x => x = 0) a /\
     (forall i f d, (i < nGrid)%nat -> (f < fnum)%nat -> (d < 3)%nat ->
        nth (3 * f + d) ft_goal_param 0
        = nth d (fingertip_position (row_of q i) f) 0) /\
     (forall i j, (i < nGrid)%nat -> (j < fnum * qnum)%nat ->
        entry dq i j = 0)).
Proof.
  intros Ht Hs Ha Hg Hqdq Hpos.
  destruct (s_unpack_Some nGrid s Hs)
    as (q' & dq' & Hqdq' & _ & _ & _ & _ & _ & D2).
  rewrite Hqdq in Hqdq'.
  assert (Edq : dq' = dq) by congruence. subst dq'. clear Hqdq'.
  eexists. split.
  { apply (cost_func_terms nGrid obj_shape invert_transform
             get_matrix_from_quaternion get_sphere_centers_wf
             ft_goal_param obj_pose_param t s a q dq); assumption. }
  set (track := sum_over_grid nGrid
                  (fun i => sum_over_fingers (tracking_cost ft_goal_param q i))).
  set (vel := sum_over_grid nGrid (velocity_cost dq)).
  assert (Ecol : sum_over_grid nGrid
                   (fun i => sum_over_fingers
                      (collision_cost obj_shape invert_transform
                         get_matrix_from_quaternion get_sphere_centers_wf
                         obj_pose_param q i)) = 0).
  { unfold sum_over_grid, sum_over_fingers.
    apply sum_zero. intros i _. apply sum_zero. intros f _.
    apply collision_cost_zero. }
  rewrite Ecol.
  destruct (sum_of_nonneg a Hpos) as [A0 A1].
  assert (Tf : forall i,
             0 <= sum_over_fingers (tracking_cost ft_goal_param q i) /\
             (sum_over_fingers (tracking_cost ft_goal_param q i) = 0 <->
              forall f, In f (seq 0 fnum) ->
                        tracking_cost ft_goal_param q i f = 0)).
  { intros i. apply sum_nonneg. intros f _. apply tracking_zero. }
  destruct (sum_nonneg
              (fun i => sum_over_fingers (tracking_cost ft_goal_param q i))
              (seq 0 nGrid)) as [T0 T1]; [intros i _; apply Tf|].
  destruct (sum_nonneg (velocity_cost dq) (seq 0 nGrid)) as [V0 V1];
    [intros i _; now apply velocity_zero|].
  fold (sum_over_grid nGrid
          (fun i => sum_over_fingers (tracking_cost ft_goal_param q i)))
    in T0, T1.
  fold (sum_over_grid nGrid (velocity_cost dq)) in V0, V1.
  fold track in T0, T1. fold vel in V0, V1.
  unfold slack_penalty, W_SLACK.
  split; [lra|]. split.
  - intros E.
    assert (Ea : sum a = 0) by lra.
    assert (Et : track = 0) by lra.
    assert (Ev : vel = 0) by lra.
    split; [now apply A1|]. split.
    + intros i f d Hi Hf Hd.
      pose proof (proj1 T1 Et i ltac:(apply in_seq; lia)) as Ei.
      pose proof (proj1 (proj2 (Tf i)) Ei f ltac:(apply in_seq; lia)) as Ef.
      now apply (proj1 (proj2 (tracking_zero ft_goal_param q i f)) Ef).
    + intros i j Hi Hj.
      pose proof (proj1 V1 Ev i ltac:(apply in_seq; lia)) as Ei.
      now apply (proj1 (proj2 (velocity_zero dq i D2)) Ei).
  - intros (Za & Zt & Zv).
    assert (Ea : sum a = 0) by (now apply A1).
    assert (Et : track = 0).
    { apply T1. intros i Hi. apply in_seq in Hi.
      apply (proj2 (Tf i)). intros f Hf. apply in_seq in Hf.
      apply (proj2 (tracking_zero ft_goal_param q i f)).
      intros d Hd. apply Zt; lia. }
    assert (Ev : vel = 0).
    { apply V1. intros i Hi. apply in_seq in Hi.
      apply (proj2 (velocity_zero dq i D2)). intros j Hj. apply Zv; lia. }
    rewrite Ea, Et, Ev. lra.
Qed.

End CostBound.

Section CostBoundWitness.
Local Open Scope R_scope.

Lemma cost_bounded_below_witness :
  exists c,
    cost_func 2 unit_shape keep_transform identity_rotation origin_centers
              rest_goal pose_origin rest_t rest_s rest_a = Some c /\
    0 <= 150 * sum rest_a <= c.
Proof.
  destruct (cost_bounded_below 2 unit_shape keep_transform identity_rotation
              origin_centers rest_goal pose_origin rest_t rest_s rest_a
              rest_q rest_q) as (c & H1 & H2 & _);
    [reflexivity | reflexivity | reflexivity | reflexivity | reflexivity
     | unfold rest_a; cbn [repeat]; repeat (apply Forall_cons || apply Forall_nil);
       lra |].
  exists c. split; [exact H1 | exact H2].
Defined.

End CostBoundWitness.

(** ** The collocation defects in binary64 *)

Section Binary64Defects.
Import PrimFloat.
Local Open Scope float_scope.






End Binary64Defects.
